(** * Summer Breeze: a shallow embedding of [summerbreeze.py]

    The tool is a command-line front end over the [sc64deployer]
    executable.  This development embeds the listing parser, the ROM
    inventory functions, the interactive prompts and the commands built on
    them, and proves the properties the specification states about them.

    Conventions of the embedding.
    - A Python [str] is a list of characters; a character is a code point
      below 256 ([ascii]), with [str.lower] and [str.isspace] as Python
      defines them on that range.
    - The outside world (the deployer process, the terminal, the local
      directories, the clock) is a record [world]; a Python function with
      effects is a function [world -> result A * world] that either returns
      a value or raises one of the exceptions of [exn].
    - A [while True] loop that reads the terminal is unrolled at most once
      more than there are pending terminal events: each iteration consumes
      one, and reading past the last raises [EOFError]. *)

From Stdlib Require Import ZArith NArith Ascii String List Bool Lia.
From Stdlib Require Import DecimalString.
From stdpp Require Import gmap strings list sorting.
Import ListNotations.

Set Warnings "-register-all".
Local Open Scope Z_scope.

(** ** Python text *)

Abbreviation str := (list ascii).

(** A string literal of the source. *)
Definition txt (x : string) : str := list_ascii_of_string x.
Arguments txt x%_string.

(** The newline character, written ["\n"] in the source. *)
Definition nl : ascii := "010"%char.

Definition ord (c : ascii) : N := N_of_ascii c.

(** [str.isspace] on one character: tab to carriage return, the four
    information separators, the space, NEL and the no-break space. *)
Definition isspace (c : ascii) : bool :=
  let n := ord c in
  (((9 <=? n) && (n <=? 13)) || ((28 <=? n) && (n <=? 32))
   || (n =? 133) || (n =? 160))%N.

(** [str.lower] on one character: the letters A-Z and the Latin-1 capitals. *)
Definition lower_char (c : ascii) : ascii :=
  let n := ord c in
  if (((65 <=? n) && (n <=? 90))
      || ((192 <=? n) && (n <=? 222) && negb (n =? 215)))%N
  then ascii_of_N (n + 32) else c.

Definition lower (s : str) : str := map lower_char s.

Fixpoint lstrip (s : str) : str :=
  match s with
  | [] => []
  | c :: s' => if isspace c then lstrip s' else s
  end.

Fixpoint rstrip (s : str) : str :=
  match s with
  | [] => []
  | c :: s' =>
      match rstrip s' with
      | [] => if isspace c then [] else [c]
      | t => c :: t
      end
  end.

(** [s.strip()] *)
Definition strip (s : str) : str := rstrip (lstrip s).

(** [s.rstrip(ch)] for a one-character argument. *)
Fixpoint rstrip_char (ch : ascii) (s : str) : str :=
  match s with
  | [] => []
  | c :: s' =>
      match rstrip_char ch s' with
      | [] => if Ascii.eqb c ch then [] else [c]
      | t => c :: t
      end
  end.

Fixpoint startswith (s prefix : str) {struct prefix} : bool :=
  match prefix, s with
  | [], _ => true
  | _ :: _, [] => false
  | p :: prefix', c :: s' => Ascii.eqb c p && startswith s' prefix'
  end.

Definition endswith (s suffix : str) : bool :=
  startswith (rev s) (rev suffix).

(** [sub in s] *)
Fixpoint contains (sub s : str) : bool :=
  startswith s sub ||
  match s with
  | [] => false
  | _ :: s' => contains sub s'
  end.

(** [s.split(sep)] for a one-character separator. *)
Fixpoint split (sep : ascii) (s : str) : list str :=
  match s with
  | [] => [[]]
  | c :: s' =>
      if Ascii.eqb c sep then [] :: split sep s'
      else match split sep s' with
           | l :: ls => (c :: l) :: ls
           | [] => [[c]]
           end
  end.

(** [s.split(sep, 1)]: split at the first separator only. *)
Fixpoint split1 (sep : ascii) (s : str) : list str :=
  match s with
  | [] => [[]]
  | c :: s' =>
      if Ascii.eqb c sep then [[]; s']
      else match split1 sep s' with
           | l :: ls => (c :: l) :: ls
           | [] => [[c]]
           end
  end.

(** [s.rsplit(sep, 1)]: split at the last separator only. *)
Definition rsplit1 (sep : ascii) (s : str) : list str :=
  map (@rev ascii) (rev (split1 sep (rev s))).

(** [s.split()]: the maximal runs of characters that are not whitespace. *)
Fixpoint split_ws (s : str) : list str :=
  match s with
  | [] => []
  | c :: s' =>
      if isspace c then split_ws s'
      else match s' with
           | [] => [[c]]
           | d :: _ =>
               if isspace d then [c] :: split_ws s'
               else match split_ws s' with
                    | t :: ts => (c :: t) :: ts
                    | [] => [[c]]
                    end
           end
  end.

(** [name[:-k]] *)
Definition drop_last (k : nat) (s : str) : str :=
  match k with
  | O => []
  | _ => take (length s - k)%nat s
  end.

(** Comparison of strings by code points, as [<=] on [str]. *)
Fixpoint str_le (a b : str) : bool :=
  match a, b with
  | [], _ => true
  | _ :: _, [] => false
  | x :: a', y :: b' =>
      if (ord x <? ord y)%N then true
      else if (ord y <? ord x)%N then false
      else str_le a' b'
  end.

(** ** Python integers as text *)

Definition digit_val (c : ascii) : option Z :=
  let n := ord c in
  if ((48 <=? n) && (n <=? 57))%N then Some (Z.of_N n - 48) else None.

(** The digits of an [int] literal: at least one digit, single
    underscores allowed between digits. *)
Fixpoint parse_digits (acc : Z) (after_digit : bool) (s : str) : option Z :=
  match s with
  | [] => if after_digit then Some acc else None
  | c :: s' =>
      match digit_val c with
      | Some d => parse_digits (10 * acc + d) true s'
      | None =>
          if Ascii.eqb c "_"%char && after_digit
          then parse_digits acc false s'
          else None
      end
  end.

(** The longest literal [int] converts, in digits:
    [sys.int_info.default_max_str_digits].  The program does not change
    it. *)
Definition int_max_str_digits : Z := 4300.

(** The digits of a literal, leading zeros included. *)
Definition count_digits (s : str) : Z :=
  Z.of_nat
    (length (List.filter (fun c => bool_decide (is_Some (digit_val c))) s)).

(** The digits of a literal that is not too long to convert. *)
Definition parse_literal (s : str) : option Z :=
  if int_max_str_digits <? count_digits s then None
  else parse_digits 0 false s.

(** [int(s)]; [None] stands for [ValueError], which a literal of more
    than [int_max_str_digits] digits raises too. *)
Definition py_int (s : str) : option Z :=
  match strip s with
  | c :: r =>
      if Ascii.eqb c "+"%char then parse_literal r
      else if Ascii.eqb c "-"%char then Z.opp <$> parse_literal r
      else parse_literal (c :: r)
  | [] => None
  end.

(** [str(n)] for an integer. *)
Definition repr (n : Z) : str :=
  list_ascii_of_string (NilZero.string_of_int (Z.to_int n)).

(** [f"{s:>w}"]: pad with spaces on the left up to width [w]. *)
Definition pad_left (w : nat) (s : str) : str :=
  repeat " "%char (w - length s)%nat ++ s.

(** [f"{i:2}"] *)
Definition fmt2 (i : Z) : str := pad_left 2 (repr i).

(** [f"{st_size / (1024 * 1024):.1f}"].  The quotient is a dyadic
    rational, exact as a float for sizes below 2^53; it is printed with
    one decimal, ties to the even digit. *)
Definition fmt_mb (st_size : Z) : str :=
  let scaled := st_size * 10 in
  let q := scaled / 1048576 in
  let r := scaled mod 1048576 in
  let tenths :=
    if (524288 <? r) || ((r =? 524288) && Z.odd q) then q + 1 else q in
  repr (tenths / 10) ++ txt "." ++ repr (tenths mod 10).

(** ** The outside world *)

(** The exceptions that reach the code.  [Diverged] is not a Python
    exception: it marks a loop that used up its unrolling bound, which
    [input_loop_unrolled] shows the loops of the program never do. *)
Inductive exn :=
  | FileNotFoundError | PermissionError | OSError
  | ValueError | KeyboardInterrupt | EOFError
  | IndexError | UnboundLocalError | RecursionError
  | Diverged.

Global Instance exn_eq_dec : EqDecision exn.
Proof. solve_decision. Defined.

(** What [subprocess.run(cmd, capture_output=True, text=True, ...)] does:
    the process ran and left an exit code and its two outputs, or it could
    not be started and the call raised. *)
Inductive run_result :=
  | Completed (returncode : Z) (out err : str)
  | NotStarted (e : exn).

(** What [input()] finds on the terminal: a line, or Ctrl-C. *)
Inductive stdin_event :=
  | Line (s : str)
  | CtrlC.

(** What the program writes: [print(s)], or the prompt of [input(s)]. *)
Inductive out_event :=
  | Print (s : str)
  | Prompt (s : str).

(** A local directory tree. *)
Inductive fs_node :=
  | FsFile (name : str) (st_size : Z)
  | FsDir (name : str) (children : list fs_node).

(** A [pathlib.Path] as the code uses it: [str(p)], [p.name],
    [p.is_file()] and [p.stat().st_size]. *)
Record Path := mkPath {
  p_str : str;
  p_name : str;
  p_is_file : bool;
  p_size : Z;
}.

Record world := World {
  (** [SCRIPT_DIR], as text *)
  script_dir : str;
  (** [platform.system() == "Windows"] *)
  on_windows : bool;
  (** [datetime.now().strftime("%Y%m%d_%H%M%S")] *)
  timestamp : str;
  (** how many nested calls of [get_all_sd_roms] the interpreter allows *)
  recursion_limit : nat;
  (** the deployer: what its n-th run, with these arguments, does *)
  deployer : nat -> list str -> run_result;
  (** the runs of the deployer so far, oldest first *)
  calls : list (list str * run_result);
  (** the content of [LOCAL_ROMS_DIR]; [None] when it does not exist *)
  roms_dir : option (list fs_node);
  (** the content of [MENU_VERSIONS_DIR]; [None] when it does not exist *)
  menu_versions_dir : option (list fs_node);
  (** what the user will type *)
  stdin : list stdin_event;
  (** what has been written *)
  stdout : list out_event;
}.

Definition set_calls (v : list (list str * run_result)) (w : world) : world :=
  World (script_dir w) (on_windows w) (timestamp w) (recursion_limit w)
        (deployer w) v (roms_dir w) (menu_versions_dir w) (stdin w) (stdout w).

Definition set_menu_versions_dir (v : option (list fs_node)) (w : world) : world :=
  World (script_dir w) (on_windows w) (timestamp w) (recursion_limit w)
        (deployer w) (calls w) (roms_dir w) v (stdin w) (stdout w).

Definition set_stdin (v : list stdin_event) (w : world) : world :=
  World (script_dir w) (on_windows w) (timestamp w) (recursion_limit w)
        (deployer w) (calls w) (roms_dir w) (menu_versions_dir w) v (stdout w).

Definition set_stdout (v : list out_event) (w : world) : world :=
  World (script_dir w) (on_windows w) (timestamp w) (recursion_limit w)
        (deployer w) (calls w) (roms_dir w) (menu_versions_dir w) (stdin w) v.

(** ** Effects: state and exceptions *)

Inductive result (A : Type) :=
  | Ok (a : A)
  | Raise (e : exn).
Arguments Ok {A} a.
Arguments Raise {A} e.

Definition M (A : Type) : Type := world -> result A * world.

Definition ret {A} (a : A) : M A := fun w => (Ok a, w).

Definition bind {A B} (m : M A) (k : A -> M B) : M B :=
  fun w =>
    match m w with
    | (Ok a, w') => k a w'
    | (Raise e, w') => (Raise e, w')
    end.

Definition raise {A} (e : exn) : M A := fun w => (Raise e, w).

(** [try: m  except ...: handler]; a handler re-raises what it does not
    catch. *)
Definition try {A} (m : M A) (handler : exn -> M A) : M A :=
  fun w =>
    match m w with
    | (Raise e, w') => handler e w'
    | r => r
    end.

Definition get_world : M world := fun w => (Ok w, w).

Notation "'do' x <- m ; k" := (bind m (fun x => k))
  (at level 10, x name, m at level 100, k at level 200).
Notation "'do' ' p <- m ; k" := (bind m (fun x => match x with p => k end))
  (at level 10, p pattern, m at level 100, k at level 200).
Notation "m ;; k" := (bind m (fun _ => k))
  (at level 100, k at level 200, right associativity).

(** The value and the final world of a run. *)
Definition eval {A} (m : M A) (w : world) : result A := fst (m w).
Definition exec {A} (m : M A) (w : world) : world := snd (m w).

(** [for x in l: body x] *)
Fixpoint for_each {A} (l : list A) (body : A -> M unit) : M unit :=
  match l with
  | [] => ret tt
  | x :: l' => body x ;; for_each l' body
  end.

(** A loop that carries a value from one iteration to the next. *)
Fixpoint for_fold {A S} (l : list A) (body : S -> A -> M S) (s : S) : M S :=
  match l with
  | [] => ret s
  | x :: l' => do s' <- body s x; for_fold l' body s'
  end.

(** What one iteration of a [while True] loop decides. *)
Inductive loop_step (S A : Type) :=
  | Continue (s : S)
  | Return (a : A).
Arguments Continue {S A} s.
Arguments Return {S A} a.

Fixpoint iterate {S A} (fuel : nat) (body : S -> M (loop_step S A)) (s : S)
  : M A :=
  match fuel with
  | O => raise Diverged
  | Datatypes.S n =>
      do r <- body s;
      match r with
      | Continue s' => iterate n body s'
      | Return a => ret a
      end
  end.

(** A [while True] loop each of whose iterations calls [input]. *)
Definition input_loop {S A} (body : S -> M (loop_step S A)) (s : S) : M A :=
  fun w => iterate (Datatypes.S (length (stdin w))) body s w.

(** [print(s)] *)
Definition print (s : str) : M unit :=
  fun w => (Ok tt, set_stdout (stdout w ++ [Print s]) w).

(** [input(prompt)] *)
Definition input (prompt : str) : M str :=
  fun w =>
    let w' := set_stdout (stdout w ++ [Prompt prompt]) w in
    match stdin w with
    | [] => (Raise EOFError, w')
    | Line s :: rest => (Ok s, set_stdin rest w')
    | CtrlC :: rest => (Raise KeyboardInterrupt, set_stdin rest w')
    end.

(** [l[i]] with Python's negative indices and [IndexError]. *)
Definition index {A} (l : list A) (i : Z) : M A :=
  let n := Z.of_nat (length l) in
  let j := if i <? 0 then i + n else i in
  if (j <? 0) || (n <=? j) then raise IndexError
  else match l !! Z.to_nat j with
       | Some x => ret x
       | None => raise IndexError
       end.

(** [l[a:b]] for indices that are not negative. *)
Definition slice {A} (a b : Z) (l : list A) : list A :=
  take (Z.to_nat b - Z.to_nat a)%nat (drop (Z.to_nat a) l).

(** [enumerate(l, start)] *)
Fixpoint enumerate {A} (start : Z) (l : list A) : list (Z * A) :=
  match l with
  | [] => []
  | x :: l' => (start, x) :: enumerate (start + 1) l'
  end.

(** [sorted(l, key=key)]: a stable sort, equal keys keep their order. *)
Fixpoint insert_sorted {A} (key : A -> str) (x : A) (l : list A) : list A :=
  match l with
  | [] => [x]
  | y :: l' =>
      if str_le (key x) (key y) then x :: l
      else y :: insert_sorted key x l'
  end.

Definition sorted {A} (key : A -> str) (l : list A) : list A :=
  foldr (insert_sorted key) [] l.

(** ** Configuration (lines 12-29 of the source) *)

Definition sep (w : world) : str :=
  if on_windows w then txt "\" else txt "/".

(** [parent / name] *)
Definition joinpath (w : world) (parent name : str) : str :=
  parent ++ sep w ++ name.

Definition SC64_DEPLOYER (w : world) : str :=
  joinpath w (script_dir w)
    (if on_windows w then txt "sc64deployer.exe" else txt "sc64deployer").

Definition LOCAL_ROMS_DIR (w : world) : str :=
  joinpath w (script_dir w) (txt "roms").

Definition MENU_VERSIONS_DIR (w : world) : str :=
  joinpath w (script_dir w) (txt "menu_versions").

Definition SD_MENU_PATH : str := txt "/sc64menu.n64".

Definition ROM_EXTENSIONS : gset str :=
  {[ txt ".z64"; txt ".n64"; txt ".v64" ]}.

(** ** The deployer invoker *)

(** [subprocess.run(cmd, ...)]: the run is logged, then its outcome is
    returned or raised. *)
Definition subprocess_run (args : list str) : M (Z * str * str) :=
  fun w =>
    let r := deployer w (length (calls w)) args in
    let w' := set_calls (calls w ++ [(args, r)]) w in
    match r with
    | Completed code out err => (Ok (code, out, err), w')
    | NotStarted e => (Raise e, w')
    end.

Definition run_sc64_command (args : list str) : M (Z * str * str) :=
  try (subprocess_run args)
      (fun e =>
         match e with
         | FileNotFoundError =>
             do w <- get_world;
             ret (-1, [], txt "Error: sc64deployer not found at "
                          ++ SC64_DEPLOYER w)
         | _ => raise e
         end).

Definition check_device_connected : M bool :=
  do '(code, out, err) <- run_sc64_command [txt "list"];
  ret ((code =? 0) && contains (txt "Found devices:") out).

Definition is_sd_card_accessible : M bool :=
  do '(code, out, err) <- run_sc64_command [txt "sd"; txt "ls"];
  ret ((code =? 0) && contains (txt "|") out).

(** ** The listing parser *)

(** One record of a listing: the dictionary with the keys ["name"],
    ["type"], ["size"] and ["path"]. *)
Record sd_entry := mkEntry {
  e_name : str;
  e_type : str;
  e_size : str;
  e_path : str;
}.

Global Instance sd_entry_eq_dec : EqDecision sd_entry.
Proof. solve_decision. Defined.

(** The body of the [for line in ...] loop of [list_sd_card_files]
    (lines 68-92): [files] is the list built so far. *)
Definition listing_line (files : list sd_entry) (line : str) : list sd_entry :=
  if bool_decide (strip line = []) then files
  else if negb (contains (txt "|") line) then files
  else
    match split1 "|"%char line with
    | [part0; part1] =>
        let meta := strip part0 in
        let name := strip part1 in
        let file_type :=
          if startswith meta (txt "d") then txt "dir" else txt "file" in
        let size_str :=
          match split_ws meta with
          | _ :: size :: _ => size
          | _ => []
          end in
        files ++ [mkEntry name file_type size_str
                    (if startswith name (txt "/") then name
                     else txt "/" ++ name)]
    | _ => files
    end.

Definition parse_listing (out : str) : list sd_entry :=
  fold_left listing_line (split nl (strip out)) [].

Definition list_sd_card_files (path : option str) : M (list sd_entry) :=
  do '(code, out, err) <-
    (match path with
     | None => run_sc64_command [txt "sd"; txt "ls"]
     | Some p =>
         if bool_decide (p = txt "/")
         then run_sc64_command [txt "sd"; txt "ls"]
         else run_sc64_command [txt "sd"; txt "ls"; p]
     end);
  if negb (code =? 0) then ret [] else ret (parse_listing out).

(** ** The ROM inventory *)

(** [any(name.lower().endswith(ext) for ext in ROM_EXTENSIONS)] *)
Definition is_rom_name (name : str) : bool :=
  existsb (endswith (lower name)) (elements ROM_EXTENSIONS).

(** [get_all_sd_roms(path, found)] with [depth] nested calls left; the
    list [found] is shared by all the nested calls, each of which appends
    to it. *)
Fixpoint get_all_sd_roms_from (depth : nat) (path : option str)
    (found : list sd_entry) : M (list sd_entry) :=
  match depth with
  | O => raise RecursionError
  | S depth' =>
      do files <- list_sd_card_files path;
      for_fold files
        (fun found f =>
           if bool_decide (e_type f = txt "dir")
           then get_all_sd_roms_from depth' (Some (e_path f)) found
           else if is_rom_name (e_name f) then ret (found ++ [f])
           else ret found)
        found
  end.

Definition get_all_sd_roms (path : option str) : M (list sd_entry) :=
  do w <- get_world;
  get_all_sd_roms_from (recursion_limit w) path [].

(** [Path.suffix]: the text from the last dot of the name on, when that
    dot is neither the first nor the last character. *)
Definition suffix (name : str) : str :=
  match rsplit1 "."%char name with
  | [stem; ext] =>
      match stem, ext with
      | _ :: _, _ :: _ => "."%char :: ext
      | _, _ => []
      end
  | _ => []
  end.

(** [dir.iterdir()] *)
Definition iterdir (sp : str) (parent : str) (children : list fs_node)
  : list Path :=
  map (fun n =>
         match n with
         | FsFile name st_size => mkPath (parent ++ sp ++ name) name true st_size
         | FsDir name _ => mkPath (parent ++ sp ++ name) name false 0
         end) children.

(** What [rglob] yields for the directories below [parent]: for the
    directory [n], its entries, then what lies below them. *)
Fixpoint rglob_below_node (sp : str) (parent : str) (n : fs_node)
  : list Path :=
  match n with
  | FsFile _ _ => []
  | FsDir name children =>
      iterdir sp (parent ++ sp ++ name) children
      ++ flat_map (rglob_below_node sp (parent ++ sp ++ name)) children
  end.

(** [dir.rglob("*")] for the directory [parent] with the content
    [children]: every entry below it, directories included; [sp] is the
    path separator.  The walk is that of [pathlib]: the directories in
    pre-order, and for each one all its entries, in the order the
    directory lists them, before those of its subdirectories. *)
Definition rglob (sp : str) (parent : str) (children : list fs_node)
  : list Path :=
  iterdir sp parent children
  ++ flat_map (rglob_below_node sp parent) children.

(** [file.is_file() and file.suffix.lower() in ROM_EXTENSIONS] *)
Definition is_rom_file (file : Path) : bool :=
  p_is_file file && bool_decide (lower (suffix (p_name file)) ∈ ROM_EXTENSIONS).

Definition list_local_roms : M (list Path) :=
  do w <- get_world;
  match roms_dir w with
  | None => ret []
  | Some children =>
      let roms :=
        List.filter is_rom_file
          (rglob (sep w) (LOCAL_ROMS_DIR w) children) in
      ret (sorted (fun x => lower (p_name x)) roms)
  end.

(** [normalize_rom_name] with the order in which the [for] loop visits
    the set [ROM_EXTENSIONS] made explicit. *)
Fixpoint strip_first_ext (order : list str) (name : str) : str :=
  match order with
  | [] => name
  | ext :: order' =>
      if endswith (lower name) ext then drop_last (length ext) name
      else strip_first_ext order' name
  end.

Definition normalize_rom_name_in (order : list str) (name : str) : str :=
  strip (lower (strip_first_ext order name)).

Definition normalize_rom_name (name : str) : str :=
  normalize_rom_name_in (elements ROM_EXTENSIONS) name.

Definition upload_rom_to_sd (local_path : Path) (sd_path : str) : M bool :=
  let dest := rstrip_char "/"%char sd_path ++ txt "/" ++ p_name local_path in
  print (txt "Uploading: " ++ p_name local_path) ;;
  print (txt "      To: " ++ dest) ;;
  do '(code, out, err) <-
    run_sc64_command [txt "sd"; txt "upload"; p_str local_path; dest];
  if code =? 0 then print (txt "  Upload complete!") ;; ret true
  else print (txt "  Upload failed: " ++ err) ;; ret false.

(** ** The interactive shell *)

Definition print_header (text : str) : M unit :=
  print [] ;;
  print (repeat "="%char 60) ;;
  print (txt "  " ++ text) ;;
  print (repeat "="%char 60).

(** One iteration of the loop of [get_choice] (lines 170-183). *)
Definition get_choice_step (max_val : Z) (prompt : str) (_ : unit)
  : M (loop_step unit Z) :=
  try
    (do line <- input (prompt ++ txt " (1-" ++ repr max_val
                       ++ txt ", or 0 to cancel): ");
     let choice := strip line in
     if bool_decide (choice = txt "0") then ret (Return 0)
     else
       match py_int choice with
       | None => raise ValueError
       | Some val =>
           if (1 <=? val) && (val <=? max_val) then ret (Return val)
           else
             print (txt "Please enter a number between 1 and "
                    ++ repr max_val) ;;
             ret (Continue tt)
       end)
    (fun e =>
       match e with
       | ValueError =>
           print (txt "Please enter a valid number") ;; ret (Continue tt)
       | KeyboardInterrupt => print [] ;; ret (Return 0)
       | _ => raise e
       end).

Definition get_choice (max_val : Z) (prompt : str) : M Z :=
  input_loop (get_choice_step max_val prompt) tt.

(** [sorted(set(choices))] for a list of integers. *)
Definition sorted_set (choices : list Z) : list Z :=
  merge_sort Z.le (elements (list_to_set choices : gset Z)).

(** The [for part in raw.split(",")] loop of [get_multi_choice]
    (lines 196-202); it returns the list [choices]. *)
Definition collect_choices (max_val : Z) (parts : list str) : M (list Z) :=
  for_fold parts
    (fun choices part =>
       match py_int (strip part) with
       | None => raise ValueError
       | Some val =>
           if (1 <=? val) && (val <=? max_val) then ret (choices ++ [val])
           else print (txt "Skipping invalid choice: " ++ repr val) ;;
                ret choices
       end)
    [].

(** One iteration of the loop of [get_multi_choice] (lines 188-208). *)
Definition get_multi_choice_step (max_val : Z) (prompt : str) (_ : unit)
  : M (loop_step unit (list Z)) :=
  try
    (do line <- input (prompt ++
                 txt " (e.g. 1,3,5 or 'all', or 0 to cancel): ");
     let raw := lower (strip line) in
     if bool_decide (raw = txt "0") then ret (Return [])
     else if bool_decide (raw = txt "all")
     then ret (Return (seqZ 1 max_val))
     else
       do choices <- collect_choices max_val (split ","%char raw);
       ret (Return (sorted_set choices)))
    (fun e =>
       match e with
       | ValueError =>
           print (txt "Please enter valid numbers separated by commas") ;;
           ret (Continue tt)
       | KeyboardInterrupt => print [] ;; ret (Return [])
       | _ => raise e
       end).

Definition get_multi_choice (max_val : Z) (prompt : str) : M (list Z) :=
  input_loop (get_multi_choice_step max_val prompt) tt.

(** ** The commands *)

(** [f"  [{i:2}] {rom.name} ({size_mb:.1f} MB)"], the line the commands
    print for a local file. *)
Definition rom_line (i : Z) (rom : Path) : str :=
  txt "  [" ++ fmt2 i ++ txt "] " ++ p_name rom
  ++ txt " (" ++ fmt_mb (p_size rom) ++ txt " MB)".

Definition print_rom_lines (roms : list Path) : M unit :=
  for_each (enumerate 1 roms) (fun '(i, rom) => print (rom_line i rom)).

(** The loop of [cmd_compare] that sorts the local ROMs into [missing]
    and [on_cart] (lines 331-338). *)
Definition split_by_cart (sd_rom_names : gset str) (local_roms : list Path)
  : list Path * list Path :=
  fold_left
    (fun '(missing, on_cart) rom =>
       let normalized := normalize_rom_name (p_name rom) in
       if bool_decide (normalized ∉ sd_rom_names)
       then (missing ++ [rom], on_cart)
       else (missing, on_cart ++ [rom]))
    local_roms ([], []).

Definition cmd_compare : M (list Path) :=
  print_header (txt "Compare Local vs Cart") ;;
  do local_roms <- list_local_roms;
  if bool_decide (local_roms = []) then
    print (txt "No local ROMs found.") ;; ret []
  else
  do accessible <- is_sd_card_accessible;
  if negb accessible then
    print (txt "SD card is not accessible - showing all local ROMs as 'missing on cart'") ;;
    print (txt "(Power on your N64 to enable SD card access for accurate comparison)") ;;
    print [] ;;
    print_rom_lines local_roms ;;
    ret local_roms
  else
  print (txt "Scanning SD card...") ;;
  do sd_roms <- get_all_sd_roms None;
  let sd_rom_names : gset str :=
    list_to_set (map (fun r => normalize_rom_name (e_name r)) sd_roms) in
  print (txt "Found " ++ repr (Z.of_nat (length sd_roms))
         ++ txt " ROM(s) on cart") ;;
  let '(missing, on_cart) := split_by_cart sd_rom_names local_roms in
  (if bool_decide (on_cart = []) then ret tt
   else
     print (nl :: txt "Already on cart ("
            ++ repr (Z.of_nat (length on_cart)) ++ txt "):") ;;
     for_each on_cart (fun rom => print (txt "  [OK] " ++ p_name rom))) ;;
  if bool_decide (missing = []) then
    print (nl :: txt "All local ROMs are already on the cart!") ;; ret []
  else
  print (nl :: txt "NOT on cart (" ++ repr (Z.of_nat (length missing))
         ++ txt "):") ;;
  print_rom_lines missing ;;
  ret missing.

(** The upload loop of [cmd_upload] and the summary after it
    (lines 399-407). *)
Definition upload_selected (missing : list Path) (dest_path : str)
    (choices : list Z) : M unit :=
  print [] ;;
  do success_count <-
    for_fold choices
      (fun success_count idx =>
         do rom <- index missing (idx - 1);
         do ok <- upload_rom_to_sd rom dest_path;
         ret (if ok then success_count + 1 else success_count))
      0;
  print (nl :: txt "Done! Uploaded " ++ repr success_count ++ txt "/"
         ++ repr (Z.of_nat (length choices)) ++ txt " ROM(s).").

Definition cmd_upload : M unit :=
  print_header (txt "Upload ROMs to Cart") ;;
  do connected <- check_device_connected;
  if negb connected then print (txt "SC64 device not connected!") else
  do accessible <- is_sd_card_accessible;
  if negb accessible then
    print (txt "SD card is not accessible.") ;;
    print (txt "Power ON your N64 to enable SD card access.")
  else
  do missing <- cmd_compare;
  if bool_decide (missing = []) then ret tt else
  print (nl :: txt "Which ROMs would you like to upload?") ;;
  do choices <- get_multi_choice (Z.of_nat (length missing)) (txt "Select ROMs");
  if bool_decide (choices = []) then print (txt "Upload cancelled.") else
  print (nl :: txt "Upload destination on SD card:") ;;
  print (txt "  [1] Root directory (/)") ;;
  print (txt "  [2] Custom path") ;;
  do dest_choice <- get_choice 2 (txt "Choose destination");
  if dest_choice =? 0 then print (txt "Upload cancelled.") else
  do dest_path <-
    (if dest_choice =? 2 then
       do line <- input (txt "Enter SD card path (e.g. /roms): ");
       let dest_path := strip line in
       if negb (startswith dest_path (txt "/")) then ret (txt "/" ++ dest_path)
       else ret dest_path
     else ret (txt "/"));
  upload_selected missing dest_path choices.

(** The upload loop of [cmd_quick_upload] (lines 438-441). *)
Definition quick_upload_selected (local_roms : list Path) (choices : list Z)
  : M unit :=
  print [] ;;
  for_each choices
    (fun idx =>
       do rom <- index local_roms (idx - 1);
       upload_rom_to_sd rom (txt "/") ;;
       ret tt).

Definition cmd_quick_upload : M unit :=
  print_header (txt "Quick Upload") ;;
  do connected <- check_device_connected;
  if negb connected then print (txt "SC64 device not connected!") else
  do accessible <- is_sd_card_accessible;
  if negb accessible then
    print (txt "SD card is not accessible.") ;;
    print (txt "Power ON your N64 to enable SD card access.")
  else
  do local_roms <- list_local_roms;
  if bool_decide (local_roms = []) then print (txt "No local ROMs found.") else
  print (txt "Select ROM(s) to upload:") ;;
  print_rom_lines local_roms ;;
  do choices <-
    get_multi_choice (Z.of_nat (length local_roms)) (txt "Select ROMs");
  if bool_decide (choices = []) then print (txt "Upload cancelled.") else
  quick_upload_selected local_roms choices.

(** ** The menu update *)

Definition ensure_menu_versions_dir : M unit :=
  do w <- get_world;
  match menu_versions_dir w with
  | Some _ => ret tt
  | None =>
      (fun w => (Ok tt, set_menu_versions_dir (Some []) w)) ;;
      print (txt "Created directory: " ++ MENU_VERSIONS_DIR w)
  end.

Definition list_local_menu_versions : M (list Path) :=
  ensure_menu_versions_dir ;;
  do w <- get_world;
  let menu_files :=
    List.filter is_rom_file
      (iterdir (sep w) (MENU_VERSIONS_DIR w)
         (default [] (menu_versions_dir w))) in
  ret (sorted (fun x => lower (p_name x)) menu_files).

Definition backup_menu_from_cart : M bool :=
  ensure_menu_versions_dir ;;
  do w <- get_world;
  let backup_name := txt "sc64menu_backup_" ++ timestamp w ++ txt ".n64" in
  let backup_path := joinpath w (MENU_VERSIONS_DIR w) backup_name in
  print (txt "Backing up current menu from cart...") ;;
  print (txt "  From: " ++ SD_MENU_PATH) ;;
  print (txt "    To: " ++ backup_path) ;;
  do '(code, out, err) <-
    run_sc64_command [txt "sd"; txt "download"; SD_MENU_PATH; backup_path];
  if code =? 0 then print (txt "  Backup complete!") ;; ret true
  else print (txt "  Backup failed: " ++ err) ;; ret false.

Definition upload_menu_to_cart (local_path : Path) : M bool :=
  print (txt "Uploading new menu to cart...") ;;
  print (txt "  From: " ++ p_name local_path) ;;
  print (txt "    To: " ++ SD_MENU_PATH) ;;
  do '(code, out, err) <-
    run_sc64_command [txt "sd"; txt "upload"; p_str local_path; SD_MENU_PATH];
  if code =? 0 then print (txt "  Upload complete!") ;; ret true
  else print (txt "  Upload failed: " ++ err) ;; ret false.

(** [sep.join(parts)] *)
Fixpoint join (sep : str) (parts : list str) : str :=
  match parts with
  | [] => []
  | [p] => p
  | p :: rest => p ++ sep ++ join sep rest
  end.

(** One iteration of the page loop of [cmd_update_menu] (lines 526-568).
    The loop carries [current_page]; it ends with the selected menu, or
    with [None] where the source returns from the command. *)
Definition select_menu_step (menu_versions : list Path) (current_page : Z)
  : M (loop_step Z (option Path)) :=
  let items_per_page := 9 in
  let total_items := Z.of_nat (length menu_versions) in
  let total_pages := (total_items + items_per_page - 1) / items_per_page in
  let start_idx := current_page * items_per_page in
  let end_idx := Z.min (start_idx + items_per_page) total_items in
  let page_items := slice start_idx end_idx menu_versions in
  let page_len := Z.of_nat (length page_items) in
  print (nl :: txt "Available menu versions in menu_versions/ (Page "
         ++ repr (current_page + 1) ++ txt "/" ++ repr total_pages
         ++ txt "):") ;;
  print_rom_lines page_items ;;
  let nav_options :=
    (if 0 <? current_page then [txt "P=Prev"] else [])
    ++ (if current_page <? total_pages - 1 then [txt "N=Next"] else [])
    ++ [txt "0=Cancel"] in
  let nav_str := join (txt ", ") nav_options in
  let prompt :=
    txt "Select menu (1-" ++ repr page_len ++ txt ") [" ++ nav_str
    ++ txt "]: " in
  do user_input <-
    try (do line <- input prompt; ret (Some (lower (strip line))))
        (fun e =>
           match e with
           | KeyboardInterrupt =>
               print [] ;; print (txt "Update cancelled.") ;; ret None
           | _ => raise e
           end);
  match user_input with
  | None => ret (Return None)
  | Some user_input =>
      if bool_decide (user_input = txt "0") then
        print (txt "Update cancelled.") ;; ret (Return None)
      else if bool_decide (user_input = txt "p") && (0 <? current_page) then
        ret (Continue (current_page - 1))
      else if bool_decide (user_input = txt "n")
              && (current_page <? total_pages - 1) then
        ret (Continue (current_page + 1))
      else
        match py_int user_input with
        | Some choice =>
            if (1 <=? choice) && (choice <=? page_len) then
              do selected_menu <- index page_items (choice - 1);
              ret (Return (Some selected_menu))
            else
              print (txt "Please enter a number between 1 and "
                     ++ repr page_len) ;;
              ret (Continue current_page)
        | None =>
            print (txt "Invalid input. Enter a number or navigation key.") ;;
            ret (Continue current_page)
        end
  end.

Definition cmd_update_menu : M unit :=
  print_header (txt "Update SC64 Menu") ;;
  do connected <- check_device_connected;
  if negb connected then print (txt "SC64 device not connected!") else
  do accessible <- is_sd_card_accessible;
  if negb accessible then
    print (txt "SD card is not accessible.") ;;
    print (txt "Power ON your N64 to enable SD card access.")
  else
  do menu_versions <- list_local_menu_versions;
  if bool_decide (menu_versions = []) then
    do w <- get_world;
    print (txt "No menu files found in: " ++ MENU_VERSIONS_DIR w) ;;
    print (nl :: txt "Add .z64, .n64, or .v64 menu files to this directory.")
  else
  do selection <- input_loop (select_menu_step menu_versions) 0;
  match selection with
  | None => ret tt
  | Some selected_menu =>
      print (nl :: txt "You selected: " ++ p_name selected_menu) ;;
      print (txt "This will:") ;;
      print (txt "  1. Backup the current menu from cart (with timestamp)") ;;
      print (txt "  2. Upload the selected menu to replace it") ;;
      do line <- input (nl :: txt "Proceed? (y/n): ");
      let confirm := lower (strip line) in
      if negb (bool_decide (confirm = txt "y")) then
        print (txt "Update cancelled.")
      else
      print [] ;;
      do backed_up <- backup_menu_from_cart;
      if negb backed_up then
        print (nl :: txt "Backup failed. Aborting update to be safe.")
      else
      print [] ;;
      do uploaded <- upload_menu_to_cart selected_menu;
      if uploaded then print (nl :: txt "Menu update complete!")
      else print (nl :: txt "Menu upload failed. Your backup is saved in menu_versions/")
  end.

(** ** The SD card browser *)

(** The variables the browser loop carries from one iteration to the
    next.  [item_map] is assigned only when a listing is not empty: it is
    unbound until then ([None]) and keeps the value of an earlier
    iteration afterwards. *)
Record browse_state := mkBrowse {
  current_path : str;
  history : list str;
  item_map : option (gmap Z sd_entry);
}.

(** [f.get("size") and f["size"] != "----"] *)
Definition has_size (f : sd_entry) : bool :=
  negb (bool_decide (e_size f = []))
  && negb (bool_decide (e_size f = txt "----")).

(** [f" ({f['size']})" if ... else ""] *)
Definition size_info (f : sd_entry) : str :=
  if has_size f then txt " (" ++ e_size f ++ txt ")" else [].

(** The two numbering loops of the browser (lines 777-793): they print
    the entries and fill [item_map], [idx] running on from one to the
    other. *)
Definition number_entries (line_of : Z -> sd_entry -> str)
    (entries : list sd_entry) (acc : Z * gmap Z sd_entry)
  : M (Z * gmap Z sd_entry) :=
  for_fold entries
    (fun '(idx, item_map) f =>
       print (line_of idx f) ;;
       ret (idx + 1, <[idx := f]> item_map))
    acc.

(** The first part of an iteration (lines 761-803): fetch and show the
    listing of the current directory. *)
Definition browse_render (st : browse_state) : M browse_state :=
  let current_path := current_path st in
  print [] ;;
  print (repeat "="%char 50) ;;
  print (txt "  Current path: " ++ current_path) ;;
  print (repeat "="%char 50) ;;
  do files <-
    list_sd_card_files
      (if bool_decide (current_path = txt "/") then None else Some current_path);
  do item_map <-
    (if bool_decide (files = []) then
       print (txt "  (empty directory)") ;; ret (item_map st)
     else
       let dirs :=
         sorted (fun x => lower (e_name x))
           (List.filter (fun f => bool_decide (e_type f = txt "dir")) files) in
       let regular_files :=
         sorted (fun x => lower (e_name x))
           (List.filter (fun f => bool_decide (e_type f = txt "file")) files) in
       do acc <-
         number_entries
           (fun idx d => txt "  [" ++ fmt2 idx ++ txt "] [DIR]  " ++ e_name d
                         ++ txt "/")
           dirs (1, ∅);
       do acc <-
         number_entries
           (fun idx f =>
              let marker :=
                if is_rom_name (e_name f) then txt "[ROM]" else txt "[   ]" in
              txt "  [" ++ fmt2 idx ++ txt "] " ++ marker ++ txt " "
              ++ e_name f ++ size_info f)
           regular_files acc;
       ret (Some (snd acc)));
  print [] ;;
  print (txt "Navigation:") ;;
  (if bool_decide (current_path = txt "/") then ret tt
   else print (txt "  [0] Go back (parent directory)")) ;;
  print (txt "  [b] Back to main menu") ;;
  (if bool_decide (files = []) then ret tt
   else print (txt "  [1-" ++ repr (Z.of_nat (length files))
               ++ txt "] Enter directory")) ;;
  print [] ;;
  ret (mkBrowse current_path (history st) item_map).

(** The parent of a path, as the browser derives it when the history is
    empty (lines 818-819). *)
Definition parent_of (current_path : str) : str :=
  match rsplit1 "/"%char (rstrip_char "/"%char current_path) with
  | [] => txt "/"
  | part0 :: _ => if bool_decide (part0 = []) then txt "/" else part0
  end.

(** Where entering the directory [item] leads (lines 830-833). *)
Definition enter_path (current_path : str) (item : sd_entry) : str :=
  if bool_decide (current_path = txt "/") then e_path item
  else rstrip_char "/"%char current_path ++ txt "/" ++ e_name item.

(** The second part of an iteration (lines 805-849): read a choice and
    act on it. *)
Definition browse_navigate (st : browse_state)
  : M (loop_step browse_state unit) :=
  let current_path := current_path st in
  let history := history st in
  try
    (do line <- input (txt "Enter choice: ");
     let choice := lower (strip line) in
     if bool_decide (choice = txt "b") then
       print (txt "Returning to main menu...") ;; ret (Return tt)
     else if bool_decide (choice = txt "0")
             && negb (bool_decide (current_path = txt "/")) then
       match last history with
       | Some previous =>
           ret (Continue (mkBrowse previous (removelast history) (item_map st)))
       | None =>
           ret (Continue (mkBrowse (parent_of current_path) history
                            (item_map st)))
       end
     else
       try
         (match py_int choice with
          | None => raise ValueError
          | Some num =>
              match item_map st with
              | None => raise UnboundLocalError
              | Some items =>
                  match items !! num with
                  | Some item =>
                      if bool_decide (e_type item = txt "dir") then
                        ret (Continue
                               (mkBrowse (enter_path current_path item)
                                  (history ++ [current_path]) (item_map st)))
                      else
                        print [] ;;
                        print (txt "  File: " ++ e_name item) ;;
                        print (txt "  Path: " ++ e_path item) ;;
                        (if has_size item
                         then print (txt "  Size: " ++ e_size item)
                         else ret tt) ;;
                        input (nl :: txt "  Press Enter to continue...") ;;
                        ret (Continue st)
                  | None =>
                      print (txt "Invalid choice: " ++ repr num) ;;
                      ret (Continue st)
                  end
              end
          end)
         (fun e =>
            match e with
            | ValueError =>
                print (txt "Invalid input: " ++ choice) ;; ret (Continue st)
            | _ => raise e
            end))
    (fun e =>
       match e with
       | KeyboardInterrupt =>
           print (nl :: txt "Returning to main menu...") ;; ret (Return tt)
       | _ => raise e
       end).

Definition browse_step (st : browse_state) : M (loop_step browse_state unit) :=
  do st' <- browse_render st;
  browse_navigate st'.

Definition cmd_browse_sd : M unit :=
  print_header (txt "SD Card Browser") ;;
  do connected <- check_device_connected;
  if negb connected then print (txt "SC64 device not connected!") else
  do accessible <- is_sd_card_accessible;
  if negb accessible then
    print (txt "SD card is not accessible.") ;;
    print (txt "Power ON your N64 to enable SD card access.")
  else
  input_loop browse_step (mkBrowse (txt "/") [] None).

(** ** The commands that only report *)

(** [print_menu(options, title)] *)
Definition print_menu (options : list str) (title : str) : M unit :=
  print [] ;;
  print (title ++ txt ":") ;;
  for_each (enumerate 1 options)
    (fun '(i, opt) => print (txt "  [" ++ repr i ++ txt "] " ++ opt)) ;;
  print [].

Definition cmd_status : M bool :=
  print_header (txt "SC64 Status") ;;
  do connected <- check_device_connected;
  if negb connected then
    print (txt "Device: NOT CONNECTED") ;;
    print (nl :: txt "Make sure your SummerCart64 is plugged in via USB.") ;;
    ret false
  else
  print (txt "Device: CONNECTED") ;;
  do '(code, out, err) <- run_sc64_command [txt "info"];
  (if code =? 0 then
     for_each (split nl out)
       (fun line =>
          if contains (txt "Firmware version") line
             || contains (txt "Boot mode") line
          then print (txt "  " ++ strip line)
          else ret tt)
   else ret tt) ;;
  do accessible <- is_sd_card_accessible;
  if accessible then
    print (txt "  SD card:         Accessible") ;; ret true
  else
    print (txt "  SD card:         Not accessible") ;;
    print (nl :: txt "  Note: SD card access requires the N64 to be powered ON") ;;
    ret false.

Definition cmd_list_local : M unit :=
  print_header (txt "Local ROMs") ;;
  do w <- get_world;
  print (txt "Directory: " ++ LOCAL_ROMS_DIR w) ;;
  print [] ;;
  do roms <- list_local_roms;
  if bool_decide (roms = []) then
    print (txt "No ROM files found.") ;;
    print (txt "Add .z64, .n64, or .v64 files to: " ++ LOCAL_ROMS_DIR w)
  else
  print_rom_lines roms ;;
  print (nl :: txt "Total: " ++ repr (Z.of_nat (length roms)) ++ txt " ROM(s)").

(** The loop of [cmd_list_cart] over the root of the card (lines 274-288):
    it prints a line for each entry, and fills the lists [roms_in_root]
    and [dirs], which the command does not read afterwards. *)
Definition list_cart_root (files : list sd_entry)
  : M (list sd_entry * list sd_entry) :=
  for_fold files
    (fun '(roms_in_root, dirs) f =>
       let '(roms_in_root, dirs, icon) :=
         if bool_decide (e_type f = txt "dir")
         then (roms_in_root, dirs ++ [f], txt "[DIR]")
         else
           let is_rom := is_rom_name (e_name f) in
           (if is_rom then roms_in_root ++ [f] else roms_in_root, dirs,
            if is_rom then txt "[ROM]" else txt "[   ]") in
       print (txt "  " ++ icon ++ txt " " ++ e_name f ++ size_info f) ;;
       ret (roms_in_root, dirs))
    ([], []).

Definition cmd_list_cart : M unit :=
  print_header (txt "Cart SD Card Contents") ;;
  do accessible <- is_sd_card_accessible;
  if negb accessible then
    print (txt "SD card is not accessible.") ;;
    print (txt "Make sure your N64 is powered ON to access the SD card.")
  else
  print (txt "SD Card Root:") ;;
  do files <- list_sd_card_files None;
  if bool_decide (files = []) then print (txt "  (empty or not accessible)")
  else
  list_cart_root files ;;
  print (nl :: txt "All ROMs on cart:") ;;
  do all_roms <- get_all_sd_roms None;
  if bool_decide (all_roms = []) then
    print (txt "  No ROM files found on SD card.")
  else
    for_each (enumerate 1 all_roms)
      (fun '(i, rom) =>
         print (txt "  [" ++ fmt2 i ++ txt "] " ++ e_name rom ++ size_info rom)) ;;
    print (nl :: txt "Total: " ++ repr (Z.of_nat (length all_roms))
           ++ txt " ROM(s)").

(** ** The menu music *)

Definition SD_MENU_MUSIC_PATH : str := txt "/menu/bg.mp3".

Definition MENU_MUSIC_DIR (w : world) : str :=
  joinpath w (script_dir w) (txt "menu_music").

(** The content of [MENU_MUSIC_DIR] is passed to the functions that use
    it, and handed back by those that may create the directory: [None]
    when it does not exist. *)
Definition ensure_menu_music_dir (music_dir : option (list fs_node))
  : M (option (list fs_node)) :=
  match music_dir with
  | Some _ => ret music_dir
  | None =>
      do w <- get_world;
      print (txt "Created directory: " ++ MENU_MUSIC_DIR w) ;;
      ret (Some [])
  end.

(** [file.is_file() and file.suffix.lower() == ".mp3"] *)
Definition is_mp3_file (file : Path) : bool :=
  p_is_file file && bool_decide (lower (suffix (p_name file)) = txt ".mp3").

Definition list_local_music (music_dir : option (list fs_node))
  : M (list Path * option (list fs_node)) :=
  do music_dir <- ensure_menu_music_dir music_dir;
  do w <- get_world;
  let music_files :=
    List.filter is_mp3_file
      (iterdir (sep w) (MENU_MUSIC_DIR w) (default [] music_dir)) in
  ret (sorted (fun x => lower (p_name x)) music_files, music_dir).

Definition check_menu_music_exists : M bool :=
  do '(code, out, err) <-
    run_sc64_command [txt "sd"; txt "stat"; SD_MENU_MUSIC_PATH];
  ret (code =? 0).

Definition delete_menu_music : M bool :=
  print (txt "Removing background music from cart...") ;;
  print (txt "  Deleting: " ++ SD_MENU_MUSIC_PATH) ;;
  do '(code, out, err) <-
    run_sc64_command [txt "sd"; txt "rm"; SD_MENU_MUSIC_PATH];
  if code =? 0 then print (txt "  Removed!") ;; ret true
  else print (txt "  Failed to remove: " ++ err) ;; ret false.

Definition upload_menu_music (local_path : Path) : M bool :=
  print (txt "Uploading background music to cart...") ;;
  print (txt "  From: " ++ p_name local_path) ;;
  print (txt "    To: " ++ SD_MENU_MUSIC_PATH) ;;
  do '(code, out, err) <-
    run_sc64_command
      [txt "sd"; txt "upload"; p_str local_path; SD_MENU_MUSIC_PATH];
  if code =? 0 then print (txt "  Upload complete!") ;; ret true
  else print (txt "  Upload failed: " ++ err) ;; ret false.

(** The values of [options_map]: [("set", mp3)] and [("remove", None)]. *)
Inductive music_action :=
  | SetMusic (mp3 : Path)
  | RemoveMusic.

(** [options_map[choice]] for a key the dictionary does not have: the
    [KeyError] Python raises, which nothing in the program catches. *)
Inductive key_error :=
  | KeyError (key : Z).

(** The loop that offers the local files (lines 688-691). *)
Definition music_set_options (music_files : list Path)
    (acc : Z * gmap Z music_action) : M (Z * gmap Z music_action) :=
  for_fold music_files
    (fun '(option_num, options_map) mp3 =>
       print (txt "  [" ++ repr option_num ++ txt "] Set music to: "
              ++ p_name mp3) ;;
       ret (option_num + 1, <[option_num := SetMusic mp3]> options_map))
    acc.

(** [cmd_menu_music] returns the content of the music directory as it
    leaves it, or the [KeyError] it raised. *)
Definition cmd_menu_music (music_dir : option (list fs_node))
  : M (key_error + option (list fs_node)) :=
  print_header (txt "Menu Background Music") ;;
  print (txt "NOTE: This feature only works with a customized version of") ;;
  print (txt "      SC64 menu by TheLeggett (as of Dec 22, 2025).") ;;
  print [] ;;
  do connected <- check_device_connected;
  if negb connected then
    print (txt "SC64 device not connected!") ;; ret (inr music_dir)
  else
  do accessible <- is_sd_card_accessible;
  if negb accessible then
    print (txt "SD card is not accessible.") ;;
    print (txt "Power ON your N64 to enable SD card access.") ;;
    ret (inr music_dir)
  else
  do has_music <- check_menu_music_exists;
  (if has_music then
     print (txt "Current status: Background music IS set ("
            ++ SD_MENU_MUSIC_PATH ++ txt " exists)")
   else
     print (txt "Current status: No background music (no "
            ++ SD_MENU_MUSIC_PATH ++ txt ")")) ;;
  do '(music_files, music_dir) <- list_local_music music_dir;
  print (nl :: txt "Available MP3s in menu_music/:") ;;
  (if bool_decide (music_files = []) then print (txt "  (no MP3 files found)")
   else print_rom_lines music_files) ;;
  print (nl :: txt "Options:") ;;
  do '(option_num, options_map) <-
    (if bool_decide (music_files = []) then ret (1, ∅)
     else music_set_options music_files (1, ∅));
  do '(option_num, options_map) <-
    (if has_music then
       print (txt "  [" ++ repr option_num ++ txt "] Remove background music") ;;
       ret (option_num + 1, <[option_num := RemoveMusic]> options_map)
     else ret (option_num, options_map));
  if bool_decide (options_map = ∅) then
    print (nl :: txt "No actions available. Add MP3 files to menu_music/ directory.") ;;
    ret (inr music_dir)
  else
  print [] ;;
  do choice <- get_choice (option_num - 1) (txt "Select option");
  if choice =? 0 then print (txt "Cancelled.") ;; ret (inr music_dir) else
  match options_map !! choice with
  | None => ret (inl (KeyError choice))
  | Some RemoveMusic =>
      delete_menu_music ;;
      print (nl :: txt "Background music removed!") ;;
      ret (inr music_dir)
  | Some (SetMusic mp3_file) =>
      (if has_music then
         print (nl :: txt "Replacing existing background music...")
       else ret tt) ;;
      print [] ;;
      do ok <- upload_menu_music mp3_file;
      (if ok then print (nl :: txt "Background music set!")
       else print (nl :: txt "Failed to set background music.")) ;;
      ret (inr music_dir)
  end.

(** ** The clock *)

(** [clock] is what [datetime.now().strftime("%Y-%m-%d %H:%M:%S")] gives
    in a state of the world. *)
Definition cmd_sync_rtc (clock : world -> str) : M unit :=
  print_header (txt "Sync RTC Clock") ;;
  do connected <- check_device_connected;
  if negb connected then print (txt "SC64 device not connected!") else
  print (txt "Synchronizing SC64 clock with system time...") ;;
  do '(returncode, out, err) <- run_sc64_command [txt "set"; txt "rtc"];
  if returncode =? 0 then
    do w <- get_world;
    let current_time := clock w in
    print (txt "RTC synchronized to: " ++ current_time)
  else
    print (txt "Failed to sync RTC clock.") ;;
    if bool_decide (err = []) then ret tt else print (txt "Error: " ++ err).

(** ** The main menu and the command line *)

Definition main_menu_options : list str :=
  [txt "Show Status";
   txt "List Local ROMs";
   txt "List Cart Contents";
   txt "Compare (show what's missing on cart)";
   txt "Upload ROMs to Cart";
   txt "Quick Upload";
   txt "Update SC64 Menu";
   txt "Set Menu Background Music";
   txt "Sync RTC Clock";
   txt "Browse SD Card";
   txt "Exit"].

(** One iteration of the loop of [main_menu] (lines 854-903).  The loop
    carries the content of the music directory; it ends when the user
    leaves, or with the [KeyError] of [cmd_menu_music]. *)
Definition main_menu_step (clock : world -> str)
    (music_dir : option (list fs_node))
  : M (loop_step (option (list fs_node)) (key_error + unit)) :=
  print_header (txt "Summer Breeze") ;;
  do connected <- check_device_connected;
  let status_icon :=
    if connected then txt "Connected" else txt "NOT CONNECTED" in
  print (txt "Device: " ++ status_icon) ;;
  print_menu main_menu_options (txt "Main Menu") ;;
  do choice <-
    get_choice (Z.of_nat (length main_menu_options)) (txt "Select option");
  if (choice =? 0) || (choice =? 11) then
    print (txt "Goodbye!") ;; ret (Return (inr tt))
  else
  do outcome <-
    (if choice =? 1 then cmd_status ;; ret (inr music_dir)
     else if choice =? 2 then cmd_list_local ;; ret (inr music_dir)
     else if choice =? 3 then cmd_list_cart ;; ret (inr music_dir)
     else if choice =? 4 then cmd_compare ;; ret (inr music_dir)
     else if choice =? 5 then cmd_upload ;; ret (inr music_dir)
     else if choice =? 6 then cmd_quick_upload ;; ret (inr music_dir)
     else if choice =? 7 then cmd_update_menu ;; ret (inr music_dir)
     else if choice =? 8 then cmd_menu_music music_dir
     else if choice =? 9 then cmd_sync_rtc clock ;; ret (inr music_dir)
     else if choice =? 10 then cmd_browse_sd ;; ret (inr music_dir)
     else ret (inr music_dir));
  match outcome with
  | inl err => ret (Return (inl err))
  | inr music_dir =>
      input (nl :: txt "Press Enter to continue...") ;;
      ret (Continue music_dir)
  end.

Definition main_menu (clock : world -> str) (music_dir : option (list fs_node))
  : M (key_error + unit) :=
  input_loop (main_menu_step clock) music_dir.

(** [main()], with [sys.argv] as [argv]. *)
Definition main (argv : list str) (clock : world -> str)
    (music_dir : option (list fs_node)) : M (key_error + unit) :=
  match argv with
  | _ :: arg :: _ =>
      let cmd := lower arg in
      if bool_decide (cmd ∈ [txt "status"; txt "s"]) then
        cmd_status ;; ret (inr tt)
      else if bool_decide (cmd ∈ [txt "local"; txt "l"]) then
        cmd_list_local ;; ret (inr tt)
      else if bool_decide (cmd ∈ [txt "cart"; txt "c"]) then
        cmd_list_cart ;; ret (inr tt)
      else if bool_decide (cmd ∈ [txt "compare"; txt "diff"; txt "d"]) then
        cmd_compare ;; ret (inr tt)
      else if bool_decide (cmd ∈ [txt "upload"; txt "u"]) then
        cmd_upload ;; ret (inr tt)
      else if bool_decide (cmd ∈ [txt "quick"; txt "q"]) then
        cmd_quick_upload ;; ret (inr tt)
      else if bool_decide (cmd ∈ [txt "menu"; txt "m"]) then
        cmd_update_menu ;; ret (inr tt)
      else if bool_decide (cmd ∈ [txt "music"; txt "bgm"]) then
        do outcome <- cmd_menu_music music_dir;
        match outcome with
        | inl err => ret (inl err)
        | inr _ => ret (inr tt)
        end
      else if bool_decide (cmd ∈ [txt "browse"; txt "sd"]) then
        cmd_browse_sd ;; ret (inr tt)
      else if bool_decide (cmd ∈ [txt "rtc"; txt "clock"; txt "time"]) then
        cmd_sync_rtc clock ;; ret (inr tt)
      else if bool_decide (cmd ∈ [txt "help"; txt "h"; txt "-h"; txt "--help"])
      then
        print (txt "Summer Breeze - A friendly CLI tool for managing SummerCart64") ;;
        print [] ;;
        print (txt "Usage: python summerbreeze.py [command]") ;;
        print [] ;;
        print (txt "Commands:") ;;
        print (txt "  status, s   - Show device and SD card status") ;;
        print (txt "  local, l    - List ROMs in local directory") ;;
        print (txt "  cart, c     - List ROMs on the SD card") ;;
        print (txt "  compare, d  - Show ROMs not yet on cart") ;;
        print (txt "  upload, u   - Interactive upload to cart") ;;
        print (txt "  quick, q    - Quick upload from local ROMs") ;;
        print (txt "  menu, m     - Update SC64 menu on cart") ;;
        print (txt "  music, bgm  - Set menu background music") ;;
        print (txt "  rtc, clock  - Sync RTC clock with system time") ;;
        print (txt "  browse, sd  - Browse SD card contents") ;;
        print [] ;;
        print (txt "Run without arguments for interactive menu.") ;;
        ret (inr tt)
      else
        print (txt "Unknown command: " ++ cmd) ;;
        print (txt "Run with --help for usage information") ;;
        ret (inr tt)
  | _ => main_menu clock music_dir
  end.

(** * The properties, as the specification words them *)

(** ** The listing parser, as the specification words it *)

(** The text before, and after, the first [sep] of a line. *)
Fixpoint before_first (sep : ascii) (s : str) : str :=
  match s with
  | [] => []
  | c :: s' => if Ascii.eqb c sep then [] else c :: before_first sep s'
  end.

Fixpoint after_first (sep : ascii) (s : str) : str :=
  match s with
  | [] => []
  | c :: s' => if Ascii.eqb c sep then s' else after_first sep s'
  end.

(** The record of a line that holds a pipe: trimmed metadata and name,
    kind by the first character of the metadata, size its second token,
    path the name made absolute. *)
Definition record_of_line (line : str) : sd_entry :=
  let meta := strip (before_first "|"%char line) in
  let name := strip (after_first "|"%char line) in
  mkEntry name
    (if bool_decide (head meta = Some "d"%char) then txt "dir" else txt "file")
    (default [] (split_ws meta !! 1%nat))
    (if bool_decide (head name = Some "/"%char) then name
     else "/"%char :: name).

(** One record per line that holds a pipe, none for the other lines. *)
Definition records_of_line (line : str) : list sd_entry :=
  if bool_decide ("|"%char ∈ line) then [record_of_line line] else [].

Definition records_of_listing (out : str) : list sd_entry :=
  flat_map records_of_line (split nl out).

(** The arguments [list_sd_card_files] runs the deployer with. *)
Definition ls_args (path : option str) : list str :=
  match path with
  | None => [txt "sd"; txt "ls"]
  | Some p =>
      if bool_decide (p = txt "/") then [txt "sd"; txt "ls"]
      else [txt "sd"; txt "ls"; p]
  end.

(** ** The comparison, as the specification words it *)

(** Whether a local ROM is on the cart, given the normalized names found
    there. *)
Definition on_cart_in (sd_rom_names : gset str) (rom : Path) : bool :=
  bool_decide (normalize_rom_name (p_name rom) ∈ sd_rom_names).

(** ** The deployer runs, as the properties speak of them *)

(** The exit code [run_sc64_command] hands to its caller for an outcome
    of [subprocess.run]; [None] when it raises instead. *)
Definition returned_code (r : run_result) : option Z :=
  match r with
  | Completed code _ _ => Some code
  | NotStarted FileNotFoundError => Some (-1)
  | NotStarted _ => None
  end.

(** What [run_sc64_command] makes of an outcome of [subprocess.run]. *)
Definition run_value (w : world) (r : run_result) : result (Z * str * str) :=
  match r with
  | Completed code out err => Ok (code, out, err)
  | NotStarted e =>
      match e with
      | FileNotFoundError =>
          Ok (-1, [], txt "Error: sc64deployer not found at " ++ SC64_DEPLOYER w)
      | _ => Raise e
      end
  end.

(** In this world the deployer can always be run, or is missing: no
    call of [run_sc64_command] raises. *)
Definition always_returns (w : world) : Prop :=
  ∀ n args, returned_code (deployer w n args) ≠ None.

(** ** The upload batches, as the specification words them *)

(** The summary line: the success count out of the number selected. *)
Definition upload_summary (success_count total : Z) : str :=
  nl :: txt "Done! Uploaded " ++ repr success_count ++ txt "/"
  ++ repr total ++ txt " ROM(s).".

(** The deployer arguments that upload [rom] into [sd_path]. *)
Definition upload_args (rom : Path) (sd_path : str) : list str :=
  [txt "sd"; txt "upload"; p_str rom;
   rstrip_char "/"%char sd_path ++ txt "/" ++ p_name rom].

(** A logged run that ended with exit code 0. *)
Definition succeeded (c : list str * run_result) : bool :=
  bool_decide (returned_code (snd c) = Some 0).

(** The logged runs [new] are one upload for each of [choices], in order:
    the run for the choice [idx] uploads [roms[idx - 1]]. *)
Definition one_upload_each (roms : list Path) (sd_path : str)
    (choices : list Z) (new : list (list str * run_result)) : Prop :=
  Forall2
    (λ idx c, ∃ rom, roms !! Z.to_nat (idx - 1) = Some rom
                     ∧ fst c = upload_args rom sd_path)
    choices new.

(** A world for the quick upload: two local ROMs, a card with room for
    neither; the user selects both. *)
Definition full_card_world : world :=
  World (txt "/opt/sb") false (txt "20250101_120000") 100
    (λ _ args,
       if bool_decide (args = [txt "list"])
       then Completed 0 (txt "Found devices: SC64") []
       else if bool_decide (args = [txt "sd"; txt "ls"])
       then Completed 0 (txt "d ---- 2024-06-01 12:00:00 | /menu") []
       else Completed 1 [] (txt "card is full"))
    []
    (Some [FsFile (txt "A.z64") 1048576; FsFile (txt "B.n64") 2097152])
    None
    [Line (txt "1,2")]
    [].

(** The same card and the same ROMs for the interactive upload: the user
    selects both ROMs, then the root of the card as destination. *)
Definition full_card_upload_world : world :=
  World (txt "/opt/sb") false (txt "20250101_120000") 100
    (λ _ args,
       if bool_decide (args = [txt "list"])
       then Completed 0 (txt "Found devices: SC64") []
       else if bool_decide (args = [txt "sd"; txt "ls"])
       then Completed 0 (txt "d ---- 2024-06-01 12:00:00 | /menu") []
       else Completed 1 [] (txt "card is full"))
    []
    (Some [FsFile (txt "A.z64") 1048576; FsFile (txt "B.n64") 2097152])
    None
    [Line (txt "1,2"); Line (txt "1")]
    [].

(** ** Notions the proofs use *)

(** A string of whitespace. *)
Definition blank (s : str) : Prop := Forall (λ c, isspace c = true) s.

(** What [split] does with one more character in front that is not the
    separator. *)
Definition cons_head (c : ascii) (ls : list str) : list str :=
  match ls with
  | l :: ls' => (c :: l) :: ls'
  | [] => [[c]]
  end.

(** A computation that neither reads nor writes the terminal output. *)
Definition quiet {A} (m : M A) : Prop :=
  ∀ v w, m (set_stdout v w) = (eval m w, set_stdout v (exec m w)).

(** A computation that only prints. *)
Definition prints_only (m : M unit) : Prop :=
  ∀ w, ∃ out, m w = (Ok tt, set_stdout (stdout w ++ out) w).

(** ** The menu update, as the specification words it *)

(** A logged run that downloads the menu of the cart: the backup step. *)
Definition is_menu_backup (c : list str * run_result) : Prop :=
  ∃ backup_path,
    fst c = [txt "sd"; txt "download"; SD_MENU_PATH; backup_path].

(** A logged run that replaces the menu of the cart: the upload step. *)
Definition is_menu_upload (c : list str * run_result) : Prop :=
  ∃ local_path, fst c = [txt "sd"; txt "upload"; local_path; SD_MENU_PATH].

(** A logged run that changes nothing on the cart. *)
Definition reads_only (c : list str * run_result) : Prop :=
  fst c = [txt "list"] ∨ fst c = [txt "sd"; txt "ls"] ∨ is_menu_backup c.

(** A logged run that was reported to the caller as a failure: an exit
    code other than 0. *)
Definition failed (c : list str * run_result) : Prop :=
  ∃ code, returned_code (snd c) = Some code ∧ code ≠ 0.

(** The deployer runs of one menu update: the two probes, then the
    backup, then (after a backup that succeeded) the upload. *)
Definition update_menu_log (r : result unit)
    (new : list (list str * run_result)) : Prop :=
  (∃ r1, new = [([txt "list"], r1)])
  ∨ (∃ r1 r2, new = [([txt "list"], r1); ([txt "sd"; txt "ls"], r2)])
  ∨ (∃ r1 r2 backup_path r3,
       new = [([txt "list"], r1); ([txt "sd"; txt "ls"], r2);
              ([txt "sd"; txt "download"; SD_MENU_PATH; backup_path], r3)]
       ∧ returned_code r3 ≠ Some 0
       ∧ (returned_code r3 ≠ None → r = Ok tt))
  ∨ (∃ r1 r2 backup_path r3 local_path r4,
       new = [([txt "list"], r1); ([txt "sd"; txt "ls"], r2);
              ([txt "sd"; txt "download"; SD_MENU_PATH; backup_path], r3);
              ([txt "sd"; txt "upload"; local_path; SD_MENU_PATH], r4)]
       ∧ returned_code r3 = Some 0).

(** A computation that does not run the deployer. *)
Definition no_calls {A} (m : M A) : Prop :=
  ∀ w, calls (exec m w) = calls w.

(** ** The multi-choice prompt, as the specification words it *)

(** The integers of a comma-separated line; [None] when a token is not
    an integer. *)
Definition parse_choices (raw : str) : option (list Z) :=
  mapM (λ part, py_int (strip part)) (split ","%char raw).

(** Whether a choice lies in [1, max_val]. *)
Definition in_range (max_val v : Z) : bool :=
  (1 <=? v) && (v <=? max_val).

(** What is printed for a choice that is out of range. *)
Definition skip_notice (v : Z) : out_event :=
  Print (txt "Skipping invalid choice: " ++ repr v).

(** The prompt of [get_multi_choice]. *)
Definition multi_choice_prompt (prompt : str) : out_event :=
  Prompt (prompt ++ txt " (e.g. 1,3,5 or 'all', or 0 to cancel): ").

(** ** The local ROM list, as the specification words it *)

(** The entries below a directory, at any depth: the files and the
    directories it lists, and the entries below those directories. *)
Inductive entry_below (sp : str) : str → list fs_node → Path → Prop :=
  | below_file parent children name st_size :
      FsFile name st_size ∈ children →
      entry_below sp parent children
        (mkPath (parent ++ sp ++ name) name true st_size)
  | below_dir parent children name sub :
      FsDir name sub ∈ children →
      entry_below sp parent children
        (mkPath (parent ++ sp ++ name) name false 0)
  | below_nested parent children name sub p :
      FsDir name sub ∈ children →
      entry_below sp (parent ++ sp ++ name) sub p →
      entry_below sp parent children p.

(** The order of the result: by file name, case-insensitively. *)
Definition name_le (a b : Path) : Prop :=
  str_le (lower (p_name a)) (lower (p_name b)) = true.

(** A ROM directory with a nested directory and files that are not ROMs. *)
Definition shelf_world : world :=
  World (txt "/opt/sb") false (txt "20250101_120000") 100
    (λ _ _, NotStarted FileNotFoundError)
    []
    (Some [FsFile (txt "zelda.Z64") 33554432;
           FsFile (txt "readme.txt") 120;
           FsDir (txt "Saves") [FsFile (txt "zelda.sra") 32768];
           FsDir (txt "more") [FsFile (txt "Mario.n64") 8388608;
                               FsDir (txt "deep") [FsFile (txt "kirby.v64") 1]]])
    None
    []
    [].

(** Induction on a directory tree, with the hypothesis for every entry of
    a directory. *)
Fixpoint fs_node_nested_ind (P : fs_node → Prop)
    (Hfile : ∀ name st_size, P (FsFile name st_size))
    (Hdir : ∀ name children, Forall P children → P (FsDir name children))
    (n : fs_node) : P n :=
  match n with
  | FsFile name st_size => Hfile name st_size
  | FsDir name children =>
      Hdir name children
        ((fix all (l : list fs_node) : Forall P l :=
            match l with
            | [] => Forall_nil_2 P
            | n' :: l' =>
                Forall_cons_2 P n' l' (fs_node_nested_ind P Hfile Hdir n') (all l')
            end) children)
  end.

(** ** Worlds the examples run in *)

(** A deployer that answers the two probes and the listings of a card
    holding one ROM and a directory, and otherwise does what [other]
    says. *)
Definition card_deployer (other : run_result) (n : nat) (args : list str)
  : run_result :=
  if bool_decide (args = [txt "list"])
  then Completed 0 (txt "Found devices: SC64") []
  else if bool_decide (args = [txt "sd"; txt "ls"])
  then Completed 0
         (txt "f 32M 2025-12-01 19:03:12 | a.Z64" ++ [nl]
          ++ txt "d ---- 2024-06-01 12:00:00 | /menu") []
  else if bool_decide (args = [txt "sd"; txt "ls"; txt "/menu"])
  then Completed 0 (txt "f 1K 2025-12-01 19:03:12 | readme.txt") []
  else other.

(** The cart holds [a.Z64]; the local directory holds [A.z64] and
    [B.n64]. *)
Definition cart_world : world :=
  World (txt "/opt/sb") false (txt "20250101_120000") 100
    (card_deployer (Completed 0 [] []))
    []
    (Some [FsFile (txt "A.z64") 1048576; FsFile (txt "B.n64") 2097152])
    None
    []
    [].

(** The deployer is there but cannot be executed. *)
Definition locked_world : world :=
  World (txt "/opt/sb") false (txt "20250101_120000") 100
    (λ _ _, NotStarted PermissionError)
    [] None None [] [].

(** The user answers a multi-choice prompt with [1,3,5]. *)
Definition prompt_world : world :=
  World (txt "/opt/sb") false (txt "20250101_120000") 100
    (card_deployer (Completed 0 [] []))
    [] None None
    [Line (txt "1,3,5")]
    [].

(** One menu file to install; the user selects it and confirms; the
    download of the current menu fails. *)
Definition failing_backup_world : world :=
  World (txt "/opt/sb") false (txt "20250101_120000") 100
    (card_deployer (Completed 1 [] (txt "read error")))
    []
    None
    (Some [FsFile (txt "sc64menu-new.n64") 1048576])
    [Line (txt "1"); Line (txt "y")]
    [].

(** The user, two directories deep in the browser, asks for the parent. *)
Definition browsing_world : world :=
  World (txt "/opt/sb") false (txt "20250101_120000") 100
    (card_deployer (Completed 0 [] []))
    [] None None
    [Line (txt "0")]
    [].

(** The two local ROMs of [full_card_world], as [list_local_roms] returns
    them. *)
Definition two_roms : list Path :=
  [mkPath (txt "/opt/sb/roms/A.z64") (txt "A.z64") true 1048576;
   mkPath (txt "/opt/sb/roms/B.n64") (txt "B.n64") true 2097152].

(** ** The terminal input, as the loops use it *)

(** A computation that leaves no more pending input than it found. *)
Definition keeps_input {A} (m : M A) : Prop :=
  ∀ w, (length (stdin (exec m w)) ≤ length (stdin w))%nat.

(** A computation that takes an event off the input, unless it raises
    [EOFError]. *)
Definition takes_input {A} (m : M A) : Prop :=
  ∀ w, eval m w = Raise EOFError
       ∨ (length (stdin (exec m w)) < length (stdin w))%nat.

(** A computation that has taken an event off the input if it returns. *)
Definition returns_on_input {A} (m : M A) : Prop :=
  ∀ w a,
    eval m w = Ok a → (length (stdin (exec m w)) < length (stdin w))%nat.

(** A loop body that takes an event off the input whenever it asks for
    another iteration. *)
Definition loops_on_input {S A} (body : S → M (loop_step S A)) : Prop :=
  ∀ s w s',
    eval (body s) w = Ok (Continue s') →
    (length (stdin (exec (body s) w)) < length (stdin w))%nat.

(** A computation that returns or raises a Python exception. *)
Definition ends {A} (m : M A) : Prop :=
  ∀ w, eval m w ≠ Raise Diverged.

(** The message of [get_multi_choice] for a line it cannot read. *)
Definition invalid_numbers_notice : out_event :=
  Print (txt "Please enter valid numbers separated by commas").

(** The user types a number that is out of range and mistypes another,
    then selects the first and third ROM. *)
Definition retry_world : world :=
  World (txt "/opt/sb") false (txt "20250101_120000") 100
    (card_deployer (Completed 0 [] []))
    [] None None
    [Line (txt "7,1,x,2"); Line (txt "3, 1")]
    [].

(** The prompt of [get_choice]. *)
Definition choice_prompt (max_val : Z) (prompt : str) : out_event :=
  Prompt (prompt ++ txt " (1-" ++ repr max_val ++ txt ", or 0 to cancel): ").

(** The user mistypes a destination, then picks the second. *)
Definition destination_world : world :=
  World (txt "/opt/sb") false (txt "20250101_120000") 100
    (card_deployer (Completed 0 [] []))
    [] None None
    [Line (txt "two"); Line (txt "7"); Line (txt " 2 ")]
    [].

(** ** The records of a listing, as the properties speak of them *)

(** What every record of a listing satisfies: it is a directory or a
    file, its name has no white space around it, and its path is the
    name made absolute. *)
Definition listed (f : sd_entry) : Prop :=
  (e_type f = txt "dir" ∨ e_type f = txt "file")
  ∧ strip (e_name f) = e_name f
  ∧ (e_path f = e_name f ∨ e_path f = "/"%char :: e_name f)
  ∧ head (e_path f) = Some "/"%char.

(** A card whose root holds nothing: the deployer lists no entry. *)
Definition empty_card_world : world :=
  World (txt "/opt/sb") false (txt "20250101_120000") 100
    (λ _ args,
       if bool_decide (args = [txt "list"])
       then Completed 0 (txt "Found devices: SC64") []
       else Completed 0 [] [])
    [] None None [] [].

(** ** Commands that give up, as the properties speak of them *)

(** The command returns at once: the deployer has run for [probes] and
    nothing else, nothing was read from the terminal, and the last line
    printed is [notice]. *)
Definition stops_after {A} (probes : list (list str)) (notice : str)
    (m : M A) (w : world) : Prop :=
  (∃ a, eval m w = Ok a)
  ∧ (∃ new, calls (exec m w) = calls w ++ new ∧ map fst new = probes)
  ∧ stdin (exec m w) = stdin w
  ∧ last (stdout (exec m w)) = Some (Print notice).

(** A clock for the examples. *)
Definition noon (_ : world) : str := txt "2025-01-01 12:00:00".

(** The cart is plugged in, but the console is off: the card cannot be
    read. *)
Definition console_off_world : world :=
  World (txt "/opt/sb") false (txt "20250101_120000") 100
    (λ _ args,
       if bool_decide (args = [txt "list"])
       then Completed 0 (txt "Found devices: SC64") []
       else Completed 1 [] (txt "SD card not initialized"))
    []
    (Some [FsFile (txt "A.z64") 1048576])
    None
    [Line (txt "1")]
    [].

(** ** What the commands run, as the properties speak of it *)

(** A computation all of whose runs of the deployer satisfy [P]. *)
Definition only_runs (P : list str * run_result → Prop) {A} (m : M A) : Prop :=
  ∀ w, ∃ new, calls (exec m w) = calls w ++ new ∧ Forall P new.

(** A computation whose value, when it returns one, satisfies [Q]. *)
Definition returns {A} (Q : A → Prop) (m : M A) : Prop :=
  ∀ w a, eval m w = Ok a → Q a.

(** A computation that leaves an observation of the world as it was. *)
Definition preserves {B A} (obs : world → B) (m : M A) : Prop :=
  ∀ w, obs (exec m w) = obs w.

(** A logged run that lists a directory of the card. *)
Definition is_listing (c : list str * run_result) : Prop :=
  ∃ path, fst c = ls_args path.

(** A logged run that only asks: for the devices, for the state of the
    cart, or for a listing. *)
Definition is_inspection (c : list str * run_result) : Prop :=
  fst c = [txt "list"] ∨ fst c = [txt "info"] ∨ is_listing c.

(** A result with [found] in front of the list it holds. *)
Definition extended {B} (found : list B) (r : result (list B))
  : result (list B) :=
  match r with
  | Ok l => Ok (found ++ l)
  | Raise e => Raise e
  end.

(** An entry of a listing that is a ROM file. *)
Definition is_rom_entry (f : sd_entry) : Prop :=
  e_type f ≠ txt "dir" ∧ is_rom_name (e_name f) = true.

(** ** The pages and the browser, as the properties speak of them *)

(** The number of pages of nine entries a list takes. *)
Definition page_count (menu_versions : list Path) : Z :=
  (Z.of_nat (length menu_versions) + 9 - 1) / 9.

(** The order in which the browser shows a listing: the directories by
    lowercased name, then the files by lowercased name. *)
Definition shown_order (files : list sd_entry) : list sd_entry :=
  sorted (λ x, lower (e_name x))
    (List.filter (λ f, bool_decide (e_type f = txt "dir")) files)
  ++ sorted (λ x, lower (e_name x))
       (List.filter (λ f, bool_decide (e_type f = txt "file")) files).

(** The path the browser lists. *)
Definition browse_arg (st : browse_state) : option str :=
  if bool_decide (current_path st = txt "/") then None
  else Some (current_path st).

(** The listing of the root fails once the browser has started; the user
    types a number. *)
Definition flaky_card_world : world :=
  World (txt "/opt/sb") false (txt "20250101_120000") 100
    (λ n args,
       if bool_decide (args = [txt "list"])
       then Completed 0 (txt "Found devices: SC64") []
       else if bool_decide (n = 1%nat)
       then Completed 0 (txt "d ---- 2024-06-01 12:00:00 | /menu") []
       else Completed 1 [] (txt "SD card not initialized"))
    [] None None
    [Line (txt "1")]
    [].

(** Twelve menu files; the user goes to the second page and picks its
    third entry. *)
Definition menu_files_world : world :=
  World (txt "/opt/sb") false (txt "20250101_120000") 100
    (card_deployer (Completed 0 [] []))
    [] None
    (Some (map (λ i, FsFile (txt "menu" ++ repr i ++ txt ".z64") 1048576)
             (seqZ 10 12)))
    [Line (txt "n"); Line (txt "3")]
    [].

(** The menu files of [menu_files_world], as [list_local_menu_versions]
    returns them. *)
Definition twelve_menus : list Path :=
  match eval list_local_menu_versions menu_files_world with
  | Ok menu_versions => menu_versions
  | Raise _ => []
  end.

(** The card holds one directory, [/saves], with nothing in it; the user
    types [1]. *)
Definition empty_dir_world : world :=
  World (txt "/opt/sb") false (txt "20250101_120000") 100
    (λ _ args,
       if bool_decide (args = [txt "list"])
       then Completed 0 (txt "Found devices: SC64") []
       else if bool_decide (args = [txt "sd"; txt "ls"])
       then Completed 0 (txt "d ---- 2024-06-01 12:00:00 | /saves") []
       else Completed 0 [] [])
    [] None None
    [Line (txt "1")]
    [].

(** The entry of [/saves] in the listing of the root. *)
Definition saves_entry : sd_entry :=
  mkEntry (txt "/saves") (txt "dir") (txt "----") (txt "/saves").

(** ** The local directories and the status, as the properties speak of
    them *)

(** A regular file directly inside the directory [parent], whose suffix
    in lower case satisfies [keep]. *)
Definition top_level_file (sp parent : str) (children : list fs_node)
    (keep : str → Prop) (p : Path) : Prop :=
  ∃ name st_size,
    FsFile name st_size ∈ children
    ∧ keep (lower (suffix name))
    ∧ p = mkPath (parent ++ sp ++ name) name true st_size.

(** Whether an outcome of the [list] run shows a device, and whether an
    outcome of the [sd ls] run shows a card that can be read. *)
Definition shows_device (r : run_result) : bool :=
  match r with
  | Completed code out _ => (code =? 0) && contains (txt "Found devices:") out
  | NotStarted _ => false
  end.

Definition shows_card (r : run_result) : bool :=
  match r with
  | Completed code out _ => (code =? 0) && contains (txt "|") out
  | NotStarted _ => false
  end.

(** A menu directory with a file in a subdirectory and a file that is no
    menu. *)
Definition nested_menu_world : world :=
  World (txt "/opt/sb") false (txt "20250101_120000") 100
    (card_deployer (Completed 0 [] []))
    [] None
    (Some [FsFile (txt "new.N64") 1048576;
           FsFile (txt "notes.txt") 10;
           FsDir (txt "old") [FsFile (txt "old.z64") 1048576]])
    [] [].

(** ** The menu music, as the properties speak of it *)

(** The options of [cmd_menu_music] when the next number to give is
    [option_num]: the numbers from 1 up to it are all taken, and the
    files offered are [.mp3] files. *)
Definition music_options (acc : Z * gmap Z music_action) : Prop :=
  1 ≤ acc.1
  ∧ (∀ i, 1 ≤ i < acc.1 → is_Some (acc.2 !! i))
  ∧ (∀ i mp3, acc.2 !! i = Some (SetMusic mp3) → is_mp3_file mp3 = true).

(** A logged run that removes the background music. *)
Definition is_music_removal (c : list str * run_result) : Prop :=
  fst c = [txt "sd"; txt "rm"; SD_MENU_MUSIC_PATH].

(** A computation that, when it has run the deployer to remove the
    music and returns, has as last line printed that the music was
    removed. *)
Definition reports_removal {A} (m : M A) : Prop :=
  ∀ w, ∃ new,
    calls (exec m w) = calls w ++ new
    ∧ (Exists is_music_removal new →
       (∃ a, eval m w = Ok a) →
       last (stdout (exec m w))
       = Some (Print (nl :: txt "Background music removed!"))).

(** There is music on the cart, which cannot be removed; the user asks
    for its removal. *)
Definition locked_music_world : world :=
  World (txt "/opt/sb") false (txt "20250101_120000") 100
    (λ _ args,
       if bool_decide (args = [txt "list"])
       then Completed 0 (txt "Found devices: SC64") []
       else if bool_decide (args = [txt "sd"; txt "ls"])
       then Completed 0 (txt "d ---- 2024-06-01 12:00:00 | /menu") []
       else if bool_decide (args = [txt "sd"; txt "stat"; SD_MENU_MUSIC_PATH])
       then Completed 0 (txt "f 3M 2025-12-01 19:03:12 | bg.mp3") []
       else Completed 1 [] (txt "write protected"))
    [] None None
    [Line (txt "2")]
    [].

(** The music directory of the example: one song. *)
Definition one_song : option (list fs_node) :=
  Some [FsFile (txt "tune.MP3") 3145728].

(** ** The whole program, as the properties speak of it *)

(** A logged run that sets the clock of the cart. *)
Definition is_clock_run (c : list str * run_result) : Prop :=
  fst c = [txt "set"; txt "rtc"].

(** The user lists the local ROMs from the main menu, goes back to it
    and leaves with Ctrl-C. *)
Definition menu_round_world : world :=
  World (txt "/opt/sb") false (txt "20250101_120000") 100
    (λ _ args,
       if bool_decide (args = [txt "list"])
       then Completed 0 (txt "Found devices: SC64") []
       else Completed 1 [] (txt "SD card not initialized"))
    []
    (Some [FsFile (txt "A.z64") 1048576])
    None
    [Line (txt "2"); Line []; CtrlC]
    [].

(** The user lists the local ROMs from the main menu and presses Ctrl-C
    where asked to press Enter. *)
Definition interrupted_world : world :=
  World (txt "/opt/sb") false (txt "20250101_120000") 100
    (λ _ args,
       if bool_decide (args = [txt "list"])
       then Completed 0 (txt "Found devices: SC64") []
       else Completed 1 [] (txt "SD card not initialized"))
    []
    (Some [FsFile (txt "A.z64") 1048576])
    None
    [Line (txt " 2 "); CtrlC]
    [].

(** The entry the number [num] stands for once the listing [files] of the
    current directory has been shown: the entry at that place in the order
    shown; when the listing has no entry, what the number stood for
    before. *)
Definition numbered (st : browse_state) (files : list sd_entry) (num : Z)
  : option sd_entry :=
  if bool_decide (files = []) then item_map st ≫= (λ items, items !! num)
  else if 1 <=? num then shown_order files !! Z.to_nat (num - 1)
  else None.

(** The card of [card_deployer]; the user enters the directory [/menu],
    goes back and leaves. *)
Definition there_and_back_world : world :=
  World (txt "/opt/sb") false (txt "20250101_120000") 100
    (card_deployer (Completed 0 [] []))
    [] None None
    [Line (txt "1"); Line (txt "0"); Line (txt "b")]
    [].

(** ** The local files, as the properties speak of them *)

(** What the program reads of the local disk to find the ROMs and to
    name its directories: where the script is, the flavour of the paths,
    and the content of the ROM directory. *)
Definition disk (w : world) : str * bool * option (list fs_node) :=
  (script_dir w, on_windows w, roms_dir w).

(** The files [list_local_roms] returns in a world. *)
Definition local_roms (w : world) : list Path :=
  match eval list_local_roms w with
  | Ok roms => roms
  | Raise _ => []
  end.

(** The files [list_local_music] returns in a world where the music
    directory has the content [music_dir]. *)
Definition local_music (w : world) (music_dir : option (list fs_node))
  : list Path :=
  match eval (list_local_music music_dir) w with
  | Ok (music_files, _) => music_files
  | Raise _ => []
  end.

(** A logged run that uploads one of the files [roms], under its own
    name, to a path of the card that starts with a slash. *)
Definition is_upload_of (roms : list Path) (c : list str * run_result)
  : Prop :=
  ∃ rom dest,
    rom ∈ roms
    ∧ fst c = [txt "sd"; txt "upload"; p_str rom; dest]
    ∧ head dest = Some "/"%char
    ∧ endswith dest ("/"%char :: p_name rom) = true.

(** A computation that, from any state of the world with the local disk
    of [w0], runs the deployer only in ways that satisfy [P]. *)
Definition runs_from (w0 : world) (P : list str * run_result → Prop) {A}
    (m : M A) : Prop :=
  ∀ w, disk w = disk w0 →
       ∃ new, calls (exec m w) = calls w ++ new ∧ Forall P new.

(** A computation whose value, when it returns one from a state of the
    world with the local disk of [w0], satisfies [Q]. *)
Definition returns_from (w0 : world) {A} (Q : A → Prop) (m : M A) : Prop :=
  ∀ w a, disk w = disk w0 → eval m w = Ok a → Q a.

(** A logged run that asks for, removes or replaces the background music
    of the cart, [SD_MENU_MUSIC_PATH]; what replaces it is one of the
    files [music_files]. *)
Definition is_music_run_of (music_files : list Path)
    (c : list str * run_result) : Prop :=
  fst c = [txt "sd"; txt "stat"; SD_MENU_MUSIC_PATH]
  ∨ fst c = [txt "sd"; txt "rm"; SD_MENU_MUSIC_PATH]
  ∨ ∃ mp3, mp3 ∈ music_files
           ∧ fst c = [txt "sd"; txt "upload"; p_str mp3; SD_MENU_MUSIC_PATH].

(** The runs [cmd_menu_music] may make when the local music files are
    [music_files]. *)
Definition is_music_command_run_of (music_files : list Path)
    (c : list str * run_result) : Prop :=
  fst c = [txt "list"] ∨ fst c = [txt "sd"; txt "ls"]
  ∨ is_music_run_of music_files c.

(** Options of [cmd_menu_music] that offer no file but those of
    [music_files]. *)
Definition music_offers (music_files : list Path)
    (acc : Z * gmap Z music_action) : Prop :=
  ∀ i mp3, acc.2 !! i = Some (SetMusic mp3) → mp3 ∈ music_files.

(** The runs of the deployer the program may make when the local ROM
    files are [roms] and the local music files [music_files]. *)
Definition is_program_run_of (roms music_files : list Path)
    (c : list str * run_result) : Prop :=
  is_inspection c ∨ is_upload_of roms c ∨ is_menu_backup c
  ∨ is_menu_upload c ∨ is_music_run_of music_files c ∨ is_clock_run c.

(** * Proofs *)

(** * Text *)

(** [int] converts a literal of 4300 digits and rejects one of 4301, the
    zeros in front included. *)
Lemma py_int_max_str_digits :
  py_int (repeat "0"%char 4299 ++ txt "2") = Some 2
  ∧ py_int (repeat "0"%char 4300 ++ txt "2") = None.
Proof. split; by vm_compute. Qed.

Lemma ascii_eqb_true (a b : ascii) : Ascii.eqb a b = true ↔ a = b.
Proof. apply Ascii.eqb_eq. Qed.

Lemma startswith_app (s p : str) :
  startswith s p = true ↔ ∃ rest, s = p ++ rest.
Proof.
  revert s. induction p as [|c p IH]; intros s; simpl.
  - split; [intros _; by exists s | done].
  - destruct s as [|d s].
    + split; [done | intros [rest H]; discriminate H].
    + rewrite andb_true_iff, ascii_eqb_true, IH. split.
      * intros [-> [rest ->]]. eauto.
      * intros [rest H]. injection H as -> ->. eauto.
Qed.

Lemma endswith_app (s suf : str) :
  endswith s suf = true ↔ ∃ pre, s = pre ++ suf.
Proof.
  unfold endswith. rewrite startswith_app. split.
  - intros [rest H]. exists (rev rest).
    rewrite <- (rev_involutive s), H, rev_app_distr, rev_involutive. done.
  - intros [pre ->]. exists (rev pre). apply rev_app_distr.
Qed.

Lemma length_lower (s : str) : length (lower s) = length s.
Proof. apply length_map. Qed.

Lemma lower_app (a b : str) : lower (a ++ b) = lower a ++ lower b.
Proof. apply map_app. Qed.

Lemma elements_ROM_EXTENSIONS :
  elements ROM_EXTENSIONS = [txt ".z64"; txt ".v64"; txt ".n64"].
Proof. vm_compute. reflexivity. Qed.

Lemma elem_of_ROM_EXTENSIONS (ext : str) :
  ext ∈ ROM_EXTENSIONS ↔ ext = txt ".z64" ∨ ext = txt ".n64" ∨ ext = txt ".v64".
Proof.
  unfold ROM_EXTENSIONS. rewrite !elem_of_union, !elem_of_singleton. tauto.
Qed.

Lemma ROM_EXTENSIONS_length (ext : str) :
  ext ∈ ROM_EXTENSIONS → length ext = 4%nat.
Proof. rewrite elem_of_ROM_EXTENSIONS. intros [-> | [-> | ->]]; reflexivity. Qed.

(** Whatever the order of the visit, the loop drops the last four
    characters exactly when some extension matches. *)
Lemma strip_first_ext_any (order : list str) (name : str) :
  Forall (λ ext, length ext = 4%nat) order →
  strip_first_ext order name =
    if existsb (endswith (lower name)) order then drop_last 4 name else name.
Proof.
  induction 1 as [|ext order Hlen _ IH]; simpl; [done|].
  destruct (endswith (lower name) ext); simpl; [by rewrite Hlen | apply IH].
Qed.

Lemma existsb_endswith_iff (order : list str) (s : str) :
  existsb (endswith s) order = true ↔ ∃ pre ext, ext ∈ order ∧ s = pre ++ ext.
Proof.
  rewrite existsb_exists. split.
  - intros (ext & Hin & Hend). apply endswith_app in Hend as [pre ->].
    exists pre, ext. by rewrite list_elem_of_In.
  - intros (pre & ext & Hin & ->). exists ext.
    rewrite <- list_elem_of_In. split; [done|]. apply endswith_app. eauto.
Qed.

Lemma drop_last_app (stem ext : str) :
  length ext = 4%nat → drop_last 4 (stem ++ ext) = stem.
Proof.
  intros Hlen. unfold drop_last. rewrite length_app, Hlen.
  replace (length stem + 4 - 4)%nat with (length stem) by lia.
  by rewrite take_app_length.
Qed.

(** C3.  Whatever the order in which the loop of [normalize_rom_name]
    visits the set of extensions: a name that ends, in any casing, with
    one of [.z64], [.n64], [.v64] loses that one extension and is then
    lowercased and trimmed; a name with no such ending is only lowercased
    and trimmed.  So ["Game.Z64"], ["  Game  .z64"] and ["game"] all
    normalize to ["game"]. *)
Theorem normalize_rom_name_spec (order : list str) (name : str) :
  order ≡ₚ elements ROM_EXTENSIONS →
  (∀ stem ext, name = stem ++ ext → lower ext ∈ ROM_EXTENSIONS →
     normalize_rom_name_in order name = strip (lower stem))
  ∧ ((∀ stem ext, name = stem ++ ext → lower ext ∉ ROM_EXTENSIONS) →
     normalize_rom_name_in order name = strip (lower name))
  ∧ normalize_rom_name_in order (txt "Game.Z64") = txt "game"
  ∧ normalize_rom_name_in order (txt "  Game  .z64") = txt "game"
  ∧ normalize_rom_name_in order (txt "game") = txt "game".
Proof.
  intros Hperm.
  assert (Hmem : ∀ ext, ext ∈ order ↔ ext ∈ ROM_EXTENSIONS).
  { intros ext. rewrite Hperm. apply elem_of_elements. }
  assert (Hlen : Forall (λ ext, length ext = 4%nat) order).
  { apply Forall_forall. intros ext Hin.
    apply ROM_EXTENSIONS_length, Hmem. done. }
  assert (Hyes : ∀ nm stem ext, nm = stem ++ ext → lower ext ∈ ROM_EXTENSIONS →
            normalize_rom_name_in order nm = strip (lower stem)).
  { intros nm stem ext -> Hext. unfold normalize_rom_name_in.
    rewrite strip_first_ext_any by done.
    assert (existsb (endswith (lower (stem ++ ext))) order = true) as ->.
    { apply existsb_endswith_iff. exists (lower stem), (lower ext).
      split; [by apply Hmem | apply lower_app]. }
    rewrite drop_last_app; [done|].
    rewrite <- length_lower. by apply ROM_EXTENSIONS_length. }
  assert (Hno : ∀ nm, (∀ stem ext, nm = stem ++ ext → lower ext ∉ ROM_EXTENSIONS) →
            normalize_rom_name_in order nm = strip (lower nm)).
  { intros nm Hnone. unfold normalize_rom_name_in.
    rewrite strip_first_ext_any by done.
    destruct (existsb (endswith (lower nm)) order) eqn:E; [|done].
    apply existsb_endswith_iff in E as (pre & ext & Hin & Heq).
    exfalso. apply (Hnone (take (length pre) nm) (drop (length pre) nm)).
    - by rewrite take_drop.
    - unfold lower. rewrite <- skipn_map. fold (lower nm). rewrite Heq.
      rewrite drop_app_length. by apply Hmem. }
  split; [by apply Hyes|]. split; [by apply Hno|].
  split; [|split].
  - rewrite (Hyes _ (txt "Game") (txt ".Z64")); [done | done |].
    apply elem_of_ROM_EXTENSIONS. by left.
  - rewrite (Hyes _ (txt "  Game  ") (txt ".z64")); [done | done |].
    apply elem_of_ROM_EXTENSIONS. by left.
  - unfold normalize_rom_name_in. rewrite strip_first_ext_any by done.
    destruct (existsb (endswith (lower (txt "game"))) order) eqn:E; [|done].
    apply existsb_endswith_iff in E as (pre & ext & Hin & Heq).
    apply Hmem, elem_of_ROM_EXTENSIONS in Hin.
    apply (f_equal (@rev ascii)) in Heq. rewrite rev_app_distr in Heq.
    destruct Hin as [-> | [-> | ->]]; discriminate Heq.
Qed.

Lemma normalize_rom_name_spec_witness :
  elements ROM_EXTENSIONS ≡ₚ elements ROM_EXTENSIONS
  ∧ normalize_rom_name (txt "Zelda.N64") = strip (lower (txt "Zelda")).
Proof.
  split; [reflexivity|].
  apply (proj1 (normalize_rom_name_spec (elements ROM_EXTENSIONS)
                  (txt "Zelda.N64") (reflexivity _))
           (txt "Zelda") (txt ".N64")).
  - reflexivity.
  - apply elem_of_ROM_EXTENSIONS. right. left. reflexivity.
Defined.

Lemma ascii_eqb_false (a b : ascii) : Ascii.eqb a b = false ↔ a ≠ b.
Proof. apply Ascii.eqb_neq. Qed.

(** *** Whitespace at the two ends *)

Lemma lstrip_split (s : str) : ∃ ws, blank ws ∧ s = ws ++ lstrip s.
Proof.
  induction s as [|c s (ws & Hws & Heq)]; simpl.
  - exists []. split; [constructor | done].
  - destruct (isspace c) eqn:E.
    + exists (c :: ws). split; [by constructor|].
      by rewrite <- app_comm_cons, <- Heq.
    + exists []. split; [constructor | done].
Qed.

Lemma rstrip_blank (s : str) : blank s → rstrip s = [].
Proof.
  induction 1 as [|c s Hc _ IH]; simpl; [done|]. by rewrite IH, Hc.
Qed.

Lemma rstrip_split (s : str) : ∃ ws, blank ws ∧ s = rstrip s ++ ws.
Proof.
  induction s as [|c s (ws & Hws & Heq)]; simpl.
  - exists []. split; [constructor | done].
  - destruct (rstrip s) as [|d t] eqn:E.
    + simpl in Heq. subst ws. destruct (isspace c) eqn:Ec.
      * exists (c :: s). split; [by constructor | done].
      * exists s. done.
    + exists ws. split; [done|]. by rewrite <- app_comm_cons, <- Heq.
Qed.

Lemma rstrip_nil_blank (s : str) : rstrip s = [] → blank s.
Proof.
  intros H. destruct (rstrip_split s) as (ws & Hws & Heq).
  rewrite H in Heq. by subst.
Qed.

Lemma lstrip_blank (s : str) : blank s → lstrip s = [].
Proof. induction 1 as [|c s Hc _ IH]; simpl; [done|]. by rewrite Hc. Qed.

Lemma lstrip_nil_blank (s : str) : lstrip s = [] → blank s.
Proof.
  intros H. destruct (lstrip_split s) as (ws & Hws & Heq).
  rewrite H, app_nil_r in Heq. by subst.
Qed.

Lemma strip_nil_blank (s : str) : strip s = [] → blank s.
Proof.
  unfold strip. intros H%rstrip_nil_blank.
  destruct (lstrip_split s) as (ws & Hws & Heq). rewrite Heq.
  by apply Forall_app.
Qed.

Lemma lstrip_blank_app (ws s : str) : blank ws → lstrip (ws ++ s) = lstrip s.
Proof. induction 1 as [|c ws Hc _ IH]; simpl; [done|]. by rewrite Hc. Qed.

Lemma rstrip_app_blank (s ws : str) : blank ws → rstrip (s ++ ws) = rstrip s.
Proof.
  intros Hws. induction s as [|c s IH]; simpl.
  - by apply rstrip_blank.
  - by rewrite IH.
Qed.

Lemma lstrip_app_blank (s ws : str) :
  blank ws → ∃ ws', blank ws' ∧ lstrip (s ++ ws) = lstrip s ++ ws'.
Proof.
  intros Hws. induction s as [|c s IH]; simpl.
  - exists []. split; [constructor|]. by rewrite lstrip_blank.
  - destruct (isspace c); [done|]. by exists ws.
Qed.

Lemma strip_blank_app (ws s : str) : blank ws → strip (ws ++ s) = strip s.
Proof. intros H. unfold strip. by rewrite lstrip_blank_app. Qed.

Lemma strip_app_blank (s ws : str) : blank ws → strip (s ++ ws) = strip s.
Proof.
  intros H. unfold strip.
  destruct (lstrip_app_blank s ws H) as (ws' & Hws' & ->).
  by apply rstrip_app_blank.
Qed.

(** *** Splitting *)

Lemma split_cons (sep c : ascii) (s : str) :
  split sep (c :: s) =
    if Ascii.eqb c sep then [] :: split sep s else cons_head c (split sep s).
Proof. reflexivity. Qed.

Lemma split_snoc_view (sep : ascii) (s : str) :
  ∃ init final, split sep s = init ++ [final].
Proof.
  induction s as [|c s (init & final & IH)].
  - by exists [], [].
  - rewrite split_cons, IH. destruct (Ascii.eqb c sep).
    + by exists ([] :: init), final.
    + destruct init as [|l init]; simpl.
      * by exists [], (c :: final).
      * by exists ((c :: l) :: init), final.
Qed.

Lemma split_cons_view (sep : ascii) (s : str) :
  ∃ first rest, split sep s = first :: rest.
Proof.
  destruct s as [|c s]; [by exists [], []|].
  rewrite split_cons. destruct (Ascii.eqb c sep); [by eexists _, _|].
  destruct (split sep s); simpl; by eexists _, _.
Qed.

Lemma split_app (sep : ascii) (a b : str) init final first rest :
  split sep a = init ++ [final] →
  split sep b = first :: rest →
  split sep (a ++ b) = init ++ [final ++ first] ++ rest.
Proof.
  intros Ha Hb. revert init final Ha.
  induction a as [|c a IH]; intros init final Ha.
  - simpl in Ha. destruct init as [|x [|y init]]; try discriminate Ha.
    injection Ha as <-. by simpl.
  - rewrite <- app_comm_cons, split_cons. rewrite split_cons in Ha.
    destruct (split_snoc_view sep a) as (init' & final' & Ha').
    rewrite (IH _ _ Ha'). rewrite Ha' in Ha.
    destruct (Ascii.eqb c sep).
    + rewrite app_comm_cons in Ha. apply app_inj_tail in Ha as [<- <-]. done.
    + destruct init' as [|l init']; simpl in Ha |- *.
      * destruct init as [|x [|y init]]; try discriminate Ha.
        injection Ha as <-. done.
      * rewrite app_comm_cons in Ha. apply app_inj_tail in Ha as [<- <-]. done.
Qed.

Lemma split_blank (ws : str) : blank ws → Forall blank (split nl ws).
Proof.
  induction 1 as [|c ws Hc _ IH].
  - repeat constructor.
  - rewrite split_cons. destruct (Ascii.eqb c nl).
    + constructor; [constructor | done].
    + destruct IH as [|l ls Hl Hls]; simpl; repeat constructor; done.
Qed.

(** *** Lines and their records *)

Lemma pipe_not_space : isspace "|"%char = false.
Proof. reflexivity. Qed.

Lemma blank_no_pipe (s : str) : blank s → "|"%char ∉ s.
Proof.
  intros Hs Hin. eapply Forall_forall in Hs; [|exact Hin]. discriminate Hs.
Qed.

Lemma before_first_app (sep : ascii) (a b : str) :
  sep ∈ a → before_first sep (a ++ b) = before_first sep a.
Proof.
  induction a as [|c a IH]; intros Hin; [by apply elem_of_nil in Hin|].
  simpl. destruct (Ascii.eqb c sep) eqn:E; [done|].
  apply ascii_eqb_false in E. apply elem_of_cons in Hin as [->|Hin]; [done|].
  by rewrite IH.
Qed.

Lemma after_first_app (sep : ascii) (a b : str) :
  sep ∈ a → after_first sep (a ++ b) = after_first sep a ++ b.
Proof.
  induction a as [|c a IH]; intros Hin; [by apply elem_of_nil in Hin|].
  simpl. destruct (Ascii.eqb c sep) eqn:E; [done|].
  apply ascii_eqb_false in E. apply elem_of_cons in Hin as [->|Hin]; [done|].
  by rewrite IH.
Qed.

Lemma before_first_blank_app (ws s : str) :
  blank ws → before_first "|"%char (ws ++ s) = ws ++ before_first "|"%char s.
Proof.
  induction 1 as [|c ws Hc _ IH]; simpl; [done|].
  destruct (Ascii.eqb c "|"%char) eqn:E.
  - apply ascii_eqb_true in E. subst c. discriminate Hc.
  - by rewrite IH.
Qed.

Lemma after_first_blank_app (ws s : str) :
  blank ws → after_first "|"%char (ws ++ s) = after_first "|"%char s.
Proof.
  induction 1 as [|c ws Hc _ IH]; simpl; [done|].
  destruct (Ascii.eqb c "|"%char) eqn:E.
  - apply ascii_eqb_true in E. subst c. discriminate Hc.
  - by rewrite IH.
Qed.

Lemma records_of_line_blank_app (ws line : str) :
  blank ws → records_of_line (ws ++ line) = records_of_line line.
Proof.
  intros Hws. unfold records_of_line, record_of_line.
  rewrite before_first_blank_app, after_first_blank_app by done.
  rewrite strip_blank_app by done.
  assert ("|"%char ∈ ws ++ line ↔ "|"%char ∈ line) as Hiff.
  { rewrite elem_of_app. pose proof (blank_no_pipe ws Hws). tauto. }
  destruct (bool_decide ("|"%char ∈ line)) eqn:E.
  - apply bool_decide_eq_true in E. by rewrite bool_decide_eq_true_2 by tauto.
  - apply bool_decide_eq_false in E. by rewrite bool_decide_eq_false_2 by tauto.
Qed.

Lemma records_of_line_app_blank (line ws : str) :
  blank ws → records_of_line (line ++ ws) = records_of_line line.
Proof.
  intros Hws. unfold records_of_line, record_of_line.
  assert ("|"%char ∈ line ++ ws ↔ "|"%char ∈ line) as Hiff.
  { rewrite elem_of_app. pose proof (blank_no_pipe ws Hws). tauto. }
  destruct (bool_decide ("|"%char ∈ line)) eqn:E.
  - apply bool_decide_eq_true in E. rewrite bool_decide_eq_true_2 by tauto.
    rewrite before_first_app, after_first_app by done.
    by rewrite strip_app_blank.
  - apply bool_decide_eq_false in E. by rewrite bool_decide_eq_false_2 by tauto.
Qed.

Lemma records_of_blank (ws : str) : blank ws → records_of_line ws = [].
Proof.
  intros H. unfold records_of_line.
  rewrite bool_decide_eq_false_2; [done | by apply blank_no_pipe].
Qed.

Lemma records_of_blank_lines (ls : list str) :
  Forall blank ls → flat_map records_of_line ls = [].
Proof.
  induction 1 as [|l ls Hl _ IH]; simpl; [done|].
  by rewrite IH, records_of_blank.
Qed.

Lemma records_blank_app (ws s : str) :
  blank ws →
  flat_map records_of_line (split nl (ws ++ s))
  = flat_map records_of_line (split nl s).
Proof.
  intros Hws.
  destruct (split_snoc_view nl ws) as (init & final & Hsplit).
  destruct (split_cons_view nl s) as (first & rest & Hs).
  pose proof (split_blank ws Hws) as Hb. rewrite Hsplit in Hb.
  apply Forall_app in Hb as [Hinit Hfinal]. rewrite Forall_singleton in Hfinal.
  rewrite (split_app nl ws s init final first rest Hsplit Hs), Hs.
  rewrite !flat_map_app. simpl.
  rewrite records_of_blank_lines, records_of_line_blank_app by done.
  by rewrite app_nil_r.
Qed.

Lemma records_app_blank (s ws : str) :
  blank ws →
  flat_map records_of_line (split nl (s ++ ws))
  = flat_map records_of_line (split nl s).
Proof.
  intros Hws.
  destruct (split_snoc_view nl s) as (init & final & Hs).
  destruct (split_cons_view nl ws) as (first & rest & Hsplit).
  pose proof (split_blank ws Hws) as Hb. rewrite Hsplit in Hb.
  apply Forall_cons in Hb as [Hfirst Hrest].
  rewrite (split_app nl s ws init final first rest Hs Hsplit), Hs.
  rewrite !flat_map_app. simpl.
  rewrite (records_of_blank_lines rest), records_of_line_app_blank by done.
  by rewrite !app_nil_r.
Qed.

(** Whitespace around the whole listing changes no record. *)
Lemma records_of_listing_strip (out : str) :
  records_of_listing (strip out) = records_of_listing out.
Proof.
  unfold records_of_listing, strip.
  destruct (lstrip_split out) as (ws1 & Hws1 & Hout).
  destruct (rstrip_split (lstrip out)) as (ws2 & Hws2 & Hl).
  rewrite Hout at 2. rewrite records_blank_app by done.
  rewrite Hl at 2. by rewrite records_app_blank.
Qed.

Lemma contains_char (c : ascii) (s : str) :
  contains [c] s = bool_decide (c ∈ s).
Proof.
  induction s as [|d s IH]; [done|].
  cbn [contains startswith].
  - rewrite IH, andb_true_r. destruct (Ascii.eqb d c) eqn:E; simpl.
    + apply ascii_eqb_true in E as ->. symmetry.
      apply bool_decide_eq_true_2. by left.
    + apply ascii_eqb_false in E. apply bool_decide_ext.
      rewrite elem_of_cons. split; [tauto | intros [->|?]; done].
Qed.

Lemma split1_first (sep : ascii) (s : str) :
  sep ∈ s → split1 sep s = [before_first sep s; after_first sep s].
Proof.
  induction s as [|c s IH]; intros Hin; [by apply elem_of_nil in Hin|].
  simpl. destruct (Ascii.eqb c sep) eqn:E; [done|].
  apply ascii_eqb_false in E. apply elem_of_cons in Hin as [->|Hin]; [done|].
  by rewrite IH.
Qed.

Lemma startswith_char (s : str) (c : ascii) :
  startswith s [c] = bool_decide (head s = Some c).
Proof.
  destruct s as [|d s]; [done|]. cbn [startswith head].
  - rewrite andb_true_r. destruct (Ascii.eqb d c) eqn:E.
    + apply ascii_eqb_true in E as ->. symmetry. by apply bool_decide_eq_true_2.
    + apply ascii_eqb_false in E. symmetry. apply bool_decide_eq_false_2.
      intros [= ->]. done.
Qed.

(** The loop body adds to [files] the records of the line. *)
Lemma listing_line_records (files : list sd_entry) (line : str) :
  listing_line files line = files ++ records_of_line line.
Proof.
  unfold listing_line. case_bool_decide as Hblank.
  { apply strip_nil_blank in Hblank.
    by rewrite records_of_blank, app_nil_r. }
  change (txt "|") with ["|"%char]. rewrite contains_char.
  unfold records_of_line. case_bool_decide as Hpipe; cbn [negb].
  2: by rewrite app_nil_r.
  rewrite split1_first by done. unfold record_of_line.
  change (txt "d") with ["d"%char]. change (txt "/") with ["/"%char].
  rewrite !startswith_char. do 3 f_equal.
  by destruct (split_ws _) as [|? [|? ?]].
Qed.

Lemma parse_listing_records (out : str) :
  parse_listing out = records_of_listing out.
Proof.
  unfold parse_listing. rewrite <- records_of_listing_strip.
  unfold records_of_listing.
  generalize (split nl (strip out)). intros lines.
  rewrite <- (app_nil_l (flat_map _ _)). generalize (@nil sd_entry).
  induction lines as [|line lines IH]; intros files; simpl.
  - by rewrite app_nil_r.
  - by rewrite IH, listing_line_records, <- app_assoc.
Qed.

(** *** Running the deployer *)

Lemma run_sc64_command_completed w args code out err :
  deployer w (length (calls w)) args = Completed code out err →
  run_sc64_command args w
  = (Ok (code, out, err),
     set_calls (calls w ++ [(args, Completed code out err)]) w).
Proof.
  intros H. unfold run_sc64_command, try, subprocess_run. by rewrite H.
Qed.

Lemma list_sd_card_files_unfold (path : option str) :
  list_sd_card_files path =
    (do '(code, out, err) <- run_sc64_command (ls_args path);
     if negb (code =? 0) then ret [] else ret (parse_listing out)).
Proof.
  unfold list_sd_card_files, ls_args.
  destruct path as [p|]; [case_bool_decide|]; reflexivity.
Qed.

Lemma list_sd_card_files_completed w path code out err :
  deployer w (length (calls w)) (ls_args path) = Completed code out err →
  list_sd_card_files path w
  = (Ok (if code =? 0 then parse_listing out else []),
     set_calls (calls w ++ [(ls_args path, Completed code out err)]) w).
Proof.
  intros H. rewrite list_sd_card_files_unfold. unfold bind.
  rewrite (run_sc64_command_completed _ _ _ _ _ H).
  by destruct (code =? 0).
Qed.

(** C2.  When the deployer exits with code 0, [list_sd_card_files] returns
    one record for each line of the listing that holds a pipe, and none
    for a blank line or a line without one: the line is split at its first
    pipe into a trimmed metadata field and a trimmed name, the kind is
    ["dir"] exactly when the metadata starts with [d], the size is the
    second whitespace-separated token of the metadata or empty, and the
    path is the name made absolute.  The two lines of the specification
    parse as it says. *)
Theorem list_sd_card_files_spec :
  (∀ (w : world) (path : option str) (out err : str),
     deployer w (length (calls w)) (ls_args path) = Completed 0 out err →
     eval (list_sd_card_files path) w = Ok (records_of_listing out))
  ∧ parse_listing (txt "f 32M 2025-12-01 19:03:12 | file.z64")
    = [mkEntry (txt "file.z64") (txt "file") (txt "32M") (txt "/file.z64")]
  ∧ parse_listing (txt "d ---- 2024-06-01 12:00:00 | /menu")
    = [mkEntry (txt "/menu") (txt "dir") (txt "----") (txt "/menu")]
  ∧ parse_listing (txt "no pipe on this line") = [].
Proof.
  split; [|by vm_compute].
  intros w path out err Hrun. unfold eval.
  rewrite (list_sd_card_files_completed _ _ _ _ _ Hrun). simpl.
  by rewrite parse_listing_records.
Qed.

Lemma list_sd_card_files_spec_witness :
  deployer cart_world (length (calls cart_world)) (ls_args (Some (txt "/menu")))
  = Completed 0 (txt "f 1K 2025-12-01 19:03:12 | readme.txt") []
  ∧ eval (list_sd_card_files (Some (txt "/menu"))) cart_world
    = Ok (records_of_listing (txt "f 1K 2025-12-01 19:03:12 | readme.txt")).
Proof.
  assert (deployer cart_world (length (calls cart_world))
            (ls_args (Some (txt "/menu")))
          = Completed 0 (txt "f 1K 2025-12-01 19:03:12 | readme.txt") [])
    as Hrun by (vm_compute; reflexivity).
  split; [exact Hrun|].
  exact (proj1 list_sd_card_files_spec cart_world (Some (txt "/menu")) _ _ Hrun).
Defined.

(** * Effects *)

Lemma bind_ok {A B} (m : M A) (k : A → M B) w a w' :
  m w = (Ok a, w') → bind m k w = k a w'.
Proof. intros H. unfold bind. by rewrite H. Qed.

Lemma bind_raise {A B} (m : M A) (k : A → M B) w e w' :
  m w = (Raise e, w') → bind m k w = (Raise e, w').
Proof. intros H. unfold bind. by rewrite H. Qed.

Lemma run_eta {A} (m : M A) w : m w = (eval m w, exec m w).
Proof. unfold eval, exec. by destruct (m w). Qed.

(** *** Computations that neither read nor write the terminal output *)

Lemma quiet_ret {A} (a : A) : quiet (ret a).
Proof. by intros v w. Qed.

Lemma quiet_raise {A} (e : exn) : quiet (@raise A e).
Proof. by intros v w. Qed.

Lemma quiet_bind {A B} (m : M A) (k : A → M B) :
  quiet m → (∀ a, quiet (k a)) → quiet (bind m k).
Proof.
  intros Hm Hk v w. unfold eval, exec, bind. rewrite Hm.
  unfold eval, exec. destruct (m w) as [[a|e] w']; simpl; [|done].
  rewrite Hk. done.
Qed.

Lemma quiet_run_sc64_command args : quiet (run_sc64_command args).
Proof.
  intros v w. unfold eval, exec, run_sc64_command, try, subprocess_run. simpl.
  destruct (deployer w (length (calls w)) args) as [code out err|[]]; done.
Qed.

Lemma quiet_check_device_connected : quiet check_device_connected.
Proof.
  apply quiet_bind; [apply quiet_run_sc64_command|].
  intros [[code out] err]. apply quiet_ret.
Qed.

Lemma quiet_is_sd_card_accessible : quiet is_sd_card_accessible.
Proof.
  apply quiet_bind; [apply quiet_run_sc64_command|].
  intros [[code out] err]. apply quiet_ret.
Qed.

Lemma quiet_list_sd_card_files path : quiet (list_sd_card_files path).
Proof.
  rewrite list_sd_card_files_unfold.
  apply quiet_bind; [apply quiet_run_sc64_command|].
  intros [[code out] err]. destruct (negb _); apply quiet_ret.
Qed.

Lemma quiet_for_fold {A S} (l : list A) (body : S → A → M S) s :
  (∀ s x, quiet (body s x)) → quiet (for_fold l body s).
Proof.
  intros Hbody. revert s. induction l as [|x l IH]; intros s; simpl.
  - apply quiet_ret.
  - apply quiet_bind; [apply Hbody | apply IH].
Qed.

Lemma quiet_get_all_sd_roms_from depth path found :
  quiet (get_all_sd_roms_from depth path found).
Proof.
  revert path found. induction depth as [|depth IH]; intros path found; simpl.
  - apply quiet_raise.
  - apply quiet_bind; [apply quiet_list_sd_card_files|].
    intros files. apply quiet_for_fold. intros s f.
    case_bool_decide; [apply IH|]. destruct (is_rom_name _); apply quiet_ret.
Qed.

Lemma quiet_get_all_sd_roms path : quiet (get_all_sd_roms path).
Proof.
  intros v w. unfold get_all_sd_roms, bind, get_world, eval, exec. simpl.
  rewrite quiet_get_all_sd_roms_from. done.
Qed.

Lemma quiet_list_local_roms : quiet list_local_roms.
Proof.
  intros v w. unfold list_local_roms, bind, get_world, eval, exec. simpl.
  by destruct (roms_dir w).
Qed.

Lemma list_local_roms_run w : list_local_roms w = (eval list_local_roms w, w).
Proof.
  unfold list_local_roms, bind, get_world, eval. simpl.
  by destruct (roms_dir w).
Qed.

(** A quiet computation after some output. *)
Lemma bind_quiet {A B} (m : M A) (k : A → M B) v w :
  quiet m →
  bind m k (set_stdout v w) =
    match eval m w with
    | Ok a => k a (set_stdout v (exec m w))
    | Raise e => (Raise e, set_stdout v (exec m w))
    end.
Proof. intros Hm. unfold bind. rewrite Hm. done. Qed.

(** *** Computations that only print *)

Lemma set_stdout_twice v v' w : set_stdout v (set_stdout v' w) = set_stdout v w.
Proof. reflexivity. Qed.

Lemma stdout_set_stdout v w : stdout (set_stdout v w) = v.
Proof. reflexivity. Qed.

Lemma calls_set_stdout v w : calls (set_stdout v w) = calls w.
Proof. reflexivity. Qed.

Lemma prints_only_ret : prints_only (ret tt).
Proof.
  intros w. exists []. rewrite app_nil_r. by destruct w.
Qed.

Lemma prints_only_print s : prints_only (print s).
Proof. intros w. by exists [Print s]. Qed.

Lemma prints_only_seq (m : M unit) (k : M unit) :
  prints_only m → prints_only k → prints_only (m ;; k).
Proof.
  intros Hm Hk w. destruct (Hm w) as [out1 H1].
  destruct (Hk (set_stdout (stdout w ++ out1) w)) as [out2 H2].
  exists (out1 ++ out2). unfold bind. rewrite H1, H2. simpl.
  by rewrite app_assoc.
Qed.

Lemma prints_only_for_each {A} (l : list A) (body : A → M unit) :
  (∀ x, prints_only (body x)) → prints_only (for_each l body).
Proof.
  intros Hbody. induction l as [|x l IH]; simpl.
  - apply prints_only_ret.
  - by apply prints_only_seq.
Qed.

Lemma prints_only_print_rom_lines roms : prints_only (print_rom_lines roms).
Proof.
  apply prints_only_for_each. intros [i rom]. apply prints_only_print.
Qed.

Lemma prints_only_print_header text : prints_only (print_header text).
Proof. repeat apply prints_only_seq; apply prints_only_print. Qed.

Lemma prints_only_if (c : bool) (m k : M unit) :
  prints_only m → prints_only k → prints_only (if c then m else k).
Proof. by destruct c. Qed.

Create HintDb prints.
#[global] Hint Resolve prints_only_ret prints_only_print prints_only_seq
  prints_only_for_each prints_only_print_rom_lines prints_only_print_header
  prints_only_if : prints.

(** What follows a printing computation starts from the same world, but
    for the output. *)
Lemma bind_prints {B} (m : M unit) (k : unit → M B) w :
  prints_only m →
  ∃ out, bind m k w = k tt (set_stdout (stdout w ++ out) w).
Proof.
  intros Hm. destruct (Hm w) as [out H]. exists out. unfold bind. by rewrite H.
Qed.

(** Run the printing computation at the head of the goal. *)
Ltac run_prints :=
  match goal with
  | |- context [bind ?m ?k ?w] =>
      let out := fresh "out" in
      let H := fresh "Hrun" in
      destruct (bind_prints m k w ltac:(auto 10 with prints)) as [out H];
      rewrite H; clear H; cbv beta;
      rewrite ?set_stdout_twice, ?stdout_set_stdout
  end.

(** Run the quiet computation at the head of the goal. *)
Ltac run_quiet Hq :=
  match goal with
  | |- context [bind ?m ?k (set_stdout ?v ?w)] =>
      rewrite (bind_quiet m k v w Hq); cbv beta
  end.

(** *** The deployer invoker *)

(** C5, as amended.  When the deployer executable cannot be found
    ([FileNotFoundError]), [run_sc64_command] returns the exit code [-1],
    an empty output and an explanatory message in place of stderr; when
    the process ran it returns its exit code and outputs; any other
    failure to start the process is raised to the caller. *)
Theorem run_sc64_command_outcomes (w : world) (args : list str) :
  (deployer w (length (calls w)) args = NotStarted FileNotFoundError →
   eval (run_sc64_command args) w
   = Ok (-1, [], txt "Error: sc64deployer not found at " ++ SC64_DEPLOYER w))
  ∧ (∀ code out err,
       deployer w (length (calls w)) args = Completed code out err →
       eval (run_sc64_command args) w = Ok (code, out, err))
  ∧ (∀ e, deployer w (length (calls w)) args = NotStarted e →
       e ≠ FileNotFoundError →
       eval (run_sc64_command args) w = Raise e).
Proof.
  unfold eval, run_sc64_command, try, subprocess_run.
  split; [|split].
  - by intros ->.
  - by intros code out err ->.
  - intros e -> He. by destruct e.
Qed.

Lemma run_sc64_command_outcomes_witness :
  deployer shelf_world (length (calls shelf_world)) [txt "list"]
  = NotStarted FileNotFoundError
  ∧ eval (run_sc64_command [txt "list"]) shelf_world
    = Ok (-1, [], txt "Error: sc64deployer not found at "
                  ++ SC64_DEPLOYER shelf_world).
Proof.
  split; [reflexivity|].
  apply (proj1 (run_sc64_command_outcomes shelf_world [txt "list"])).
  reflexivity.
Defined.

(** C5, as stated, fails: where the deployer is there but cannot be
    executed, [run_sc64_command] raises to its caller. *)
Lemma run_sc64_command_raises :
  eval (run_sc64_command [txt "list"]) locked_world = Raise PermissionError.
Proof. reflexivity. Qed.

(** *** The comparison when the card cannot be read *)

(** C10.  When there are local ROMs and the SD card is not accessible,
    [cmd_compare] returns the whole local list, and runs the deployer for
    nothing but the accessibility probe: the card is not enumerated. *)
Theorem cmd_compare_sd_not_accessible (w : world) (local_roms : list Path) :
  eval list_local_roms w = Ok local_roms →
  local_roms ≠ [] →
  eval is_sd_card_accessible w = Ok false →
  eval cmd_compare w = Ok local_roms
  ∧ calls (exec cmd_compare w) = calls (exec is_sd_card_accessible w).
Proof.
  intros Hlocal Hne Hacc.
  assert (∃ out, cmd_compare w
            = (Ok local_roms,
               set_stdout (stdout w ++ out) (exec is_sd_card_accessible w)))
    as [out Hrun].
  { unfold cmd_compare. run_prints.
    run_quiet quiet_list_local_roms. rewrite Hlocal.
    rewrite bool_decide_eq_false_2 by done.
    unfold exec at 1. rewrite list_local_roms_run. cbn [snd].
    run_quiet quiet_is_sd_card_accessible. rewrite Hacc. cbn [negb].
    do 4 run_prints. eexists. unfold ret. f_equal.
    rewrite ?set_stdout_twice. cbn [stdout set_stdout].
    rewrite <- !app_assoc. reflexivity. }
  unfold eval, exec at 1. by rewrite Hrun.
Qed.

Lemma cmd_compare_sd_not_accessible_witness :
  ∃ local_roms,
    eval list_local_roms shelf_world = Ok local_roms
    ∧ local_roms ≠ []
    ∧ eval is_sd_card_accessible shelf_world = Ok false
    ∧ eval cmd_compare shelf_world = Ok local_roms
    ∧ map p_name local_roms
      = [txt "kirby.v64"; txt "Mario.n64"; txt "zelda.Z64"].
Proof.
  eexists. split; [vm_compute; reflexivity|]. split; [discriminate|].
  split; [vm_compute; reflexivity|]. split; [|reflexivity].
  apply cmd_compare_sd_not_accessible;
    [vm_compute; reflexivity | discriminate | vm_compute; reflexivity].
Defined.

(** *** The comparison of the two inventories *)

Lemma split_by_cart_filter (sd_rom_names : gset str) (local_roms : list Path) :
  split_by_cart sd_rom_names local_roms
  = (List.filter (λ rom, negb (on_cart_in sd_rom_names rom)) local_roms,
     List.filter (on_cart_in sd_rom_names) local_roms).
Proof.
  unfold split_by_cart.
  enough (∀ missing on_cart,
            fold_left
              (λ '(missing, on_cart) rom,
                 let normalized := normalize_rom_name (p_name rom) in
                 if bool_decide (normalized ∉ sd_rom_names)
                 then (missing ++ [rom], on_cart)
                 else (missing, on_cart ++ [rom]))
              local_roms (missing, on_cart)
            = (missing ++ List.filter (λ rom, negb (on_cart_in sd_rom_names rom)) local_roms,
               on_cart ++ List.filter (on_cart_in sd_rom_names) local_roms))
    as H by apply (H [] []).
  induction local_roms as [|rom roms IH]; intros missing on_cart; simpl.
  - by rewrite !app_nil_r.
  - destruct (decide (normalize_rom_name (p_name rom) ∈ sd_rom_names))
      as [Hin|Hin].
    + assert (on_cart_in sd_rom_names rom = true) as ->
        by by apply bool_decide_eq_true_2.
      rewrite bool_decide_eq_false_2 by (intros Hn; by apply Hn).
      simpl. by rewrite IH, <- app_assoc.
    + assert (on_cart_in sd_rom_names rom = false) as ->
        by by apply bool_decide_eq_false_2.
      rewrite bool_decide_eq_true_2 by done.
      simpl. by rewrite IH, <- app_assoc.
Qed.

(** C4.  When there are local ROMs and the card can be read, [cmd_compare]
    sorts each local ROM by whether its normalized name is among the
    normalized names of the ROMs found on the cart, into [on_cart] and
    [missing], each in the order of the local list, and returns [missing].
    With local ROMs [A.z64] and [B.n64] and the remote names [{"a"}],
    [B.n64] is missing and [A.z64] is on the cart. *)
Theorem cmd_compare_partitions
    (w : world) (local_roms : list Path) (sd_roms : list sd_entry) :
  eval list_local_roms w = Ok local_roms →
  local_roms ≠ [] →
  eval is_sd_card_accessible w = Ok true →
  eval (get_all_sd_roms None) (exec is_sd_card_accessible w) = Ok sd_roms →
  let sd_rom_names : gset str :=
    list_to_set (map (λ r, normalize_rom_name (e_name r)) sd_roms) in
  eval cmd_compare w
  = Ok (List.filter (λ rom, negb (on_cart_in sd_rom_names rom)) local_roms)
  ∧ split_by_cart sd_rom_names local_roms
    = (List.filter (λ rom, negb (on_cart_in sd_rom_names rom)) local_roms,
       List.filter (on_cart_in sd_rom_names) local_roms)
  ∧ (∀ a b : Path,
       p_name a = txt "A.z64" → p_name b = txt "B.n64" →
       split_by_cart {[ txt "a" ]} [a; b] = ([b], [a])).
Proof.
  intros Hlocal Hne Hacc Hscan names.
  split; [|split; [apply split_by_cart_filter|]].
  - unfold eval, cmd_compare. run_prints.
    run_quiet quiet_list_local_roms. rewrite Hlocal.
    rewrite bool_decide_eq_false_2 by done.
    unfold exec at 1. rewrite list_local_roms_run. cbn [snd].
    run_quiet quiet_is_sd_card_accessible. rewrite Hacc. cbn [negb].
    run_prints. rewrite ?set_stdout_twice.
    run_quiet (quiet_get_all_sd_roms None). rewrite Hscan.
    fold names. run_prints. rewrite split_by_cart_filter.
    set (missing := List.filter (λ rom, negb _) local_roms).
    set (on_cart := List.filter _ local_roms).
    run_prints.
    case_bool_decide as Hmissing.
    + run_prints. by rewrite Hmissing.
    + do 2 run_prints. done.
  - intros a b Ha Hb. rewrite split_by_cart_filter.
    assert (on_cart_in {[ txt "a" ]} a = true) as Hon_a.
    { unfold on_cart_in. rewrite Ha. by vm_compute. }
    assert (on_cart_in {[ txt "a" ]} b = false) as Hon_b.
    { unfold on_cart_in. rewrite Hb. by vm_compute. }
    cbn [List.filter]. by rewrite Hon_a, Hon_b.
Qed.

Lemma cmd_compare_partitions_witness :
  ∃ local_roms sd_roms,
    eval list_local_roms cart_world = Ok local_roms
    ∧ local_roms ≠ []
    ∧ eval is_sd_card_accessible cart_world = Ok true
    ∧ eval (get_all_sd_roms None) (exec is_sd_card_accessible cart_world)
      = Ok sd_roms
    ∧ map e_name sd_roms = [txt "a.Z64"]
    ∧ map p_name local_roms = [txt "A.z64"; txt "B.n64"]
    ∧ eval cmd_compare cart_world
      = Ok (List.filter
              (λ rom,
                 negb (on_cart_in
                         (list_to_set
                            (map (λ r, normalize_rom_name (e_name r)) sd_roms))
                         rom))
              local_roms).
Proof.
  eexists _, _. split; [vm_compute; reflexivity|]. split; [discriminate|].
  split; [vm_compute; reflexivity|]. split; [vm_compute; reflexivity|].
  split; [reflexivity|]. split; [reflexivity|].
  apply cmd_compare_partitions;
    [vm_compute; reflexivity | discriminate | vm_compute; reflexivity
    | vm_compute; reflexivity].
Defined.

(** *** Every run of the deployer is logged *)

Lemma run_sc64_command_run (args : list str) (w : world) :
  run_sc64_command args w
  = (run_value w (deployer w (length (calls w)) args),
     set_calls (calls w ++ [(args, deployer w (length (calls w)) args)]) w).
Proof.
  unfold run_sc64_command, try, subprocess_run.
  by destruct (deployer w (length (calls w)) args) as [code out err|[]].
Qed.

Lemma run_value_returned (w : world) (r : run_result) (code : Z) :
  returned_code r = Some code →
  ∃ out err, run_value w r = Ok (code, out, err).
Proof.
  destruct r as [c out err|[]]; simpl; intros [= <-]; by eexists _, _.
Qed.

Lemma run_value_raised (w : world) (r : run_result) :
  returned_code r = None → ∃ e, run_value w r = Raise e.
Proof. destruct r as [c out err|[]]; simpl; intros [=]; by eexists. Qed.

(** *** The upload batches *)

Lemma index_in_range {A} (l : list A) (i : Z) :
  0 ≤ i < Z.of_nat (length l) →
  ∃ x, l !! Z.to_nat i = Some x ∧ index l i = ret x.
Proof.
  intros Hi. unfold index.
  destruct (l !! Z.to_nat i) as [x|] eqn:E.
  - exists x. split; [done|].
    replace (i <? 0) with false by lia.
    replace (i <? 0) with false by lia.
    replace (Z.of_nat (length l) <=? i) with false by lia.
    simpl. by rewrite E.
  - apply lookup_ge_None in E. lia.
Qed.

Lemma upload_rom_to_sd_run (rom : Path) (sd_path : str) (w : world) (code : Z) :
  returned_code (deployer w (length (calls w)) (upload_args rom sd_path))
  = Some code →
  ∃ out,
    upload_rom_to_sd rom sd_path w
    = (Ok (code =? 0),
       set_stdout (stdout w ++ out)
         (set_calls
            (calls w ++ [(upload_args rom sd_path,
                          deployer w (length (calls w))
                            (upload_args rom sd_path))]) w)).
Proof.
  intros Hcode. unfold upload_rom_to_sd. do 2 run_prints.
  rewrite ?set_stdout_twice.
  run_quiet (quiet_run_sc64_command
               [txt "sd"; txt "upload"; p_str rom;
                rstrip_char "/"%char sd_path ++ txt "/" ++ p_name rom]).
  unfold eval, exec. rewrite run_sc64_command_run. cbn [fst snd].
  fold (upload_args rom sd_path).
  destruct (run_value_returned w _ _ Hcode) as (out1 & err & ->).
  destruct (code =? 0); run_prints; eexists; unfold ret; f_equal;
    rewrite ?set_stdout_twice; cbn [stdout set_stdout set_calls];
    rewrite <- !app_assoc; reflexivity.
Qed.

Lemma always_returns_code (w : world) (n : nat) (args : list str) :
  always_returns w → ∃ code, returned_code (deployer w n args) = Some code.
Proof.
  intros H. specialize (H n args).
  destruct (returned_code _) as [code|]; [by exists code | done].
Qed.

(** The loop of [cmd_upload]: one upload for each choice, whatever the
    outcome of the earlier ones, and a count of those that succeeded. *)
Lemma upload_loop_run (roms : list Path) (sd_path : str) (choices : list Z) :
  ∀ (w : world) (success_count : Z),
    Forall (λ idx, 1 ≤ idx ≤ Z.of_nat (length roms)) choices →
    always_returns w →
    ∃ new out,
      for_fold choices
        (λ success_count idx,
           do rom <- index roms (idx - 1);
           do ok <- upload_rom_to_sd rom sd_path;
           ret (if ok then success_count + 1 else success_count))
        success_count w
      = (Ok (success_count + Z.of_nat (length (List.filter succeeded new))),
         set_stdout (stdout w ++ out) (set_calls (calls w ++ new) w))
      ∧ one_upload_each roms sd_path choices new.
Proof.
  induction choices as [|idx choices IH]; intros w success_count Hrange Hret.
  - exists [], []. split; [|constructor]. simpl. unfold ret.
    rewrite Z.add_0_r, !app_nil_r. by destruct w.
  - apply Forall_cons in Hrange as [Hidx Hrange]. cbn [for_fold].
    destruct (index_in_range roms (idx - 1)) as (rom & Hrom & ->); [lia|].
    destruct (always_returns_code w (length (calls w))
                (upload_args rom sd_path) Hret) as [code Hcode].
    destruct (upload_rom_to_sd_run rom sd_path w code Hcode) as [out1 Hup].
    set (c := (upload_args rom sd_path,
               deployer w (length (calls w)) (upload_args rom sd_path))) in *.
    destruct (IH (set_stdout (stdout w ++ out1) (set_calls (calls w ++ [c]) w))
                (if code =? 0 then success_count + 1 else success_count)
                Hrange Hret) as (new & out2 & Hloop & Hnew).
    exists (c :: new), (out1 ++ out2). split.
    + unfold bind, ret in Hloop |- *. rewrite Hup, Hloop. f_equal.
      * f_equal. cbn [List.filter]. unfold succeeded at 2. cbn [snd c].
        subst c. cbn [snd]. rewrite Hcode.
        destruct (Z.eqb_spec code 0) as [->|Hne].
        -- rewrite bool_decide_eq_true_2 by done. cbn [length]. lia.
        -- rewrite bool_decide_eq_false_2 by (intros [=]; done). lia.
      * cbn [stdout set_stdout set_calls calls].
        by rewrite <- !app_assoc.
    + constructor; [|done]. by exists rom.
Qed.

Lemma quick_upload_loop_run (roms : list Path) (choices : list Z) :
  ∀ (w : world),
    Forall (λ idx, 1 ≤ idx ≤ Z.of_nat (length roms)) choices →
    always_returns w →
    ∃ new out,
      for_each choices
        (λ idx,
           do rom <- index roms (idx - 1);
           upload_rom_to_sd rom (txt "/") ;;
           ret tt) w
      = (Ok tt, set_stdout (stdout w ++ out) (set_calls (calls w ++ new) w))
      ∧ one_upload_each roms (txt "/") choices new.
Proof.
  induction choices as [|idx choices IH]; intros w Hrange Hret.
  - exists [], []. split; [|constructor]. simpl. unfold ret.
    rewrite !app_nil_r. by destruct w.
  - apply Forall_cons in Hrange as [Hidx Hrange]. cbn [for_each].
    destruct (index_in_range roms (idx - 1)) as (rom & Hrom & ->); [lia|].
    destruct (always_returns_code w (length (calls w))
                (upload_args rom (txt "/")) Hret) as [code Hcode].
    destruct (upload_rom_to_sd_run rom (txt "/") w code Hcode) as [out1 Hup].
    set (c := (upload_args rom (txt "/"),
               deployer w (length (calls w)) (upload_args rom (txt "/")))) in *.
    destruct (IH (set_stdout (stdout w ++ out1) (set_calls (calls w ++ [c]) w))
                Hrange Hret) as (new & out2 & Hloop & Hnew).
    exists (c :: new), (out1 ++ out2). split.
    + unfold bind, ret in Hloop |- *. rewrite Hup, Hloop. f_equal.
      cbn [stdout set_stdout set_calls calls]. by rewrite <- !app_assoc.
    + constructor; [|done]. by exists rom.
Qed.

(** X25.  In the upload loops of [cmd_upload] and of [cmd_quick_upload],
    as long as the deployer can be run, every selected ROM is uploaded in
    turn, whether or not the uploads before it succeeded; and the loop of
    [cmd_upload] ends by printing the number of uploads that succeeded out
    of the number selected. *)
Theorem upload_batches_continue
    (w : world) (roms : list Path) (sd_path : str) (choices : list Z) :
  Forall (λ idx, 1 ≤ idx ≤ Z.of_nat (length roms)) choices →
  always_returns w →
  (∃ new,
     eval (upload_selected roms sd_path choices) w = Ok tt
     ∧ calls (exec (upload_selected roms sd_path choices) w) = calls w ++ new
     ∧ one_upload_each roms sd_path choices new
     ∧ last (stdout (exec (upload_selected roms sd_path choices) w))
       = Some (Print (upload_summary
                        (Z.of_nat (length (List.filter succeeded new)))
                        (Z.of_nat (length choices)))))
  ∧ (∃ new,
       eval (quick_upload_selected roms choices) w = Ok tt
       ∧ calls (exec (quick_upload_selected roms choices) w) = calls w ++ new
       ∧ one_upload_each roms (txt "/") choices new).
Proof.
  intros Hrange Hret. split.
  - unfold upload_selected, eval, exec. run_prints.
    destruct (upload_loop_run roms sd_path choices
                (set_stdout (stdout w ++ out) w) 0 Hrange Hret)
      as (new & out' & Hloop & Hnew).
    exists new. rewrite (bind_ok _ _ _ _ _ Hloop). cbn [fst snd print].
    repeat split; [done|].
    cbn [stdout set_stdout set_calls]. by rewrite last_snoc.
  - unfold quick_upload_selected, eval, exec. run_prints.
    destruct (quick_upload_loop_run roms choices
                (set_stdout (stdout w ++ out) w) Hrange Hret)
      as (new & out' & Hloop & Hnew).
    exists new. rewrite Hloop. by cbn.
Qed.

Lemma full_card_world_returns : always_returns full_card_world.
Proof.
  intros n args. cbn. repeat case_bool_decide; discriminate.
Qed.

Lemma upload_batches_continue_witness :
  Forall (λ idx, 1 ≤ idx ≤ Z.of_nat (length two_roms)) [1; 2]
  ∧ always_returns full_card_world
  ∧ map fst (calls (exec (upload_selected two_roms (txt "/roms/") [1; 2])
                      full_card_world))
    = [upload_args (mkPath (txt "/opt/sb/roms/A.z64") (txt "A.z64") true 1048576)
         (txt "/roms/");
       upload_args (mkPath (txt "/opt/sb/roms/B.n64") (txt "B.n64") true 2097152)
         (txt "/roms/")]
  ∧ last (stdout (exec (upload_selected two_roms (txt "/roms/") [1; 2])
                    full_card_world))
    = Some (Print (upload_summary 0 2)).
Proof.
  assert (Forall (λ idx, 1 ≤ idx ≤ Z.of_nat (length two_roms)) [1; 2]) as Hrange.
  { repeat constructor; cbn; lia. }
  split; [exact Hrange|]. split; [exact full_card_world_returns|].
  destruct (upload_batches_continue full_card_world two_roms (txt "/roms/")
              [1; 2] Hrange full_card_world_returns)
    as [(new & _ & Hcalls & _ & Hlast) _].
  rewrite Hlast, Hcalls. clear Hlast.
  assert (new = [(upload_args (mkPath (txt "/opt/sb/roms/A.z64") (txt "A.z64")
                                 true 1048576) (txt "/roms/"),
                  Completed 1 [] (txt "card is full"));
                 (upload_args (mkPath (txt "/opt/sb/roms/B.n64") (txt "B.n64")
                                 true 2097152) (txt "/roms/"),
                  Completed 1 [] (txt "card is full"))]) as ->.
  { vm_compute in Hcalls. symmetry. exact Hcalls. }
  split; reflexivity.
Defined.

(** C8.  [cmd_quick_upload] does not do what the claim says: in
    [full_card_world] it tries both selected ROMs, the second after the
    first has failed, and returns without printing a summary.
    [cmd_upload], on the same card and with the same selection, tries both
    and ends with the summary. *)
Theorem cmd_quick_upload_prints_no_summary :
  eval cmd_quick_upload full_card_world = Ok tt
  ∧ map fst (calls (exec cmd_quick_upload full_card_world))
    = [[txt "list"]; [txt "sd"; txt "ls"];
       [txt "sd"; txt "upload"; txt "/opt/sb/roms/A.z64"; txt "/A.z64"];
       [txt "sd"; txt "upload"; txt "/opt/sb/roms/B.n64"; txt "/B.n64"]]
  ∧ last (stdout (exec cmd_quick_upload full_card_world))
    = Some (Print (txt "  Upload failed: card is full"))
  ∧ ¬ (∃ success_count total,
         Print (upload_summary success_count total)
         ∈ stdout (exec cmd_quick_upload full_card_world))
  ∧ drop 5 (map fst (calls (exec cmd_upload full_card_upload_world)))
    = [[txt "sd"; txt "upload"; txt "/opt/sb/roms/A.z64"; txt "/A.z64"];
       [txt "sd"; txt "upload"; txt "/opt/sb/roms/B.n64"; txt "/B.n64"]]
  ∧ last (stdout (exec cmd_upload full_card_upload_world))
    = Some (Print (upload_summary 0 2)).
Proof.
  split; [by vm_compute|]. split; [by vm_compute|]. split; [by vm_compute|].
  split; [|split; by vm_compute].
  intros (success_count & total & Hin).
  assert (∀ o, o ∈ stdout (exec cmd_quick_upload full_card_world) →
               ∀ s, o = Print (nl :: "D"%char :: s) → False) as Hnone.
  { apply (proj1 (Forall_forall
                    (λ o, ∀ s, o = Print (nl :: "D"%char :: s) → False) _)).
    vm_compute.
    repeat (constructor; [intros s [=]|]). constructor. }
  eapply Hnone; [exact Hin|]. unfold upload_summary. simpl. reflexivity.
Qed.

(** *** Computations that do not run the deployer *)

Lemma bind_eta {A B} (m : M A) (k : A → M B) (w : world) :
  bind m k w =
    match eval m w with
    | Ok a => k a (exec m w)
    | Raise e => (Raise e, exec m w)
    end.
Proof. unfold bind, eval, exec. by destruct (m w) as [[a|e] w']. Qed.

Lemma no_calls_ret {A} (a : A) : no_calls (ret a).
Proof. by intros w. Qed.

Lemma no_calls_raise {A} (e : exn) : no_calls (@raise A e).
Proof. by intros w. Qed.

Lemma no_calls_get_world : no_calls get_world.
Proof. by intros w. Qed.

Lemma no_calls_print (s : str) : no_calls (print s).
Proof. by intros w. Qed.

Lemma no_calls_input (prompt : str) : no_calls (input prompt).
Proof. intros w. unfold exec, input. by destruct (stdin w) as [|[]]. Qed.

Lemma no_calls_bind {A B} (m : M A) (k : A → M B) :
  no_calls m → (∀ a, no_calls (k a)) → no_calls (bind m k).
Proof.
  intros Hm Hk w. unfold exec. rewrite bind_eta.
  destruct (eval m w) as [a|e]; simpl; [|apply Hm].
  rewrite <- (Hm w). apply Hk.
Qed.

Lemma no_calls_try {A} (m : M A) (handler : exn → M A) :
  no_calls m → (∀ e, no_calls (handler e)) → no_calls (try m handler).
Proof.
  intros Hm Hh w. unfold exec, try. specialize (Hm w). unfold exec in Hm.
  destruct (m w) as [[a|e] w']; simpl in *; [done|].
  rewrite <- Hm. apply Hh.
Qed.

Lemma no_calls_index {A} (l : list A) (i : Z) : no_calls (index l i).
Proof.
  intros w. unfold exec, index.
  destruct (_ || _); [done|]. by destruct (l !! _).
Qed.

Lemma no_calls_if {A} (c : bool) (m k : M A) :
  no_calls m → no_calls k → no_calls (if c then m else k).
Proof. by destruct c. Qed.

Lemma no_calls_for_each {A} (l : list A) (body : A → M unit) :
  (∀ x, no_calls (body x)) → no_calls (for_each l body).
Proof.
  intros Hbody. induction l as [|x l IH]; simpl.
  - apply no_calls_ret.
  - by apply no_calls_bind.
Qed.

Lemma no_calls_iterate {S A} (fuel : nat) (body : S → M (loop_step S A)) s :
  (∀ s, no_calls (body s)) → no_calls (iterate fuel body s).
Proof.
  intros Hbody. revert s. induction fuel as [|fuel IH]; intros s; simpl.
  - apply no_calls_raise.
  - apply no_calls_bind; [apply Hbody|].
    intros [s'|a]; [apply IH | apply no_calls_ret].
Qed.

Lemma no_calls_input_loop {S A} (body : S → M (loop_step S A)) s :
  (∀ s, no_calls (body s)) → no_calls (input_loop body s).
Proof. intros Hbody w. unfold input_loop. by apply no_calls_iterate. Qed.

Create HintDb no_calls.
#[global] Hint Resolve no_calls_ret no_calls_raise no_calls_get_world
  no_calls_print no_calls_input no_calls_index no_calls_if
  no_calls_for_each : no_calls.

(** Take a step of a proof of [no_calls]: split it at binds and
    handlers, decide the conditions, and close the leaves. *)
Ltac no_calls_step :=
  first
    [ apply no_calls_bind; [|intros ?]
    | apply no_calls_try; [|intros ?]
    | progress auto with no_calls
    | match goal with
      | |- no_calls (match ?x with _ => _ end) => destruct x
      | |- no_calls (if ?c then _ else _) => destruct c
      end ].

Lemma no_calls_print_rom_lines roms : no_calls (print_rom_lines roms).
Proof. apply no_calls_for_each. intros [i rom]. apply no_calls_print. Qed.

Lemma no_calls_print_header text : no_calls (print_header text).
Proof. unfold print_header. repeat no_calls_step. Qed.

#[global] Hint Resolve no_calls_print_rom_lines no_calls_print_header
  : no_calls.

Lemma no_calls_ensure_menu_versions_dir : no_calls ensure_menu_versions_dir.
Proof.
  unfold ensure_menu_versions_dir. repeat no_calls_step.
Qed.

Lemma no_calls_list_local_menu_versions : no_calls list_local_menu_versions.
Proof.
  unfold list_local_menu_versions.
  apply no_calls_bind; [apply no_calls_ensure_menu_versions_dir|].
  intros _. repeat no_calls_step.
Qed.

Lemma no_calls_select_menu_step menu_versions current_page :
  no_calls (select_menu_step menu_versions current_page).
Proof. unfold select_menu_step. repeat no_calls_step. Qed.

(** *** The deployer runs of the menu update *)

(** A probe, the backup and the upload each run the deployer once. *)
Lemma run_sc64_command_log (args : list str) (w : world) :
  ∃ r, calls (exec (run_sc64_command args) w) = calls w ++ [(args, r)]
       ∧ eval (run_sc64_command args) w = run_value w r.
Proof.
  exists (deployer w (length (calls w)) args).
  unfold eval, exec. by rewrite run_sc64_command_run.
Qed.

Lemma check_device_connected_log (w : world) :
  ∃ r, calls (exec check_device_connected w) = calls w ++ [([txt "list"], r)].
Proof.
  destruct (run_sc64_command_log [txt "list"] w) as (r & Hcalls & Hval).
  exists r. unfold check_device_connected, exec. rewrite bind_eta, Hval.
  by destruct (run_value w r) as [[[code out] err]|e].
Qed.

Lemma is_sd_card_accessible_log (w : world) :
  ∃ r, calls (exec is_sd_card_accessible w)
       = calls w ++ [([txt "sd"; txt "ls"], r)].
Proof.
  destruct (run_sc64_command_log [txt "sd"; txt "ls"] w) as (r & Hcalls & Hval).
  exists r. unfold is_sd_card_accessible, exec. rewrite bind_eta, Hval.
  by destruct (run_value w r) as [[[code out] err]|e].
Qed.

Lemma run_value_stdout (v : list out_event) (w : world) (r : run_result) :
  run_value (set_stdout v w) r = run_value w r.
Proof. reflexivity. Qed.

(** The backup step runs one download; it returns whether the exit code
    was 0, and raises when the deployer could not be started. *)
Lemma ensure_menu_versions_dir_returns (w : world) :
  eval ensure_menu_versions_dir w = Ok tt.
Proof.
  unfold eval, ensure_menu_versions_dir, bind, get_world.
  by destruct (menu_versions_dir w).
Qed.

Lemma backup_menu_from_cart_log (w : world) :
  ∃ backup_path r,
    calls (exec backup_menu_from_cart w)
    = calls w ++ [([txt "sd"; txt "download"; SD_MENU_PATH; backup_path], r)]
    ∧ match returned_code r with
      | Some code => eval backup_menu_from_cart w = Ok (code =? 0)
      | None => ∃ e, eval backup_menu_from_cart w = Raise e
      end.
Proof.
  unfold eval, exec.
  destruct (backup_menu_from_cart w) as [res w'] eqn:Hrun.
  cbn [fst snd]. revert Hrun. unfold backup_menu_from_cart.
  rewrite bind_eta, ensure_menu_versions_dir_returns.
  pose proof (no_calls_ensure_menu_versions_dir w) as Hensure.
  set (w1 := exec ensure_menu_versions_dir w) in *.
  unfold bind at 1, get_world at 1. cbv beta iota.
  do 3 run_prints. rewrite ?set_stdout_twice.
  set (args := [txt "sd"; txt "download"; SD_MENU_PATH; _]).
  run_quiet (quiet_run_sc64_command args).
  destruct (run_sc64_command_log args w1) as (r & Hcalls & Hval).
  rewrite Hval. intros Hrun.
  exists (joinpath w1 (MENU_VERSIONS_DIR w1)
            (txt "sc64menu_backup_" ++ timestamp w1 ++ txt ".n64")), r.
  fold args. rewrite <- Hensure, <- Hcalls.
  destruct r as [code sout serr|e]; cbn [returned_code run_value] in *.
  - destruct (code =? 0); revert Hrun; run_prints; by intros [= <- <-].
  - destruct e; revert Hrun; try run_prints; intros [= <- <-];
      (split; [done|]); try done; by eexists.
Qed.

Lemma upload_menu_to_cart_log (local_path : Path) (w : world) :
  ∃ r, calls (exec (upload_menu_to_cart local_path) w)
       = calls w ++ [([txt "sd"; txt "upload"; p_str local_path; SD_MENU_PATH], r)].
Proof.
  unfold upload_menu_to_cart, exec.
  do 3 run_prints. rewrite ?set_stdout_twice.
  set (args := [txt "sd"; txt "upload"; _; _]).
  run_quiet (quiet_run_sc64_command args).
  destruct (run_sc64_command_log args w) as (r & Hcalls & Hval).
  exists r. rewrite Hval, <- Hcalls.
  destruct (run_value w r) as [[[code sout] serr]|e]; [|done].
  destruct (code =? 0); by run_prints.
Qed.

(** Step over the computation at the head of the goal, and keep of the
    world it leaves only what it logged: [step_prints] for one that only
    prints, [step_quietly H x] for one that does not run the deployer
    ([H : no_calls _]) and returns [x], [step_logged H x] for one that runs
    it once ([H] gives the log). *)
Ltac step_prints :=
  match goal with
  | |- context [bind ?m ?k ?w] =>
      let out := fresh "out" in
      let H := fresh "Hrun" in
      let Hc := fresh "Hcalls" in
      let w' := fresh "w" in
      destruct (bind_prints m k w ltac:(auto 10 with prints)) as [out H];
      rewrite H; clear H; cbv beta;
      assert (calls (set_stdout (stdout w ++ out) w) = calls w) as Hc
        by reflexivity;
      set (w' := set_stdout (stdout w ++ out) w) in *; clearbody w'; clear out
  end.

Ltac step_quietly H x :=
  match goal with
  | |- context [bind ?m ?k ?w] =>
      let Hc := fresh "Hcalls" in
      let e := fresh "e" in
      let w' := fresh "w" in
      assert (calls (exec m w) = calls w) as Hc by apply H;
      rewrite (bind_eta m k w);
      set (w' := exec m w) in *;
      destruct (eval m w) as [x|e]; clearbody w'; cbv beta iota
  end.

Ltac step_logged H x :=
  match goal with
  | |- context [bind ?m ?k ?w] =>
      let r := fresh "r" in
      let Hc := fresh "Hcalls" in
      let e := fresh "e" in
      let w' := fresh "w" in
      destruct (H w) as [r Hc];
      rewrite (bind_eta m k w);
      set (w' := exec m w) in *;
      destruct (eval m w) as [x|e]; clearbody w'; cbv beta iota
  end.

(** Close a branch in which the command has ended: collect what was
    logged along the way. *)
Ltac end_run :=
  let H := fresh "Hrun" in
  let Hres := fresh "Hres" in
  let Hw := fresh "Hw" in
  intros H;
  pose proof (f_equal fst H) as Hres; pose proof (f_equal snd H) as Hw;
  cbn [fst snd] in Hres, Hw; clear H;
  rewrite <- ?Hres, <- ?Hw; clear Hres Hw.

Ltac collect_log :=
  unfold print, ret; end_run;
  repeat first
    [ rewrite calls_set_stdout
    | match goal with H : calls _ = _ |- _ => rewrite H end ];
  rewrite <- ?app_assoc; eexists; split; [reflexivity|].

Lemma cmd_update_menu_log (w : world) :
  ∃ new, calls (exec cmd_update_menu w) = calls w ++ new
         ∧ update_menu_log (eval cmd_update_menu w) new.
Proof.
  unfold eval, exec.
  destruct (cmd_update_menu w) as [res w'] eqn:Hrun.
  cbn [fst snd]. revert Hrun. unfold cmd_update_menu, update_menu_log.
  step_prints.
  step_logged check_device_connected_log connected; [|collect_log; eauto].
  destruct connected; cbn [negb]; [|collect_log; eauto].
  step_logged is_sd_card_accessible_log accessible; [|collect_log; eauto 6].
  destruct accessible; cbn [negb]; [|step_prints; collect_log; eauto 6].
  step_quietly no_calls_list_local_menu_versions menu_versions;
    [|collect_log; eauto 6].
  case_bool_decide; [unfold bind at 1, get_world at 1; cbv beta iota;
                     step_prints; collect_log; eauto 6|].
  step_quietly (no_calls_input_loop (select_menu_step menu_versions) 0
                  (no_calls_select_menu_step menu_versions)) selection;
    [|collect_log; eauto 6].
  destruct selection as [selected_menu|]; [|collect_log; eauto 6].
  do 4 step_prints.
  step_quietly (no_calls_input (nl :: txt "Proceed? (y/n): ")) line;
    [|collect_log; eauto 6].
  case_bool_decide; cbn [negb]; [|collect_log; eauto 6].
  step_prints.
  match goal with
  | |- context [bind backup_menu_from_cart ?k ?w] =>
      destruct (backup_menu_from_cart_log w) as (backup_path & r3 & Hc3 & Hv3);
      rewrite (bind_eta backup_menu_from_cart k w);
      set (w_backup := exec backup_menu_from_cart w) in *
  end.
  destruct (returned_code r3) as [code|] eqn:Hcode.
  2:{ destruct Hv3 as [e ->]. clearbody w_backup. collect_log.
      right. right. left. eexists _, _, _, _.
      split; [reflexivity|]. rewrite Hcode. split; [done|]. done. }
  rewrite Hv3. clearbody w_backup. cbv beta iota.
  destruct (Z.eqb_spec code 0) as [->|Hne]; cbn [negb].
  - step_prints.
    step_logged (upload_menu_to_cart_log selected_menu) uploaded.
    + destruct uploaded; collect_log; do 3 right;
        eexists _, _, _, _, _, _; (split; [reflexivity | exact Hcode]).
    + collect_log. do 3 right. eexists _, _, _, _, _, _.
      split; [reflexivity | exact Hcode].
  - collect_log. right. right. left. eexists _, _, _, _.
    split; [reflexivity|]. rewrite Hcode.
    split; [intros [= ?]; done | done].
Qed.

Lemma probe_is_no_upload (args : list str) (r : run_result) :
  args = [txt "list"] ∨ args = [txt "sd"; txt "ls"]
  ∨ (∃ p, args = [txt "sd"; txt "download"; SD_MENU_PATH; p]) →
  ¬ is_menu_upload (args, r).
Proof.
  intros [->|[->|[p ->]]] [src Heq]; simpl in Heq; discriminate Heq.
Qed.

(** C1.  In every execution of [cmd_update_menu], the deployer is run to
    upload a menu only after a run that downloaded the current menu and
    ended with exit code 0; and when the backup download was reported as
    failed, the command returns, never runs an upload, and runs the
    deployer only for the two probes and that download, none of which
    writes to the cart. *)
Theorem cmd_update_menu_backup_gates_upload (w : world) :
  ∃ new,
    calls (exec cmd_update_menu w) = calls w ++ new
    ∧ (∀ pre c post,
         new = pre ++ c :: post → is_menu_upload c →
         ∃ b, b ∈ pre ∧ is_menu_backup b ∧ succeeded b = true)
    ∧ (∀ b, b ∈ new → is_menu_backup b → failed b →
         eval cmd_update_menu w = Ok tt
         ∧ Forall reads_only new
         ∧ ∀ c, c ∈ new → ¬ is_menu_upload c).
Proof.
  destruct (cmd_update_menu_log w) as (new & Hcalls & Hlog).
  exists new. split; [done|].
  destruct Hlog as [(r1 & ->)|[(r1 & r2 & ->)|[(r1 & r2 & p & r3 & -> & Hr3 & Hres)
    |(r1 & r2 & p & r3 & src & r4 & -> & Hr3)]]].
  - split.
    + intros [|? [|? ?]] c post Heq Hup; simplify_eq/=.
      exfalso. eapply probe_is_no_upload; [|exact Hup]. by left.
    + intros b Hb [dst Hdst] _. exfalso.
      repeat (apply elem_of_cons in Hb as [->|Hb]; [discriminate Hdst|]).
      by apply elem_of_nil in Hb.
  - split.
    + intros [|? [|? [|? ?]]] c post Heq Hup; simplify_eq/=; exfalso;
        (eapply probe_is_no_upload; [|exact Hup]); auto.
    + intros b Hb [dst Hdst] _. exfalso.
      repeat (apply elem_of_cons in Hb as [->|Hb]; [discriminate Hdst|]).
      by apply elem_of_nil in Hb.
  - split.
    + intros [|? [|? [|? [|? ?]]]] c post Heq Hup; simplify_eq/=; exfalso;
        (eapply probe_is_no_upload; [|exact Hup]); eauto.
    + intros b Hb [dst Hdst] (code & Hcode & Hne).
      repeat (apply elem_of_cons in Hb as [->|Hb]; [try discriminate Hdst|]).
      2: by apply elem_of_nil in Hb.
      simpl in Hcode. split; [|split].
      * apply Hres. by rewrite Hcode.
      * apply Forall_cons; split; [by left|].
        apply Forall_cons; split; [by right; left|].
        apply Forall_cons; split; [|by apply Forall_nil].
        right; right. by eexists.
      * intros c Hc.
        repeat (apply elem_of_cons in Hc as [->|Hc];
                [apply probe_is_no_upload; eauto|]).
        by apply elem_of_nil in Hc.
  - split.
    + intros [|? [|? [|? [|? [|? ?]]]]] c post Heq Hup; simplify_eq/=.
      1-3: exfalso; (eapply probe_is_no_upload; [|exact Hup]); eauto.
      eexists. split; [|split].
      * apply elem_of_cons; right. apply elem_of_cons; right.
        apply elem_of_cons; left. reflexivity.
      * by eexists.
      * unfold succeeded. simpl. by apply bool_decide_eq_true_2.
    + intros b Hb [dst Hdst] (code & Hcode & Hne). exfalso.
      repeat (apply elem_of_cons in Hb as [->|Hb]; [try discriminate Hdst|]).
      2: by apply elem_of_nil in Hb.
      simpl in Hcode. rewrite Hr3 in Hcode. by injection Hcode as <-.
Qed.

Lemma cmd_update_menu_backup_gates_upload_witness :
  map fst (calls (exec cmd_update_menu failing_backup_world))
  = [[txt "list"]; [txt "sd"; txt "ls"];
     [txt "sd"; txt "download"; SD_MENU_PATH;
      txt "/opt/sb/menu_versions/sc64menu_backup_20250101_120000.n64"]]
  ∧ eval cmd_update_menu failing_backup_world = Ok tt
  ∧ ∀ c, c ∈ calls (exec cmd_update_menu failing_backup_world) →
         ¬ is_menu_upload c.
Proof.
  split; [vm_compute; reflexivity|].
  destruct (cmd_update_menu_backup_gates_upload failing_backup_world)
    as (new & Hcalls & _ & Hfailed).
  rewrite Hcalls. change (calls failing_backup_world ++ new) with new.
  assert (([txt "sd"; txt "download"; SD_MENU_PATH;
            txt "/opt/sb/menu_versions/sc64menu_backup_20250101_120000.n64"],
           Completed 1 [] (txt "read error")) ∈ new) as Hin.
  { change new with (calls failing_backup_world ++ new). rewrite <- Hcalls.
    vm_compute. do 2 (apply elem_of_cons; right). apply elem_of_cons. by left. }
  destruct (Hfailed _ Hin) as (Hres & _ & Hnone).
  - by eexists.
  - exists 1. split; [reflexivity | discriminate].
  - split; [exact Hres | exact Hnone].
Defined.

(** *** The prompts *)

Lemma set_stdout_same (w : world) : set_stdout (stdout w) w = w.
Proof. by destruct w. Qed.

Lemma input_line (prompt line : str) (rest : list stdin_event) (w : world) :
  stdin w = Line line :: rest →
  input prompt w
  = (Ok line, set_stdin rest (set_stdout (stdout w ++ [Prompt prompt]) w)).
Proof. intros H. unfold input. by rewrite H. Qed.

(** A loop whose first iteration returns. *)
Lemma input_loop_return {S A} (body : S → M (loop_step S A)) s w a w' :
  body s w = (Ok (Return a), w') → input_loop body s w = (Ok a, w').
Proof.
  intros H. unfold input_loop. cbn [iterate]. by rewrite (bind_ok _ _ _ _ _ H).
Qed.

Lemma try_ok {A} (m : M A) (handler : exn → M A) w a w' :
  m w = (Ok a, w') → try m handler w = (Ok a, w').
Proof. intros H. unfold try. by rewrite H. Qed.

(** The loop over the tokens keeps the choices in range and reports the
    others. *)
Lemma collect_choices_run (max_val : Z) (parts : list str) (vals : list Z) :
  mapM (λ part, py_int (strip part)) parts = Some vals →
  ∀ (choices : list Z) (w : world),
    for_fold parts
      (λ choices part,
         match py_int (strip part) with
         | None => raise ValueError
         | Some val =>
             if (1 <=? val) && (val <=? max_val) then ret (choices ++ [val])
             else print (txt "Skipping invalid choice: " ++ repr val) ;;
                  ret choices
         end)
      choices w
    = (Ok (choices ++ List.filter (in_range max_val) vals),
       set_stdout
         (stdout w
          ++ map skip_notice
               (List.filter (λ v, negb (in_range max_val v)) vals)) w).
Proof.
  revert vals. induction parts as [|part parts IH]; intros vals Hvals choices w.
  - injection Hvals as <-. cbn [for_fold List.filter map]. unfold ret.
    by rewrite !app_nil_r, set_stdout_same.
  - simpl in Hvals. destruct (py_int (strip part)) as [val|] eqn:Hval;
      [|discriminate Hvals].
    simpl in Hvals.
    destruct (mapM _ parts) as [vals'|] eqn:Hrest; [|discriminate Hvals].
    injection Hvals as <-. cbn [for_fold]. rewrite Hval.
    specialize (IH vals' eq_refl). cbn [List.filter].
    change ((1 <=? val) && (val <=? max_val)) with (in_range max_val val).
    destruct (in_range max_val val); cbn [negb].
    + unfold bind at 1, ret at 1. rewrite IH. by rewrite <- app_assoc.
    + unfold bind at 1. unfold bind at 1, print at 1, ret at 1.
      rewrite IH. cbn [map stdout set_stdout]. f_equal.
      rewrite set_stdout_twice. by rewrite <- app_assoc.
Qed.

Lemma get_multi_choice_run (max_val : Z) (prompt line : str)
    (rest : list stdin_event) (w : world) :
  stdin w = Line line :: rest →
  let w1 := set_stdin rest (set_stdout (stdout w ++ [multi_choice_prompt prompt]) w) in
  get_multi_choice max_val prompt w
  = if bool_decide (lower (strip line) = txt "0") then (Ok [], w1)
    else if bool_decide (lower (strip line) = txt "all")
    then (Ok (seqZ 1 max_val), w1)
    else
      match parse_choices (lower (strip line)) with
      | Some vals =>
          (Ok (sorted_set (List.filter (in_range max_val) vals)),
           set_stdout
             (stdout w1
              ++ map skip_notice
                   (List.filter (λ v, negb (in_range max_val v)) vals)) w1)
      | None => get_multi_choice max_val prompt w
      end.
Proof.
  intros Hin w1.
  assert (input (prompt ++ txt " (e.g. 1,3,5 or 'all', or 0 to cancel): ") w
          = (Ok line, w1)) as Hline by by apply input_line.
  case_bool_decide as Hzero; [|case_bool_decide as Hall].
  - unfold get_multi_choice, get_multi_choice_step.
    apply input_loop_return, try_ok. rewrite (bind_ok _ _ _ _ _ Hline).
    cbv zeta.
    by rewrite bool_decide_eq_true_2.
  - unfold get_multi_choice, get_multi_choice_step.
    apply input_loop_return, try_ok. rewrite (bind_ok _ _ _ _ _ Hline).
    cbv zeta.
    by rewrite bool_decide_eq_false_2, bool_decide_eq_true_2.
  - destruct (parse_choices _) as [vals|] eqn:Hparse; [|done].
    unfold get_multi_choice, get_multi_choice_step.
    apply input_loop_return, try_ok. rewrite (bind_ok _ _ _ _ _ Hline).
    cbv zeta.
    rewrite !bool_decide_eq_false_2 by done.
    unfold collect_choices.
    by rewrite (bind_ok _ _ _ _ _
                  (collect_choices_run max_val _ vals Hparse [] w1)).
Qed.

(** [sorted(set(choices))] lists each choice once, in increasing order. *)
Lemma elem_of_sorted_set (choices : list Z) (v : Z) :
  v ∈ sorted_set choices ↔ v ∈ choices.
Proof.
  unfold sorted_set. rewrite merge_sort_Permutation, elem_of_elements.
  apply elem_of_list_to_set.
Qed.

Lemma StronglySorted_le_lt (l : list Z) :
  StronglySorted Z.le l → NoDup l → StronglySorted Z.lt l.
Proof.
  induction 1 as [|x l Hsorted IH Hall]; intros Hnodup; constructor.
  - apply IH. by apply NoDup_cons in Hnodup as [_ ?].
  - apply NoDup_cons in Hnodup as [Hx _].
    apply Forall_forall. intros y Hy.
    assert (x ≤ y) by (eapply Forall_forall in Hall; eauto).
    assert (x ≠ y) by (intros ->; done). lia.
Qed.

Lemma sorted_set_increasing (choices : list Z) :
  StronglySorted Z.lt (sorted_set choices).
Proof.
  apply StronglySorted_le_lt.
  - apply (StronglySorted_merge_sort Z.le).
  - unfold sorted_set. rewrite merge_sort_Permutation. apply NoDup_elements.
Qed.

Lemma in_range_spec (max_val v : Z) :
  in_range max_val v = true ↔ 1 ≤ v ≤ max_val.
Proof. unfold in_range. rewrite andb_true_iff. lia. Qed.

(** C6.  For the line the user types at the prompt of [get_multi_choice],
    trimmed and lowercased: ["0"] gives the empty selection, ["all"] gives
    [1..max_val], and a comma-separated list of integers gives those of
    them that lie in [1, max_val], in increasing order and without
    repetition, after a notice for each one that does not.  So ["1,3,5"]
    with [max_val = 5] gives [1; 3; 5], and ["all"] with [max_val = 3]
    gives [1; 2; 3]. *)
Theorem get_multi_choice_spec (w : world) (max_val : Z) (prompt line : str)
    (rest : list stdin_event) :
  stdin w = Line line :: rest →
  let raw := lower (strip line) in
  (raw = txt "0" → eval (get_multi_choice max_val prompt) w = Ok [])
  ∧ (raw = txt "all" →
     eval (get_multi_choice max_val prompt) w = Ok (seqZ 1 max_val))
  ∧ (∀ vals,
       raw ≠ txt "0" → raw ≠ txt "all" → parse_choices raw = Some vals →
       ∃ selection,
         eval (get_multi_choice max_val prompt) w = Ok selection
         ∧ StronglySorted Z.lt selection
         ∧ (∀ v, v ∈ selection ↔ v ∈ vals ∧ 1 ≤ v ≤ max_val)
         ∧ stdout (exec (get_multi_choice max_val prompt) w)
           = stdout w ++ multi_choice_prompt prompt
               :: map skip_notice
                    (List.filter (λ v, negb (in_range max_val v)) vals)
         ∧ stdin (exec (get_multi_choice max_val prompt) w) = rest)
  ∧ (line = txt "1,3,5" → max_val = 5 →
     eval (get_multi_choice max_val prompt) w = Ok [1; 3; 5])
  ∧ (line = txt "all" → max_val = 3 →
     eval (get_multi_choice max_val prompt) w = Ok [1; 2; 3]).
Proof.
  intros Hin raw. unfold eval, exec.
  rewrite (get_multi_choice_run max_val prompt line rest w Hin). fold raw.
  split; [|split; [|split; [|split]]].
  - intros Hraw. by rewrite bool_decide_eq_true_2.
  - intros Hraw. rewrite bool_decide_eq_false_2 by (by rewrite Hraw).
    by rewrite bool_decide_eq_true_2.
  - intros vals Hzero Hall Hparse.
    rewrite !bool_decide_eq_false_2 by done. rewrite Hparse.
    eexists. split; [reflexivity|]. split; [apply sorted_set_increasing|].
    split; [|split; [|reflexivity]].
    + intros v. rewrite elem_of_sorted_set, list_elem_of_In, filter_In.
      by rewrite <- list_elem_of_In, in_range_spec.
    + cbn [snd stdout set_stdout set_stdin]. by rewrite <- app_assoc.
  - intros -> ->. by vm_compute.
  - intros -> ->. by vm_compute.
Qed.

Lemma get_multi_choice_spec_witness :
  stdin prompt_world = [Line (txt "1,3,5")]
  ∧ eval (get_multi_choice 5 (txt "Select ROMs")) prompt_world = Ok [1; 3; 5].
Proof.
  split; [reflexivity|].
  destruct (get_multi_choice_spec prompt_world 5 (txt "Select ROMs")
              (txt "1,3,5") [] eq_refl) as (_ & _ & _ & Hexample & _).
  apply Hexample; reflexivity.
Defined.

(** *** Sorting by key *)

Lemma str_le_total (a b : str) : str_le a b = false → str_le b a = true.
Proof.
  revert b. induction a as [|x a IH]; intros [|y b]; simpl; try done.
  destruct (N.ltb_spec (ord x) (ord y)); [done|].
  destruct (N.ltb_spec (ord y) (ord x)); [done|]. apply IH.
Qed.

Lemma str_le_trans (a b c : str) :
  str_le a b = true → str_le b c = true → str_le a c = true.
Proof.
  revert b c. induction a as [|x a IH]; intros [|y b] [|z c]; simpl; try done.
  destruct (N.ltb_spec (ord x) (ord y)), (N.ltb_spec (ord y) (ord x)),
    (N.ltb_spec (ord y) (ord z)), (N.ltb_spec (ord z) (ord y)),
    (N.ltb_spec (ord x) (ord z)), (N.ltb_spec (ord z) (ord x));
    try done; try lia.
  apply IH.
Qed.

Section sorted.
Context {A : Type} (key : A → str).

Let le (a b : A) : Prop := str_le (key a) (key b) = true.

Lemma insert_sorted_perm (x : A) (l : list A) :
  insert_sorted key x l ≡ₚ x :: l.
Proof.
  induction l as [|y l IH]; simpl; [done|].
  destruct (str_le (key x) (key y)); [done|].
  by rewrite IH, Permutation_swap.
Qed.

Lemma sorted_perm (l : list A) : sorted key l ≡ₚ l.
Proof.
  induction l as [|x l IH]; simpl; [done|].
  by rewrite insert_sorted_perm, IH.
Qed.

Lemma insert_sorted_ordered (x : A) (l : list A) :
  StronglySorted le l → StronglySorted le (insert_sorted key x l).
Proof.
  induction 1 as [|y l Hsorted IH Hall]; simpl.
  - repeat constructor.
  - destruct (str_le (key x) (key y)) eqn:Hxy.
    + constructor; [by constructor|]. constructor; [done|].
      eapply Forall_impl; [exact Hall|]. intros z Hz.
      by eapply str_le_trans.
    + constructor; [done|].
      rewrite insert_sorted_perm. constructor; [|done].
      by apply str_le_total.
Qed.

Lemma sorted_ordered (l : list A) : StronglySorted le (sorted key l).
Proof.
  induction l as [|x l IH]; simpl; [constructor|].
  by apply insert_sorted_ordered.
Qed.
End sorted.

(** *** The walk of the local directory *)

Lemma elem_of_iterdir (sp parent : str) (children : list fs_node) (p : Path) :
  p ∈ iterdir sp parent children
  ↔ (∃ name st_size,
       FsFile name st_size ∈ children
       ∧ p = mkPath (parent ++ sp ++ name) name true st_size)
    ∨ (∃ name sub,
         FsDir name sub ∈ children
         ∧ p = mkPath (parent ++ sp ++ name) name false 0).
Proof.
  unfold iterdir. rewrite list_elem_of_fmap. split.
  - intros ([name st_size|name sub] & -> & Hin); [left|right]; by eexists _, _.
  - intros [(name & st_size & Hin & ->)|(name & sub & Hin & ->)].
    + by exists (FsFile name st_size).
    + by exists (FsDir name sub).
Qed.

Lemma rglob_step (sp : str) (children : list fs_node) :
  Forall (λ n, ∀ parent p,
            p ∈ rglob_below_node sp parent n ↔
            match n with
            | FsFile _ _ => False
            | FsDir name sub => entry_below sp (parent ++ sp ++ name) sub p
            end) children →
  ∀ parent p,
    p ∈ rglob sp parent children ↔ entry_below sp parent children p.
Proof.
  intros IH parent p. unfold rglob.
  rewrite elem_of_app, elem_of_iterdir, list_elem_of_In, in_flat_map. split.
  - intros [[(name & st_size & Hin & ->)|(name & sub & Hin & ->)]
           |(n & Hn & Hp)].
    + by apply below_file.
    + by eapply below_dir.
    + apply list_elem_of_In in Hn, Hp.
      eapply Forall_forall in IH; [|exact Hn]. apply IH in Hp.
      destruct n as [name st_size|name sub]; [done|].
      by eapply below_nested.
  - intros Hbelow. inversion Hbelow as [? ? name st_size Hin
      |? ? name sub Hin|? ? name sub ? Hin Hnested]; subst.
    + left. left. by exists name, st_size.
    + left. right. by exists name, sub.
    + right. exists (FsDir name sub). split; [by apply list_elem_of_In|].
      apply list_elem_of_In. eapply Forall_forall in IH; [|exact Hin].
      by apply IH.
Qed.

Lemma rglob_below (sp : str) (children : list fs_node) :
  ∀ parent p,
    p ∈ rglob sp parent children ↔ entry_below sp parent children p.
Proof.
  apply rglob_step, Forall_forall. intros n _.
  induction n as [name st_size|name sub IH] using fs_node_nested_ind;
    intros parent p.
  - simpl. by rewrite elem_of_nil.
  - apply (rglob_step sp sub IH).
Qed.

(** *** The local ROM list *)

(** C7.  [list_local_roms] returns nothing when the ROM directory does not
    exist; otherwise it returns, once each, the files found at any depth
    below it whose suffix in lower case is [.z64], [.n64] or [.v64],
    ordered by lowercased file name.  [.txt] and [.sra] are not among the
    suffixes it keeps. *)
Theorem list_local_roms_spec (w : world) :
  (roms_dir w = None → list_local_roms w = (Ok [], w))
  ∧ (∀ children,
       roms_dir w = Some children →
       ∃ roms,
         list_local_roms w = (Ok roms, w)
         ∧ roms ≡ₚ List.filter is_rom_file
                     (rglob (sep w) (LOCAL_ROMS_DIR w) children)
         ∧ (∀ p, p ∈ roms ↔
                 (entry_below (sep w) (LOCAL_ROMS_DIR w) children p
                  ∧ p_is_file p = true
                  ∧ lower (suffix (p_name p)) ∈ ROM_EXTENSIONS))
         ∧ StronglySorted name_le roms)
  ∧ (txt ".txt" ∉ ROM_EXTENSIONS)
  ∧ (txt ".sra" ∉ ROM_EXTENSIONS).
Proof.
  split; [|split; [|split]].
  - intros H. unfold list_local_roms, bind, get_world. by rewrite H.
  - intros children H. eexists. split; [|split; [|split]].
    + unfold list_local_roms, bind, get_world. rewrite H. reflexivity.
    + apply sorted_perm.
    + intros p. rewrite sorted_perm, list_elem_of_In, filter_In.
      rewrite <- list_elem_of_In, rglob_below. unfold is_rom_file.
      rewrite andb_true_iff, bool_decide_eq_true. tauto.
    + apply (sorted_ordered (λ x, lower (p_name x))).
  - rewrite elem_of_ROM_EXTENSIONS. intros [H|[H|H]]; discriminate H.
  - rewrite elem_of_ROM_EXTENSIONS. intros [H|[H|H]]; discriminate H.
Qed.

Lemma list_local_roms_spec_witness :
  ∃ roms,
    list_local_roms shelf_world = (Ok roms, shelf_world)
    ∧ map p_str roms
      = [txt "/opt/sb/roms/more/deep/kirby.v64";
         txt "/opt/sb/roms/more/Mario.n64";
         txt "/opt/sb/roms/zelda.Z64"]
    ∧ StronglySorted name_le roms.
Proof.
  destruct (proj1 (proj2 (list_local_roms_spec shelf_world)) _ eq_refl)
    as (roms & Hrun & _ & _ & Hsorted).
  exists roms. split; [exact Hrun|]. split; [|exact Hsorted].
  vm_compute in Hrun. injection Hrun as <-. reflexivity.
Defined.

(** *** The SD card browser *)

Lemma bind_inv {A B} (m : M A) (k : A → M B) w b w' :
  bind m k w = (Ok b, w') →
  ∃ a w1, m w = (Ok a, w1) ∧ k a w1 = (Ok b, w').
Proof.
  unfold bind. destruct (m w) as [[a|e] w1]; [|done]. by exists a, w1.
Qed.

(** Showing the listing changes neither the current path nor the
    history. *)
Lemma browse_render_keeps (st st' : browse_state) (w w' : world) :
  browse_render st w = (Ok st', w') →
  current_path st' = current_path st ∧ history st' = history st.
Proof.
  unfold browse_render. intros H.
  repeat (apply bind_inv in H as (? & ? & _ & H)).
  unfold ret in H. by injection H as <- _.
Qed.

Lemma rstrip_char_app_same (ch : ascii) (s trailing : str) :
  Forall (λ c, c = ch) trailing →
  rstrip_char ch (s ++ trailing) = rstrip_char ch s.
Proof.
  intros Htrailing. induction s as [|c s IH]; simpl.
  - induction Htrailing as [|c t -> _ IH]; simpl; [done|].
    by rewrite IH, Ascii.eqb_refl.
  - by rewrite IH.
Qed.

Lemma rstrip_char_ends_other (ch : ascii) (s : str) (d : ascii) :
  d ≠ ch → rstrip_char ch (s ++ [d]) = s ++ [d].
Proof.
  intros Hd. induction s as [|c s IH]; simpl.
  - by apply Ascii.eqb_neq in Hd as ->.
  - rewrite IH. by destruct s.
Qed.

Lemma split1_at_first (sep : ascii) (a b : str) :
  sep ∉ a → split1 sep (a ++ sep :: b) = [a; b].
Proof.
  induction a as [|c a IH]; intros Hnot; simpl.
  - by rewrite Ascii.eqb_refl.
  - apply not_elem_of_cons in Hnot as [Hc Ha].
    apply not_eq_sym, Ascii.eqb_neq in Hc. rewrite Hc. by rewrite IH.
Qed.

Lemma rsplit1_at_last (sep : ascii) (a b : str) :
  sep ∉ b → rsplit1 sep (a ++ sep :: b) = [a; b].
Proof.
  intros Hnot. unfold rsplit1.
  rewrite rev_app_distr. simpl. rewrite <- app_assoc. simpl.
  rewrite split1_at_first.
  - simpl. by rewrite !rev_involutive.
  - by rewrite list_elem_of_In, <- in_rev, <- list_elem_of_In.
Qed.

(** The parent of a path: what is before its last component. *)
Lemma parent_of_spec (pre last trailing : str) :
  "/"%char ∉ last → last ≠ [] → Forall (λ c, c = "/"%char) trailing →
  parent_of (pre ++ "/"%char :: last ++ trailing)
  = if bool_decide (pre = []) then txt "/" else pre.
Proof.
  intros Hnot Hlast Htrailing. unfold parent_of.
  replace (pre ++ "/"%char :: last ++ trailing)
    with ((pre ++ "/"%char :: last) ++ trailing)
    by by rewrite <- app_assoc.
  rewrite rstrip_char_app_same by done.
  destruct (exists_last Hlast) as (init & d & ->).
  assert (d ≠ "/"%char) as Hd.
  { intros ->. apply Hnot, elem_of_app. right. by left. }
  replace (pre ++ "/"%char :: init ++ [d])
    with ((pre ++ "/"%char :: init) ++ [d])
    by by rewrite <- app_assoc.
  rewrite rstrip_char_ends_other by done.
  rewrite <- app_assoc. simpl. by rewrite rsplit1_at_last.
Qed.

(** *** The loops end with the input *)

Lemma keeps_input_ret {A} (a : A) : keeps_input (ret a).
Proof. by intros w. Qed.

Lemma keeps_input_raise {A} (e : exn) : keeps_input (@raise A e).
Proof. by intros w. Qed.

Lemma keeps_input_get_world : keeps_input get_world.
Proof. by intros w. Qed.

Lemma keeps_input_print (s : str) : keeps_input (print s).
Proof. by intros w. Qed.

Lemma keeps_input_input (prompt : str) : keeps_input (input prompt).
Proof.
  intros w. unfold exec, input.
  destruct (stdin w) as [|[]] eqn:Hin; simpl; rewrite ?Hin; simpl; lia.
Qed.

Lemma keeps_input_bind {A B} (m : M A) (k : A → M B) :
  keeps_input m → (∀ a, keeps_input (k a)) → keeps_input (bind m k).
Proof.
  intros Hm Hk w. unfold exec. rewrite bind_eta.
  specialize (Hm w). destruct (eval m w) as [a|e]; simpl; [|done].
  specialize (Hk a (exec m w)). unfold exec in *. lia.
Qed.

Lemma keeps_input_try {A} (m : M A) (handler : exn → M A) :
  keeps_input m → (∀ e, keeps_input (handler e)) → keeps_input (try m handler).
Proof.
  intros Hm Hh w. unfold exec, try. specialize (Hm w). unfold exec in Hm.
  destruct (m w) as [[a|e] w']; simpl in *; [done|].
  specialize (Hh e w'). unfold exec in Hh. lia.
Qed.

Lemma keeps_input_if {A} (c : bool) (m k : M A) :
  keeps_input m → keeps_input k → keeps_input (if c then m else k).
Proof. by destruct c. Qed.

Lemma keeps_input_index {A} (l : list A) (i : Z) : keeps_input (index l i).
Proof.
  intros w. unfold exec, index.
  destruct (_ || _); [done|]. by destruct (l !! _).
Qed.

Lemma keeps_input_for_each {A} (l : list A) (body : A → M unit) :
  (∀ x, keeps_input (body x)) → keeps_input (for_each l body).
Proof.
  intros Hbody. induction l as [|x l IH]; simpl.
  - apply keeps_input_ret.
  - by apply keeps_input_bind.
Qed.

Lemma keeps_input_for_fold {A S} (l : list A) (body : S → A → M S) s :
  (∀ s x, keeps_input (body s x)) → keeps_input (for_fold l body s).
Proof.
  intros Hbody. revert s. induction l as [|x l IH]; intros s; simpl.
  - apply keeps_input_ret.
  - apply keeps_input_bind; [apply Hbody | apply IH].
Qed.

Lemma keeps_input_run_sc64_command args : keeps_input (run_sc64_command args).
Proof. intros w. unfold exec. by rewrite run_sc64_command_run. Qed.

Lemma keeps_input_list_sd_card_files path :
  keeps_input (list_sd_card_files path).
Proof.
  rewrite list_sd_card_files_unfold.
  apply keeps_input_bind; [apply keeps_input_run_sc64_command|].
  intros [[code out] err]. destruct (negb _); apply keeps_input_ret.
Qed.

Create HintDb keeps_input.
#[global] Hint Resolve keeps_input_ret keeps_input_raise keeps_input_get_world
  keeps_input_print keeps_input_input keeps_input_index keeps_input_if
  keeps_input_for_each keeps_input_for_fold keeps_input_run_sc64_command
  keeps_input_list_sd_card_files : keeps_input.

(** Take a step of a proof of [keeps_input]. *)
Ltac keeps_input_step :=
  first
    [ apply keeps_input_bind; [|intros ?]
    | apply keeps_input_try; [|intros ?]
    | progress auto with keeps_input
    | match goal with
      | |- keeps_input (match ?x with _ => _ end) => destruct x
      | |- keeps_input (if ?c then _ else _) => destruct c
      end ].

Lemma takes_input_input (prompt : str) : takes_input (input prompt).
Proof.
  intros w. unfold eval, exec, input.
  destruct (stdin w) as [|[]] eqn:Hin; simpl; [by left|right; lia..].
Qed.

Lemma takes_input_bind {A B} (m : M A) (k : A → M B) :
  takes_input m → (∀ a, keeps_input (k a)) → takes_input (bind m k).
Proof.
  intros Hm Hk w. unfold eval, exec. rewrite bind_eta.
  destruct (Hm w) as [Heof|Hless].
  - left. by rewrite Heof.
  - destruct (eval m w) as [a|e]; simpl; [|by right].
    right. specialize (Hk a (exec m w)). unfold exec in *. lia.
Qed.

Lemma takes_input_try {A} (m : M A) (handler : exn → M A) :
  takes_input m → (∀ e, keeps_input (handler e)) →
  handler EOFError = raise EOFError →
  takes_input (try m handler).
Proof.
  intros Hm Hh Heof w. unfold eval, exec, try.
  specialize (Hm w). unfold eval, exec in Hm.
  destruct (m w) as [[a|e] w']; simpl in *.
  - destruct Hm as [[=]|Hless]. by right.
  - destruct Hm as [[= ->]|Hless].
    + left. by rewrite Heof.
    + right. specialize (Hh e w'). unfold exec in Hh. lia.
Qed.

Lemma takes_input_returns {A} (m : M A) : takes_input m → returns_on_input m.
Proof.
  intros Hm w a Hret. destruct (Hm w) as [Heof|Hless]; [|done].
  rewrite Hret in Heof. discriminate Heof.
Qed.

Lemma returns_on_input_bind {A B} (m : M A) (k : A → M B) :
  keeps_input m → (∀ a, returns_on_input (k a)) → returns_on_input (bind m k).
Proof.
  intros Hm Hk w b. unfold eval, exec. rewrite bind_eta.
  specialize (Hm w). destruct (eval m w) as [a|e]; simpl; [|done].
  intros Hret. specialize (Hk a (exec m w) b Hret). unfold exec in *. lia.
Qed.

Lemma returns_on_input_loops {S A} (body : S → M (loop_step S A)) :
  (∀ s, returns_on_input (body s)) → loops_on_input body.
Proof. intros Hbody s w s' Hcont. by apply (Hbody s w (Continue s')). Qed.

Lemma takes_input_loops {S A} (body : S → M (loop_step S A)) :
  (∀ s, takes_input (body s)) → loops_on_input body.
Proof.
  intros Hbody. apply returns_on_input_loops. intros s.
  apply takes_input_returns, Hbody.
Qed.

(** Unrolling a loop on the input further than [input_loop] does changes
    nothing. *)
Lemma iterate_enough {S A} (body : S → M (loop_step S A)) :
  loops_on_input body →
  ∀ (n m : nat) (s : S) (w : world),
    (length (stdin w) < n)%nat → (length (stdin w) < m)%nat →
    iterate n body s w = iterate m body s w.
Proof.
  intros Hbody. induction n as [|n IH]; intros m s w Hn Hm; [lia|].
  destruct m as [|m]; [lia|]. cbn [iterate]. rewrite !bind_eta.
  destruct (eval (body s) w) as [[s'|a]|e] eqn:Hstep; [|done..].
  specialize (Hbody s w s' Hstep). apply IH; lia.
Qed.

Lemma input_loop_unrolled {S A} (body : S → M (loop_step S A)) s w fuel :
  loops_on_input body →
  (length (stdin w) < fuel)%nat →
  iterate fuel body s w = input_loop body s w.
Proof.
  intros Hbody Hfuel. unfold input_loop. apply iterate_enough; [done|lia..].
Qed.

Lemma get_choice_step_loops (max_val : Z) (prompt : str) :
  loops_on_input (get_choice_step max_val prompt).
Proof.
  apply takes_input_loops. intros []. unfold get_choice_step.
  apply takes_input_try; [| |done].
  - apply takes_input_bind; [apply takes_input_input|].
    intros line. cbv zeta. repeat keeps_input_step.
  - intros e. repeat keeps_input_step.
Qed.

Lemma keeps_input_collect_choices max_val parts :
  keeps_input (collect_choices max_val parts).
Proof.
  unfold collect_choices. apply keeps_input_for_fold.
  intros choices part. repeat keeps_input_step.
Qed.

Lemma get_multi_choice_step_loops (max_val : Z) (prompt : str) :
  loops_on_input (get_multi_choice_step max_val prompt).
Proof.
  apply takes_input_loops. intros []. unfold get_multi_choice_step.
  apply takes_input_try; [| |done].
  - apply takes_input_bind; [apply takes_input_input|].
    intros line. cbv zeta.
    do 2 (apply keeps_input_if; [apply keeps_input_ret|]).
    apply keeps_input_bind; [apply keeps_input_collect_choices|].
    intros choices. apply keeps_input_ret.
  - intros e. repeat keeps_input_step.
Qed.

Lemma keeps_input_print_rom_lines roms : keeps_input (print_rom_lines roms).
Proof.
  unfold print_rom_lines. apply keeps_input_for_each.
  intros [i rom]. apply keeps_input_print.
Qed.

Lemma select_menu_step_loops (menu_versions : list Path) :
  loops_on_input (select_menu_step menu_versions).
Proof.
  apply returns_on_input_loops. intros current_page.
  unfold select_menu_step. cbv zeta.
  apply returns_on_input_bind; [apply keeps_input_print|intros _].
  apply returns_on_input_bind; [apply keeps_input_print_rom_lines|intros _].
  apply takes_input_returns, takes_input_bind.
  - apply takes_input_try; [| |done].
    + apply takes_input_bind; [apply takes_input_input|].
      intros line. apply keeps_input_ret.
    + intros e. repeat keeps_input_step.
  - intros user_input. repeat keeps_input_step.
Qed.

Lemma keeps_input_number_entries line_of entries acc :
  keeps_input (number_entries line_of entries acc).
Proof.
  unfold number_entries. apply keeps_input_for_fold.
  intros [idx item_map] f. repeat keeps_input_step.
Qed.

Lemma keeps_input_browse_render (st : browse_state) :
  keeps_input (browse_render st).
Proof.
  unfold browse_render. cbv zeta.
  do 4 (apply keeps_input_bind; [apply keeps_input_print|intros _]).
  apply keeps_input_bind; [apply keeps_input_list_sd_card_files|intros files].
  apply keeps_input_bind.
  - apply keeps_input_if.
    + repeat keeps_input_step.
    + apply keeps_input_bind; [apply keeps_input_number_entries|intros acc].
      apply keeps_input_bind; [apply keeps_input_number_entries|intros acc'].
      apply keeps_input_ret.
  - intros item_map. repeat keeps_input_step.
Qed.

Lemma takes_input_browse_navigate (st : browse_state) :
  takes_input (browse_navigate st).
Proof.
  unfold browse_navigate. cbv zeta. apply takes_input_try; [| |done].
  - apply takes_input_bind; [apply takes_input_input|].
    intros line. repeat keeps_input_step.
  - intros e. repeat keeps_input_step.
Qed.

Lemma browse_step_loops : loops_on_input browse_step.
Proof.
  apply returns_on_input_loops. intros st. unfold browse_step.
  apply returns_on_input_bind; [apply keeps_input_browse_render|].
  intros st'. apply takes_input_returns, takes_input_browse_navigate.
Qed.

(** X1.  Every [while True] loop of the embedded commands reads the
    terminal in each iteration: unrolled beyond the pending input, it gives
    what [input_loop] gives. *)
Theorem input_loops_unrolled (w : world) (fuel : nat) :
  (length (stdin w) < fuel)%nat →
  (∀ max_val prompt,
     iterate fuel (get_choice_step max_val prompt) tt w
     = get_choice max_val prompt w)
  ∧ (∀ max_val prompt,
       iterate fuel (get_multi_choice_step max_val prompt) tt w
       = get_multi_choice max_val prompt w)
  ∧ (∀ menu_versions current_page,
       iterate fuel (select_menu_step menu_versions) current_page w
       = input_loop (select_menu_step menu_versions) current_page w)
  ∧ (∀ st, iterate fuel browse_step st w = input_loop browse_step st w).
Proof.
  intros Hfuel. repeat split; intros.
  - by apply input_loop_unrolled; [apply get_choice_step_loops|].
  - by apply input_loop_unrolled; [apply get_multi_choice_step_loops|].
  - by apply input_loop_unrolled; [apply select_menu_step_loops|].
  - by apply input_loop_unrolled; [apply browse_step_loops|].
Qed.

Lemma input_loops_unrolled_witness :
  iterate 7 (get_multi_choice_step 5 (txt "Select ROMs")) tt prompt_world
  = get_multi_choice 5 (txt "Select ROMs") prompt_world.
Proof.
  apply (input_loops_unrolled prompt_world 7); simpl; lia.
Defined.

(** *** The prompts return *)

Lemma ends_ret {A} (a : A) : ends (ret a).
Proof. by intros w. Qed.

Lemma ends_print (s : str) : ends (print s).
Proof. by intros w. Qed.

Lemma ends_input (prompt : str) : ends (input prompt).
Proof. intros w. unfold eval, input. by destruct (stdin w) as [|[]]. Qed.

Lemma ends_index {A} (l : list A) (i : Z) : ends (index l i).
Proof.
  intros w. unfold eval, index. destruct (_ || _); [done|].
  by destruct (l !! _).
Qed.

Lemma ends_bind {A B} (m : M A) (k : A → M B) :
  ends m → (∀ a, ends (k a)) → ends (bind m k).
Proof.
  intros Hm Hk w. unfold eval. rewrite bind_eta. specialize (Hm w).
  destruct (eval m w) as [a|e]; simpl; [apply Hk|].
  intros [= ->]. done.
Qed.

Lemma ends_try {A} (m : M A) (handler : exn → M A) :
  ends m → (∀ e, e ≠ Diverged → ends (handler e)) → ends (try m handler).
Proof.
  intros Hm Hh w. unfold eval, try. specialize (Hm w). unfold eval in Hm.
  destruct (m w) as [[a|e] w']; simpl in *; [done|].
  apply Hh. by intros ->.
Qed.

Lemma ends_for_each {A} (l : list A) (body : A → M unit) :
  (∀ x, ends (body x)) → ends (for_each l body).
Proof.
  intros Hbody. induction l as [|x l IH]; simpl.
  - apply ends_ret.
  - by apply ends_bind.
Qed.

Lemma ends_for_fold {A S} (l : list A) (body : S → A → M S) s :
  (∀ s x, ends (body s x)) → ends (for_fold l body s).
Proof.
  intros Hbody. revert s. induction l as [|x l IH]; intros s; simpl.
  - apply ends_ret.
  - apply ends_bind; [apply Hbody | apply IH].
Qed.

Lemma ends_iterate {S A} (body : S → M (loop_step S A)) :
  loops_on_input body → (∀ s, ends (body s)) →
  ∀ (fuel : nat) (s : S) (w : world),
    (length (stdin w) < fuel)%nat → eval (iterate fuel body s) w ≠ Raise Diverged.
Proof.
  intros Hloops Hbody. induction fuel as [|fuel IH]; intros s w Hfuel; [lia|].
  cbn [iterate]. unfold eval. rewrite bind_eta.
  pose proof (Hbody s w) as Hends.
  destruct (eval (body s) w) as [[s'|a]|e] eqn:Hstep; simpl.
  - apply IH. specialize (Hloops s w s' Hstep). lia.
  - done.
  - by intros [= ->].
Qed.

Lemma ends_input_loop {S A} (body : S → M (loop_step S A)) s :
  loops_on_input body → (∀ s, ends (body s)) → ends (input_loop body s).
Proof.
  intros Hloops Hbody w. unfold input_loop.
  change (eval (iterate (Datatypes.S (length (stdin w))) body s) w
          ≠ Raise Diverged).
  apply ends_iterate; [done..|lia].
Qed.

(** Take a step of a proof of [ends]. *)
Ltac ends_step :=
  first
    [ apply ends_ret | apply ends_print | apply ends_input | apply ends_index
    | apply ends_bind; [|intros ?]
    | apply ends_try; [|intros ? ?]
    | done
    | match goal with
      | |- ends (match ?x with _ => _ end) => destruct x
      | |- ends (if ?c then _ else _) => destruct c
      | |- ends (raise _) => intros ?; unfold eval, raise; simpl; congruence
      end ].

(** X2.  The prompts and the page loop of the menu update return a value
    or raise a Python exception, whatever the user types: they never use up
    the unrolling of their loop. *)
Theorem prompts_end (w : world) :
  (∀ max_val prompt, eval (get_choice max_val prompt) w ≠ Raise Diverged)
  ∧ (∀ max_val prompt,
       eval (get_multi_choice max_val prompt) w ≠ Raise Diverged)
  ∧ (∀ menu_versions current_page,
       eval (input_loop (select_menu_step menu_versions) current_page) w
       ≠ Raise Diverged).
Proof.
  repeat split; intros.
  - apply ends_input_loop; [apply get_choice_step_loops|].
    intros []. unfold get_choice_step. repeat ends_step.
  - apply ends_input_loop; [apply get_multi_choice_step_loops|].
    intros []. unfold get_multi_choice_step, collect_choices.
    apply ends_try; [|intros e He; repeat ends_step].
    apply ends_bind; [apply ends_input|intros line]. cbv zeta.
    do 2 (destruct (bool_decide _); [apply ends_ret|]).
    apply ends_bind; [|intros; apply ends_ret].
    apply ends_for_fold. intros choices part. repeat ends_step.
  - apply ends_input_loop; [apply select_menu_step_loops|].
    intros page. unfold select_menu_step, print_rom_lines. cbv zeta.
    apply ends_bind; [apply ends_print|intros _].
    apply ends_bind;
      [apply ends_for_each; intros [i rom]; apply ends_print|intros _].
    repeat ends_step.
Qed.

(** *** A line that is not a list of integers *)

(** The loop over the tokens stops at the first one that is not an
    integer, having reported those before it that are out of range. *)
Lemma collect_choices_stops (max_val : Z) (before : list str) (bad : str)
    (after : list str) (vals : list Z) :
  mapM (λ part, py_int (strip part)) before = Some vals →
  py_int (strip bad) = None →
  ∀ (choices : list Z) (w : world),
    for_fold (before ++ bad :: after)
      (λ choices part,
         match py_int (strip part) with
         | None => raise ValueError
         | Some val =>
             if (1 <=? val) && (val <=? max_val) then ret (choices ++ [val])
             else print (txt "Skipping invalid choice: " ++ repr val) ;;
                  ret choices
         end)
      choices w
    = (Raise ValueError,
       set_stdout
         (stdout w
          ++ map skip_notice
               (List.filter (λ v, negb (in_range max_val v)) vals)) w).
Proof.
  intros Hvals Hbad. revert vals Hvals.
  induction before as [|part before IH]; intros vals Hvals choices w.
  - injection Hvals as <-. cbn [app for_fold List.filter map].
    rewrite Hbad. unfold bind, raise. by rewrite app_nil_r, set_stdout_same.
  - simpl in Hvals. destruct (py_int (strip part)) as [val|] eqn:Hval;
      [|discriminate Hvals].
    simpl in Hvals.
    destruct (mapM _ before) as [vals'|] eqn:Hrest; [|discriminate Hvals].
    injection Hvals as <-. cbn [app for_fold]. rewrite Hval.
    specialize (IH vals' eq_refl). cbn [List.filter].
    change ((1 <=? val) && (val <=? max_val)) with (in_range max_val val).
    destruct (in_range max_val val); cbn [negb].
    + unfold bind at 1, ret at 1. by rewrite IH.
    + unfold bind at 1. unfold bind at 1, print at 1, ret at 1.
      rewrite IH. cbn [map stdout set_stdout]. f_equal.
      rewrite set_stdout_twice. by rewrite <- app_assoc.
Qed.

(** X3.  After a line with a token that is not an integer,
    [get_multi_choice] says so and asks again: it goes on as it would on
    the rest of the input.  Before that it has printed, in order, the
    notice for each token in front of that one that is an integer out of
    range, and nothing for the tokens behind it. *)
Theorem get_multi_choice_asks_again (w : world) (max_val : Z)
    (prompt line : str) (rest : list stdin_event)
    (before : list str) (bad : str) (after : list str) (vals : list Z) :
  stdin w = Line line :: rest →
  lower (strip line) ≠ txt "0" →
  lower (strip line) ≠ txt "all" →
  split ","%char (lower (strip line)) = before ++ bad :: after →
  mapM (λ part, py_int (strip part)) before = Some vals →
  py_int (strip bad) = None →
  get_multi_choice max_val prompt w
  = get_multi_choice max_val prompt
      (set_stdin rest
         (set_stdout
            (stdout w ++ multi_choice_prompt prompt
             :: map skip_notice
                  (List.filter (λ v, negb (in_range max_val v)) vals)
             ++ [invalid_numbers_notice]) w)).
Proof.
  intros Hin Hzero Hall Hsplit Hvals Hbad.
  set (w1 := set_stdin rest
               (set_stdout (stdout w ++ [multi_choice_prompt prompt]) w)).
  assert (input (prompt ++ txt " (e.g. 1,3,5 or 'all', or 0 to cancel): ") w
          = (Ok line, w1)) as Hline by by apply input_line.
  pose proof (collect_choices_stops max_val before bad after vals Hvals Hbad
                [] w1) as Hrun.
  rewrite <- Hsplit in Hrun.
  assert (get_multi_choice_step max_val prompt tt w
          = (Ok (Continue tt),
             set_stdin rest
               (set_stdout
                  (stdout w ++ multi_choice_prompt prompt
                   :: map skip_notice
                        (List.filter (λ v, negb (in_range max_val v)) vals)
                   ++ [invalid_numbers_notice]) w))) as Hstep.
  { unfold get_multi_choice_step, try. rewrite (bind_ok _ _ _ _ _ Hline).
    cbv zeta. rewrite !bool_decide_eq_false_2 by done.
    unfold collect_choices. rewrite (bind_raise _ _ _ _ _ Hrun).
    unfold bind, print, ret, invalid_numbers_notice. f_equal.
    subst w1. cbn [stdout set_stdout set_stdin stdin].
    unfold set_stdin, set_stdout. simpl. f_equal.
    by rewrite <- !app_assoc. }
  unfold get_multi_choice, input_loop. rewrite Hin.
  cbn [length iterate]. rewrite (bind_ok _ _ _ _ _ Hstep). reflexivity.
Qed.

Lemma get_multi_choice_asks_again_witness :
  eval (get_multi_choice 5 (txt "Select ROMs")) retry_world = Ok [1; 3]
  ∧ stdout (exec (get_multi_choice 5 (txt "Select ROMs")) retry_world)
    = [multi_choice_prompt (txt "Select ROMs"); skip_notice 7;
       invalid_numbers_notice; multi_choice_prompt (txt "Select ROMs")].
Proof.
  pose proof (get_multi_choice_asks_again retry_world 5 (txt "Select ROMs")
                (txt "7,1,x,2") [Line (txt "3, 1")]
                [txt "7"; txt "1"] (txt "x") [txt "2"] [7; 1] eq_refl)
    as Hagain.
  unfold eval, exec. rewrite Hagain; [|by vm_compute..]. by vm_compute.
Defined.

(** *** The single-choice prompt *)

Lemma input_ctrl_c (prompt : str) (rest : list stdin_event) (w : world) :
  stdin w = CtrlC :: rest →
  input prompt w
  = (Raise KeyboardInterrupt,
     set_stdin rest (set_stdout (stdout w ++ [Prompt prompt]) w)).
Proof. intros H. unfold input. by rewrite H. Qed.

(** A loop whose first iteration asks for another. *)
Lemma input_loop_continue {S A} (body : S → M (loop_step S A)) s w s' w'
    (ev : stdin_event) :
  stdin w = ev :: stdin w' →
  body s w = (Ok (Continue s'), w') →
  input_loop body s w = input_loop body s' w'.
Proof.
  intros Hin Hstep. unfold input_loop. rewrite Hin.
  cbn [length iterate]. by rewrite (bind_ok _ _ _ _ _ Hstep).
Qed.

(** X4.  [get_choice] on what the user types next: Ctrl-C and the line
    ["0"] give 0, an integer of [1, max_val] gives that integer, and after
    anything else [get_choice] prints a notice and asks again, going on as
    it would on the rest of the input. *)
Theorem get_choice_spec (w : world) (max_val : Z) (prompt : str)
    (ev : stdin_event) (rest : list stdin_event) :
  stdin w = ev :: rest →
  (ev = CtrlC → eval (get_choice max_val prompt) w = Ok 0)
  ∧ (∀ line,
       ev = Line line → strip line = txt "0" →
       eval (get_choice max_val prompt) w = Ok 0)
  ∧ (∀ line val,
       ev = Line line → strip line ≠ txt "0" →
       py_int (strip line) = Some val → 1 ≤ val ≤ max_val →
       eval (get_choice max_val prompt) w = Ok val)
  ∧ (∀ line,
       ev = Line line → strip line ≠ txt "0" →
       (∀ val, py_int (strip line) = Some val → ¬ 1 ≤ val ≤ max_val) →
       ∃ notice,
         get_choice max_val prompt w
         = get_choice max_val prompt
             (set_stdin rest
                (set_stdout
                   (stdout w ++ [choice_prompt max_val prompt; Print notice])
                   w))).
Proof.
  intros Hin. split; [|split; [|split]].
  - intros ->. unfold eval, get_choice.
    erewrite input_loop_return; [reflexivity|].
    unfold get_choice_step, try.
    rewrite (bind_raise _ _ _ _ _ (input_ctrl_c _ rest w Hin)). reflexivity.
  - intros line -> Hzero. unfold eval, get_choice.
    erewrite input_loop_return; [reflexivity|].
    unfold get_choice_step. apply try_ok.
    rewrite (bind_ok _ _ _ _ _ (input_line _ line rest w Hin)). cbv zeta.
    by rewrite bool_decide_eq_true_2.
  - intros line val -> Hzero Hval Hrange. unfold eval, get_choice.
    erewrite input_loop_return; [reflexivity|].
    unfold get_choice_step. apply try_ok.
    rewrite (bind_ok _ _ _ _ _ (input_line _ line rest w Hin)). cbv zeta.
    rewrite bool_decide_eq_false_2 by done. rewrite Hval.
    change ((1 <=? val) && (val <=? max_val)) with (in_range max_val val).
    by rewrite (proj2 (in_range_spec max_val val) Hrange).
  - intros line -> Hzero Hbad.
    destruct (py_int (strip line)) as [val|] eqn:Hval.
    + exists (txt "Please enter a number between 1 and " ++ repr max_val).
      unfold get_choice. eapply (input_loop_continue _ _ _ _ _ (Line line)).
      { cbn [stdin set_stdin]. exact Hin. }
      unfold get_choice_step. 
      rewrite (try_ok _ _ w (Continue tt)
                 (set_stdin rest
                    (set_stdout
                       (stdout w
                        ++ [choice_prompt max_val prompt;
                            Print (txt "Please enter a number between 1 and "
                                   ++ repr max_val)]) w))); [reflexivity|].
      rewrite (bind_ok _ _ _ _ _ (input_line _ line rest w Hin)). cbv zeta.
      rewrite bool_decide_eq_false_2 by done. rewrite Hval.
      change ((1 <=? val) && (val <=? max_val)) with (in_range max_val val).
      destruct (in_range max_val val) eqn:Hrange.
      { apply in_range_spec in Hrange. by destruct (Hbad val). }
      unfold bind, print, ret. f_equal.
      unfold set_stdin, set_stdout, choice_prompt. simpl. f_equal.
      by rewrite <- app_assoc.
    + exists (txt "Please enter a valid number").
      unfold get_choice. eapply (input_loop_continue _ _ _ _ _ (Line line)).
      { cbn [stdin set_stdin]. exact Hin. }
      unfold get_choice_step, try.
      rewrite (bind_ok _ _ _ _ _ (input_line _ line rest w Hin)). cbv zeta.
      rewrite bool_decide_eq_false_2 by done. rewrite Hval.
      unfold raise, bind, print, ret. f_equal.
      unfold set_stdin, set_stdout, choice_prompt. simpl. f_equal.
      by rewrite <- app_assoc.
Qed.

Lemma get_choice_spec_witness :
  eval (get_choice 2 (txt "Choose destination")) destination_world = Ok 2.
Proof.
  destruct (get_choice_spec destination_world 2 (txt "Choose destination")
              (Line (txt "two")) [Line (txt "7"); Line (txt " 2 ")] eq_refl)
    as (_ & _ & _ & Hagain).
  destruct (Hagain (txt "two") eq_refl) as [notice Hrun];
    [by vm_compute|by vm_compute|].
  unfold eval. rewrite Hrun.
  set (w1 := set_stdin _ _).
  destruct (get_choice_spec w1 2 (txt "Choose destination")
              (Line (txt "7")) [Line (txt " 2 ")] eq_refl)
    as (_ & _ & _ & Hagain').
  destruct (Hagain' (txt "7") eq_refl) as [notice' Hrun'];
    [by vm_compute|
     intros val [= <-]; vm_compute; intros [_ Hle]; by apply Hle|].
  rewrite Hrun'.
  set (w2 := set_stdin _ _).
  destruct (get_choice_spec w2 2 (txt "Choose destination")
              (Line (txt " 2 ")) [] eq_refl)
    as (_ & _ & Hreturn & _).
  apply (Hreturn (txt " 2 ") 2); [reflexivity|by vm_compute|reflexivity|lia].
Defined.

(** * The listing and the accessibility probe *)

Lemma lstrip_head (s : str) (c : ascii) (t : str) :
  lstrip s = c :: t → isspace c = false.
Proof.
  induction s as [|d s IH]; simpl; [done|].
  destruct (isspace d) eqn:Hd; [done|]. by intros [= <- <-].
Qed.

Lemma rstrip_cons_keeps (c : ascii) (s : str) :
  isspace c = false → ∃ t, rstrip (c :: s) = c :: t.
Proof.
  intros Hc. simpl. destruct (rstrip s) as [|d t].
  - rewrite Hc. by exists [].
  - by eexists.
Qed.

Lemma rstrip_idemp (s : str) : rstrip (rstrip s) = rstrip s.
Proof.
  induction s as [|c s IH]; simpl; [done|].
  destruct (rstrip s) as [|d t] eqn:Hs.
  - destruct (isspace c) eqn:Hc; simpl; [done|]. by rewrite Hc.
  - simpl in IH |- *. by rewrite IH.
Qed.

(** [s.strip().strip() == s.strip()] *)
Lemma strip_idemp (s : str) : strip (strip s) = strip s.
Proof.
  unfold strip. destruct (lstrip s) as [|c t] eqn:Hs; [done|].
  pose proof (lstrip_head s c t Hs) as Hc.
  destruct (rstrip_cons_keeps c t Hc) as [t' Ht]. rewrite Ht.
  cbn [lstrip]. rewrite Hc, <- Ht. apply rstrip_idemp.
Qed.

Lemma record_of_line_listed (line : str) : listed (record_of_line line).
Proof.
  unfold listed, record_of_line. cbv zeta. cbn [e_type e_name e_path].
  split; [case_bool_decide; [by left|by right]|].
  split; [apply strip_idemp|].
  case_bool_decide as Hhead; [|split; [by right|done]].
  split; [by left|done].
Qed.

Lemma records_of_listing_listed (out : str) :
  Forall listed (records_of_listing out).
Proof.
  unfold records_of_listing. apply Forall_forall. intros f Hf.
  apply list_elem_of_In, in_flat_map in Hf as (line & _ & Hf).
  unfold records_of_line in Hf.
  case_bool_decide; [|done]. destruct Hf as [<-|[]].
  apply record_of_line_listed.
Qed.

Lemma list_sd_card_files_listed (path : option str) (w : world)
    (files : list sd_entry) :
  eval (list_sd_card_files path) w = Ok files → Forall listed files.
Proof.
  unfold eval. rewrite list_sd_card_files_unfold, bind_eta.
  destruct (eval (run_sc64_command (ls_args path)) w) as [[[code out] err]|e];
    [|done].
  destruct (negb (code =? 0)); intros [= <-]; [constructor|].
  rewrite parse_listing_records. apply records_of_listing_listed.
Qed.

(** X5.  Every record [list_sd_card_files] returns is a directory or a
    file, has a name without white space around it, and has as path its
    name, with a slash in front unless the name starts with one: the path
    always starts with a slash.  So the entries of a listing number as
    many as its directories and its files together. *)
Theorem list_sd_card_files_records (w : world) (path : option str)
    (files : list sd_entry) :
  eval (list_sd_card_files path) w = Ok files →
  Forall listed files
  ∧ length files
    = (length (List.filter (λ f, bool_decide (e_type f = txt "dir")) files)
       + length (List.filter (λ f, bool_decide (e_type f = txt "file")) files))%nat.
Proof.
  intros Hfiles. apply list_sd_card_files_listed in Hfiles.
  split; [done|].
  induction Hfiles as [|f files [[Hdir|Hfile] _] _ IH]; [done|..];
    cbn [List.filter length].
  - rewrite Hdir. rewrite bool_decide_eq_true_2 by done.
    rewrite bool_decide_eq_false_2 by done. cbn [length]. lia.
  - rewrite Hfile. rewrite bool_decide_eq_false_2 by done.
    rewrite bool_decide_eq_true_2 by done. cbn [length]. lia.
Qed.

Lemma list_sd_card_files_records_witness :
  ∃ files,
    eval (list_sd_card_files None) cart_world = Ok files
    ∧ map e_path files = [txt "/a.Z64"; txt "/menu"]
    ∧ Forall listed files.
Proof.
  eexists. split; [vm_compute; reflexivity|]. split; [reflexivity|].
  eapply (list_sd_card_files_records cart_world None). vm_compute. reflexivity.
Defined.

Lemma elem_of_split (sep c : ascii) (s : str) :
  c ≠ sep → (c ∈ s ↔ ∃ l, l ∈ split sep s ∧ c ∈ l).
Proof.
  intros Hne. induction s as [|d s IH]; simpl.
  - split; [by intros ?%elem_of_nil|].
    intros (l & Hl & Hc). apply list_elem_of_singleton in Hl as ->.
    by apply elem_of_nil in Hc.
  - destruct (Ascii.eqb d sep) eqn:Hd.
    + apply ascii_eqb_true in Hd as ->. rewrite elem_of_cons, IH. split.
      * intros [->|(l & Hl & Hc)]; [done|]. exists l. by rewrite elem_of_cons; auto.
      * intros (l & Hl & Hc). apply elem_of_cons in Hl as [->|Hl].
        -- by apply elem_of_nil in Hc.
        -- right. by exists l.
    + rewrite elem_of_cons, IH. destruct (split sep s) as [|l0 ls] eqn:Hs.
      * split.
        -- intros [->|(l & Hl & _)]; [|by apply elem_of_nil in Hl].
           exists [d]. by rewrite !list_elem_of_singleton.
        -- intros (l & Hl & Hc). apply list_elem_of_singleton in Hl as ->.
           apply list_elem_of_singleton in Hc. by left.
      * split.
        -- intros [->|(l & Hl & Hc)].
           ++ exists (d :: l0). rewrite !elem_of_cons. auto.
           ++ apply elem_of_cons in Hl as [->|Hl].
              ** exists (d :: l0). rewrite !elem_of_cons. auto.
              ** exists l. rewrite elem_of_cons. auto.
        -- intros (l & Hl & Hc). apply elem_of_cons in Hl as [->|Hl].
           ++ apply elem_of_cons in Hc as [->|Hc]; [by left|].
              right. exists l0. rewrite elem_of_cons. auto.
           ++ right. exists l. rewrite elem_of_cons. auto.
Qed.

(** A listing has a record exactly when its text holds a pipe. *)
Lemma parse_listing_nil (out : str) :
  parse_listing out = [] ↔ "|"%char ∉ out.
Proof.
  rewrite parse_listing_records. unfold records_of_listing.
  rewrite (elem_of_split nl "|"%char out) by done. split.
  - intros Hnil (l & Hl & Hc).
    assert (record_of_line l ∈ flat_map records_of_line (split nl out)) as Hin.
    { apply list_elem_of_In, in_flat_map. exists l.
      split; [by apply list_elem_of_In|]. unfold records_of_line.
      rewrite bool_decide_eq_true_2 by done. by left. }
    rewrite Hnil in Hin. by apply elem_of_nil in Hin.
  - intros Hnone. destruct (flat_map _ _) as [|f fs] eqn:Hflat; [done|].
    assert (In f (flat_map records_of_line (split nl out))) as Hin
      by (rewrite Hflat; by left).
    apply in_flat_map in Hin as (l & Hl & Hf). unfold records_of_line in Hf.
    case_bool_decide as Hc; [|done]. destruct Hnone. exists l.
    split; [by apply list_elem_of_In|done].
Qed.

(** X6.  [is_sd_card_accessible] answers [True] exactly when listing the
    root of the card from the same state gives at least one entry; a card
    with nothing on it counts as not accessible. *)
Theorem is_sd_card_accessible_iff_listed (w : world) :
  eval is_sd_card_accessible w = Ok true
  ↔ ∃ f files, eval (list_sd_card_files None) w = Ok (f :: files).
Proof.
  unfold eval. rewrite list_sd_card_files_unfold.
  unfold is_sd_card_accessible. rewrite !bind_eta. cbn [ls_args].
  destruct (eval (run_sc64_command [txt "sd"; txt "ls"]) w)
    as [[[code out] err]|e]; cbn [fst ret]; [|split; [done|by intros (? & ? & ?)]].
  change (txt "|") with ["|"%char]. rewrite contains_char.
  destruct (Z.eqb_spec code 0) as [->|Hcode]; cbn [negb andb].
  - split.
    + intros [= Hpipe%bool_decide_eq_true].
      destruct (parse_listing out) as [|f files] eqn:Hparse; [|by eexists _, _].
      apply parse_listing_nil in Hparse. done.
    + intros (f & files & [= Hparse]). f_equal. apply bool_decide_eq_true_2.
      destruct (decide ("|"%char ∈ out)) as [|Hno]; [done|].
      apply parse_listing_nil in Hno. by rewrite Hno in Hparse.
  - split; [done|by intros (? & ? & ?)].
Qed.

Lemma is_sd_card_accessible_iff_listed_witness :
  eval is_sd_card_accessible empty_card_world = Ok false
  ∧ eval (list_sd_card_files None) empty_card_world = Ok [].
Proof.
  pose proof (is_sd_card_accessible_iff_listed empty_card_world) as Hiff.
  split; [|reflexivity].
  destruct (eval is_sd_card_accessible empty_card_world) as [[]|e] eqn:Hacc;
    [|reflexivity|discriminate Hacc].
  destruct (proj1 Hiff eq_refl) as (f & files & Hlist). discriminate Hlist.
Defined.

(** * Commands that give up *)

Lemma check_device_connected_exec (w : world) :
  exec check_device_connected w
  = set_calls (calls w ++ [([txt "list"],
                            deployer w (length (calls w)) [txt "list"])]) w.
Proof.
  unfold exec, check_device_connected. rewrite bind_eta.
  unfold eval, exec. rewrite run_sc64_command_run. cbn [fst snd].
  by destruct (run_value w _) as [[[code out] err]|e].
Qed.

Lemma is_sd_card_accessible_exec (w : world) :
  exec is_sd_card_accessible w
  = set_calls (calls w ++ [([txt "sd"; txt "ls"],
                            deployer w (length (calls w)) [txt "sd"; txt "ls"])])
      w.
Proof.
  unfold exec, is_sd_card_accessible. rewrite bind_eta.
  unfold eval, exec. rewrite run_sc64_command_run. cbn [fst snd].
  by destruct (run_value w _) as [[[code out] err]|e].
Qed.

Lemma stops_after_intro {A} (probes : list (list str)) (notice : str)
    (m : M A) (w : world) :
  (∀ res w',
     m w = (res, w') →
     ∃ a v w1 new,
       res = Ok a ∧ w' = set_stdout (v ++ [Print notice]) w1
       ∧ calls w1 = calls w ++ new ∧ map fst new = probes
       ∧ stdin w1 = stdin w) →
  stops_after probes notice m w.
Proof.
  intros Hrun. unfold stops_after, eval, exec.
  destruct (m w) as [res w'] eqn:Hm.
  destruct (Hrun res w' eq_refl) as (a & v & w1 & new & -> & -> & Hc & Hn & Hin).
  cbn [fst snd]. split; [by exists a|]. split; [by exists new|].
  split; [done|]. cbn [stdout set_stdout]. by rewrite last_snoc.
Qed.

(** Run a command up to the point where it gives up: its header, its
    probes with the answers at hand, its notices. *)
Ltac give_up_run :=
  repeat match goal with
    | H : eval check_device_connected ?w = _
      |- context [bind check_device_connected _ (set_stdout _ ?w)] =>
        run_quiet quiet_check_device_connected; rewrite H; cbn [negb]
    | H : eval is_sd_card_accessible ?w = _
      |- context [bind is_sd_card_accessible _ (set_stdout _ ?w)] =>
        run_quiet quiet_is_sd_card_accessible; rewrite H; cbn [negb]
    | |- context [bind check_device_connected _] => run_prints
    | |- context [bind is_sd_card_accessible _] => run_prints
    end;
  unfold bind, print, ret; cbn [stdout set_stdout].

(** The command gives up after the probe for the device, or after the
    probe for the card that follows it. *)
Ltac stops_without_device :=
  apply stops_after_intro; intros ? ?; give_up_run; intros [= <- <-];
  eexists _, _, _, _; split; [reflexivity|]; split; [reflexivity|];
  rewrite check_device_connected_exec; repeat split; reflexivity.

Ltac stops_without_card :=
  apply stops_after_intro; intros ? ?; give_up_run; intros [= <- <-];
  eexists _, _, _, _; split; [reflexivity|]; split; [reflexivity|];
  rewrite is_sd_card_accessible_exec, check_device_connected_exec;
  cbn [calls set_calls set_stdout]; rewrite <- app_assoc;
  repeat split; reflexivity.

(** X7.  When the probe for the device fails, be it that no device is
    listed or that the deployer is missing, every command that works on
    the cart gives up at once: it has run the deployer for that probe
    alone, it has read nothing from the terminal, and it returns after
    saying that the device is not connected; [cmd_status] returns
    [False]. *)
Theorem commands_stop_without_device (w : world) (clock : world → str)
    (music_dir : option (list fs_node)) :
  eval check_device_connected w = Ok false →
  let notice := txt "SC64 device not connected!" in
  stops_after [[txt "list"]] notice cmd_upload w
  ∧ stops_after [[txt "list"]] notice cmd_quick_upload w
  ∧ stops_after [[txt "list"]] notice cmd_update_menu w
  ∧ stops_after [[txt "list"]] notice (cmd_menu_music music_dir) w
  ∧ stops_after [[txt "list"]] notice (cmd_sync_rtc clock) w
  ∧ stops_after [[txt "list"]] notice cmd_browse_sd w
  ∧ stops_after [[txt "list"]]
      (nl :: txt "Make sure your SummerCart64 is plugged in via USB.")
      cmd_status w
  ∧ eval cmd_status w = Ok false
  ∧ eval (cmd_menu_music music_dir) w = Ok (inr music_dir).
Proof.
  intros Hconn notice. split_and!.
  - unfold cmd_upload. stops_without_device.
  - unfold cmd_quick_upload. stops_without_device.
  - unfold cmd_update_menu. stops_without_device.
  - unfold cmd_menu_music. stops_without_device.
  - unfold cmd_sync_rtc. stops_without_device.
  - unfold cmd_browse_sd. stops_without_device.
  - unfold cmd_status. stops_without_device.
  - unfold eval. destruct (cmd_status w) as [res w'] eqn:Hrun. revert Hrun.
    unfold cmd_status. give_up_run. by intros [= <- _].
  - unfold eval. destruct (cmd_menu_music music_dir w) as [res w'] eqn:Hrun.
    revert Hrun. unfold cmd_menu_music. give_up_run. by intros [= <- _].
Qed.

Lemma commands_stop_without_device_witness :
  eval check_device_connected shelf_world = Ok false
  ∧ stops_after [[txt "list"]] (txt "SC64 device not connected!")
      cmd_quick_upload shelf_world
  ∧ eval cmd_status shelf_world = Ok false.
Proof.
  split; [reflexivity|].
  destruct (commands_stop_without_device shelf_world noon None eq_refl)
    as (_ & Hquick & _ & _ & _ & _ & _ & Hstatus & _).
  split; [exact Hquick | exact Hstatus].
Defined.

(** X8.  When the device is connected but the SD card cannot be read,
    every command that works on the card gives up after the two probes:
    it has run the deployer for nothing else, it has read nothing from the
    terminal, and it returns after saying that the console must be
    powered on.  [cmd_list_cart], which does not probe for the device,
    gives up after the probe of the card. *)
Theorem commands_stop_without_card (w : world)
    (music_dir : option (list fs_node)) :
  eval check_device_connected w = Ok true →
  eval is_sd_card_accessible (exec check_device_connected w) = Ok false →
  let probes := [[txt "list"]; [txt "sd"; txt "ls"]] in
  let notice := txt "Power ON your N64 to enable SD card access." in
  stops_after probes notice cmd_upload w
  ∧ stops_after probes notice cmd_quick_upload w
  ∧ stops_after probes notice cmd_update_menu w
  ∧ stops_after probes notice (cmd_menu_music music_dir) w
  ∧ stops_after probes notice cmd_browse_sd w
  ∧ stops_after [[txt "sd"; txt "ls"]]
      (txt "Make sure your N64 is powered ON to access the SD card.")
      cmd_list_cart (exec check_device_connected w).
Proof.
  intros Hconn Hacc probes notice. split_and!.
  - unfold cmd_upload. stops_without_card.
  - unfold cmd_quick_upload. stops_without_card.
  - unfold cmd_update_menu. stops_without_card.
  - unfold cmd_menu_music. stops_without_card.
  - unfold cmd_browse_sd. stops_without_card.
  - unfold cmd_list_cart.
    apply stops_after_intro; intros ? ?; give_up_run; intros [= <- <-].
    eexists _, _, _, _. split; [reflexivity|]. split; [reflexivity|].
    rewrite is_sd_card_accessible_exec. repeat split; reflexivity.
Qed.

Lemma commands_stop_without_card_witness :
  eval check_device_connected console_off_world = Ok true
  ∧ stops_after [[txt "list"]; [txt "sd"; txt "ls"]]
      (txt "Power ON your N64 to enable SD card access.")
      cmd_quick_upload console_off_world
  ∧ stdin (exec cmd_quick_upload console_off_world) = [Line (txt "1")].
Proof.
  split; [reflexivity|].
  destruct (commands_stop_without_card console_off_world None
              eq_refl eq_refl) as (_ & Hquick & _).
  split; [exact Hquick|]. by destruct Hquick as (_ & _ & -> & _).
Defined.

(** * What the commands run *)

(** *** Observations a computation preserves *)

Lemma preserves_ret {B A} (obs : world → B) (a : A) : preserves obs (ret a).
Proof. by intros w. Qed.

Lemma preserves_raise {B A} (obs : world → B) (e : exn) :
  preserves obs (@raise A e).
Proof. by intros w. Qed.

Lemma preserves_get_world {B} (obs : world → B) : preserves obs get_world.
Proof. by intros w. Qed.

Lemma preserves_bind {B A C} (obs : world → B) (m : M A) (k : A → M C) :
  preserves obs m → (∀ a, preserves obs (k a)) → preserves obs (bind m k).
Proof.
  intros Hm Hk w. unfold exec. rewrite bind_eta.
  destruct (eval m w) as [a|e]; simpl; [|apply Hm].
  rewrite <- (Hm w). apply Hk.
Qed.

Lemma preserves_try {B A} (obs : world → B) (m : M A) (handler : exn → M A) :
  preserves obs m → (∀ e, preserves obs (handler e)) →
  preserves obs (try m handler).
Proof.
  intros Hm Hh w. unfold exec, try. specialize (Hm w). unfold exec in Hm.
  destruct (m w) as [[a|e] w']; simpl in *; [done|].
  rewrite <- Hm. apply Hh.
Qed.

Lemma preserves_if {B A} (obs : world → B) (c : bool) (m k : M A) :
  preserves obs m → preserves obs k → preserves obs (if c then m else k).
Proof. by destruct c. Qed.

Lemma preserves_for_each {B A} (obs : world → B) (l : list A)
    (body : A → M unit) :
  (∀ x, preserves obs (body x)) → preserves obs (for_each l body).
Proof.
  intros Hbody. induction l as [|x l IH]; simpl.
  - apply preserves_ret.
  - by apply preserves_bind.
Qed.

Lemma preserves_for_fold {B A S} (obs : world → B) (l : list A)
    (body : S → A → M S) s :
  (∀ s x, preserves obs (body s x)) → preserves obs (for_fold l body s).
Proof.
  intros Hbody. revert s. induction l as [|x l IH]; intros s; simpl.
  - apply preserves_ret.
  - apply preserves_bind; [apply Hbody | apply IH].
Qed.

Lemma preserves_index {B A} (obs : world → B) (l : list A) (i : Z) :
  preserves obs (index l i).
Proof.
  intros w. unfold exec, index.
  destruct (_ || _); [done|]. by destruct (l !! _).
Qed.

(** Printing changes the output alone, running the deployer the log
    alone. *)
Lemma preserves_print {B} (obs : world → B) (s : str) :
  (∀ v w, obs (set_stdout v w) = obs w) → preserves obs (print s).
Proof. intros Hobs w. apply Hobs. Qed.

Lemma preserves_run_sc64_command {B} (obs : world → B) (args : list str) :
  (∀ v w, obs (set_calls v w) = obs w) →
  preserves obs (run_sc64_command args).
Proof. intros Hobs w. unfold exec. rewrite run_sc64_command_run. apply Hobs. Qed.

Lemma preserves_input {B} (obs : world → B) (prompt : str) :
  (∀ v w, obs (set_stdout v w) = obs w) →
  (∀ v w, obs (set_stdin v w) = obs w) →
  preserves obs (input prompt).
Proof.
  intros Hout Hin w. unfold exec, input.
  destruct (stdin w) as [|[]]; cbn [snd]; by rewrite ?Hin, Hout.
Qed.

(** Take a step of a proof of [preserves], by the shape of the
    computation. *)
Ltac preserves_step :=
  match goal with
  | |- preserves _ (match ?x with _ => _ end) => destruct x
  | |- preserves _ ((match ?x with _ => _ end) _) => destruct x; cbv beta
  | |- preserves _ (ret _) => apply preserves_ret
  | |- preserves _ (raise _) => apply preserves_raise
  | |- preserves _ get_world => apply preserves_get_world
  | |- preserves _ (index _ _) => apply preserves_index
  | |- preserves _ (print _) => apply preserves_print; reflexivity
  | |- preserves _ (input _) => apply preserves_input; reflexivity
  | |- preserves _ (run_sc64_command _) =>
      apply preserves_run_sc64_command; reflexivity
  | |- preserves _ (bind _ _) => apply preserves_bind; [|intros ?]
  | |- preserves _ (try _ _) => apply preserves_try; [|intros ?]
  | |- preserves _ (for_each _ _) => apply preserves_for_each; intros ?
  | |- preserves _ (for_fold _ _ _) => apply preserves_for_fold; intros ? ?
  end.

Lemma stdin_list_sd_card_files path : preserves stdin (list_sd_card_files path).
Proof. rewrite list_sd_card_files_unfold. repeat preserves_step. Qed.

Lemma stdin_get_all_sd_roms_from depth path found :
  preserves stdin (get_all_sd_roms_from depth path found).
Proof.
  revert path found. induction depth as [|depth IH]; intros path found; simpl.
  - apply preserves_raise.
  - apply preserves_bind; [apply stdin_list_sd_card_files|].
    intros files. apply preserves_for_fold. intros s f.
    case_bool_decide; [apply IH|]. repeat preserves_step.
Qed.

Lemma stdin_get_all_sd_roms path : preserves stdin (get_all_sd_roms path).
Proof.
  unfold get_all_sd_roms. apply preserves_bind; [apply preserves_get_world|].
  intros w. apply stdin_get_all_sd_roms_from.
Qed.

Lemma stdin_list_local_roms : preserves stdin list_local_roms.
Proof. unfold list_local_roms. repeat preserves_step. Qed.

Lemma calls_list_local_roms : preserves calls list_local_roms.
Proof. unfold list_local_roms. repeat preserves_step. Qed.

Lemma stdin_cmd_compare : preserves stdin cmd_compare.
Proof.
  unfold cmd_compare, print_header, is_sd_card_accessible, print_rom_lines.
  apply preserves_bind; [repeat preserves_step|intros _].
  apply preserves_bind; [apply stdin_list_local_roms|intros local_roms].
  destruct (bool_decide _); [repeat preserves_step|].
  apply preserves_bind; [repeat preserves_step|intros accessible].
  destruct (negb _); [repeat preserves_step|].
  apply preserves_bind; [repeat preserves_step|intros _].
  apply preserves_bind; [apply stdin_get_all_sd_roms|intros sd_roms].
  cbv zeta. repeat preserves_step.
Qed.

(** *** The value of a computation *)

Lemma returns_ret {A} (Q : A → Prop) (a : A) : Q a → returns Q (ret a).
Proof. by intros Ha w ? [= <-]. Qed.

Lemma returns_raise {A} (Q : A → Prop) (e : exn) : returns Q (@raise A e).
Proof. by intros w a. Qed.

Lemma returns_bind {A B} (R : A → Prop) (Q : B → Prop) (m : M A)
    (k : A → M B) :
  returns R m → (∀ a, R a → returns Q (k a)) → returns Q (bind m k).
Proof.
  intros Hm Hk w b. unfold eval. rewrite bind_eta.
  destruct (eval m w) as [a|e] eqn:Ha; simpl; [|done].
  apply (Hk a (Hm w a Ha)).
Qed.

Lemma returns_any {A} (m : M A) : returns (λ _, True) m.
Proof. by intros w a. Qed.

Lemma returns_seq {A B} (Q : B → Prop) (m : M A) (k : A → M B) :
  (∀ a, returns Q (k a)) → returns Q (bind m k).
Proof.
  intros Hk. apply (returns_bind (λ _, True)); [apply returns_any|auto].
Qed.

Lemma returns_if {A} (Q : A → Prop) (c : bool) (m k : M A) :
  returns Q m → returns Q k → returns Q (if c then m else k).
Proof. by destruct c. Qed.

Lemma returns_try {A} (Q : A → Prop) (m : M A) (handler : exn → M A) :
  returns Q m → (∀ e, returns Q (handler e)) → returns Q (try m handler).
Proof.
  intros Hm Hh w a. unfold eval, try. specialize (Hm w). unfold eval in Hm.
  destruct (m w) as [[a'|e] w']; simpl in *.
  - intros [= <-]. by apply Hm.
  - apply Hh.
Qed.

Lemma returns_for_fold {A S} (I : S → Prop) (l : list A)
    (body : S → A → M S) (s : S) :
  (∀ s x, I s → returns I (body s x)) → I s → returns I (for_fold l body s).
Proof.
  intros Hbody. revert s. induction l as [|x l IH]; intros s Hs; simpl.
  - by apply returns_ret.
  - eapply returns_bind; [by apply Hbody|]. intros s' Hs'. by apply IH.
Qed.

Lemma returns_iterate {S A} (Q : A → Prop) (body : S → M (loop_step S A))
    (fuel : nat) (s : S) :
  (∀ s, returns (λ r, match r with Return a => Q a | Continue _ => True end)
          (body s)) →
  returns Q (iterate fuel body s).
Proof.
  intros Hbody. revert s. induction fuel as [|fuel IH]; intros s; simpl.
  - apply returns_raise.
  - eapply returns_bind; [apply Hbody|].
    intros [s'|a] Hr; [apply IH | by apply returns_ret].
Qed.

Lemma returns_input_loop {S A} (Q : A → Prop) (body : S → M (loop_step S A))
    (s : S) :
  (∀ s, returns (λ r, match r with Return a => Q a | Continue _ => True end)
          (body s)) →
  returns Q (input_loop body s).
Proof.
  intros Hbody w a. unfold eval, input_loop.
  apply (returns_iterate Q body _ s Hbody w a).
Qed.

Lemma returns_index {A} (l : list A) (i : Z) : returns (λ x, x ∈ l) (index l i).
Proof.
  intros w a. unfold eval, index. destruct (_ || _); [done|].
  destruct (l !! _) as [x|] eqn:Hx; [|done].
  intros [= <-]. by eapply list_elem_of_lookup_2.
Qed.

Lemma returns_mono {A} (Q R : A → Prop) (m : M A) :
  (∀ a, Q a → R a) → returns Q m → returns R m.
Proof. intros HQR Hm w a Ha. by apply HQR, (Hm w). Qed.

(** *** The runs of a computation *)

Lemma only_runs_preserves P {A} (m : M A) : preserves calls m → only_runs P m.
Proof. intros Hm w. exists []. by rewrite app_nil_r, (Hm w). Qed.

Lemma only_runs_no_calls P {A} (m : M A) : no_calls m → only_runs P m.
Proof. intros Hm. by apply only_runs_preserves. Qed.

Lemma only_runs_bind_returns P {A B} (Q : A → Prop) (m : M A) (k : A → M B) :
  only_runs P m → returns Q m → (∀ a, Q a → only_runs P (k a)) →
  only_runs P (bind m k).
Proof.
  intros Hm HQ Hk w. destruct (Hm w) as (new1 & Hc1 & HP1).
  unfold exec. rewrite bind_eta.
  destruct (eval m w) as [a|e] eqn:Ha; simpl; [|by exists new1].
  destruct (Hk a (HQ w a Ha) (exec m w)) as (new2 & Hc2 & HP2).
  exists (new1 ++ new2). unfold exec in *. rewrite Hc2, Hc1, app_assoc.
  split; [done|]. by apply Forall_app.
Qed.

Lemma only_runs_bind P {A B} (m : M A) (k : A → M B) :
  only_runs P m → (∀ a, only_runs P (k a)) → only_runs P (bind m k).
Proof.
  intros Hm Hk.
  apply (only_runs_bind_returns P (λ _, True)); [done|apply returns_any|auto].
Qed.

Lemma only_runs_try P {A} (m : M A) (handler : exn → M A) :
  only_runs P m → (∀ e, only_runs P (handler e)) → only_runs P (try m handler).
Proof.
  intros Hm Hh w. destruct (Hm w) as (new1 & Hc1 & HP1).
  unfold exec, try in *. destruct (m w) as [[a|e] w']; simpl in *.
  - by exists new1.
  - destruct (Hh e w') as (new2 & Hc2 & HP2). exists (new1 ++ new2).
    unfold exec in Hc2. rewrite Hc2, Hc1, app_assoc.
    split; [done|]. by apply Forall_app.
Qed.

Lemma only_runs_if P {A} (c : bool) (m k : M A) :
  only_runs P m → only_runs P k → only_runs P (if c then m else k).
Proof. by destruct c. Qed.

Lemma only_runs_for_each P {A} (l : list A) (body : A → M unit) :
  (∀ x, x ∈ l → only_runs P (body x)) → only_runs P (for_each l body).
Proof.
  induction l as [|x l IH]; intros Hbody; simpl.
  - apply only_runs_no_calls, no_calls_ret.
  - apply only_runs_bind; [apply Hbody; by left|].
    intros _. apply IH. intros y Hy. apply Hbody. by right.
Qed.

Lemma only_runs_for_fold P {A S} (l : list A) (body : S → A → M S) (s : S) :
  (∀ s x, x ∈ l → only_runs P (body s x)) → only_runs P (for_fold l body s).
Proof.
  revert s. induction l as [|x l IH]; intros s Hbody; simpl.
  - apply only_runs_no_calls, no_calls_ret.
  - apply only_runs_bind; [apply Hbody; by left|].
    intros s'. apply IH. intros s'' y Hy. apply Hbody. by right.
Qed.

Lemma only_runs_iterate P {S A} (fuel : nat) (body : S → M (loop_step S A)) s :
  (∀ s, only_runs P (body s)) → only_runs P (iterate fuel body s).
Proof.
  intros Hbody. revert s. induction fuel as [|fuel IH]; intros s; simpl.
  - apply only_runs_no_calls, no_calls_raise.
  - apply only_runs_bind; [apply Hbody|].
    intros [s'|a]; [apply IH | apply only_runs_no_calls, no_calls_ret].
Qed.

Lemma only_runs_input_loop P {S A} (body : S → M (loop_step S A)) s :
  (∀ s, only_runs P (body s)) → only_runs P (input_loop body s).
Proof. intros Hbody w. unfold input_loop. by apply only_runs_iterate. Qed.

Lemma only_runs_run_sc64_command (P : list str * run_result → Prop)
    (args : list str) :
  (∀ r, P (args, r)) → only_runs P (run_sc64_command args).
Proof.
  intros HP w. destruct (run_sc64_command_log args w) as (r & Hc & _).
  exists [(args, r)]. split; [done|]. by constructor.
Qed.

Lemma only_runs_mono (P Q : list str * run_result → Prop) {A} (m : M A) :
  (∀ c, P c → Q c) → only_runs P m → only_runs Q m.
Proof.
  intros HPQ Hm w. destruct (Hm w) as (new & Hc & HP). exists new.
  split; [done|]. eapply Forall_impl; eauto.
Qed.

(** Take a step of a proof of [only_runs], by the shape of the
    computation. *)
Ltac only_runs_step :=
  match goal with
  | |- only_runs _ (match ?x with _ => _ end) => destruct x
  | |- only_runs _ ((match ?x with _ => _ end) _) => destruct x; cbv beta
  | |- only_runs _ (ret _) => apply only_runs_preserves, preserves_ret
  | |- only_runs _ (raise _) => apply only_runs_preserves, preserves_raise
  | |- only_runs _ get_world => apply only_runs_preserves, preserves_get_world
  | |- only_runs _ (index _ _) => apply only_runs_preserves, preserves_index
  | |- only_runs _ (print _) =>
      apply only_runs_preserves, preserves_print; reflexivity
  | |- only_runs _ (input _) =>
      apply only_runs_preserves, preserves_input; reflexivity
  | |- only_runs _ (bind _ _) => apply only_runs_bind; [|intros ?]
  | |- only_runs _ (try _ _) => apply only_runs_try; [|intros ?]
  | |- only_runs _ (for_each _ _) => apply only_runs_for_each; intros ? _
  | |- only_runs _ (for_fold _ _ _) => apply only_runs_for_fold; intros ? ? _
  end.

Lemma is_listing_ls_args (path : option str) (r : run_result) :
  is_listing (ls_args path, r).
Proof. by exists path. Qed.

Lemma only_runs_list_sd_card_files path :
  only_runs is_listing (list_sd_card_files path).
Proof.
  rewrite list_sd_card_files_unfold.
  apply only_runs_bind.
  - apply only_runs_run_sc64_command. apply is_listing_ls_args.
  - intros [[code out] err]. repeat only_runs_step.
Qed.

Lemma only_runs_get_all_sd_roms_from depth path found :
  only_runs is_listing (get_all_sd_roms_from depth path found).
Proof.
  revert path found. induction depth as [|depth IH]; intros path found; simpl.
  - repeat only_runs_step.
  - apply only_runs_bind; [apply only_runs_list_sd_card_files|].
    intros files. apply only_runs_for_fold. intros s f _.
    case_bool_decide; [apply IH|]. repeat only_runs_step.
Qed.

Lemma only_runs_get_all_sd_roms path :
  only_runs is_listing (get_all_sd_roms path).
Proof.
  unfold get_all_sd_roms. apply only_runs_bind; [repeat only_runs_step|].
  intros w. apply only_runs_get_all_sd_roms_from.
Qed.

(** *** The scan of the card *)

Lemma for_fold_extended {A B} (body : list B → A → M (list B)) (l : list A) :
  (∀ acc x w,
     x ∈ l →
     body acc x w = (extended acc (eval (body [] x) w), exec (body [] x) w)) →
  ∀ acc w,
    for_fold l body acc w
    = (extended acc (eval (for_fold l body []) w),
       exec (for_fold l body []) w).
Proof.
  induction l as [|x l IH]; intros Hbody acc w.
  - simpl. unfold eval, exec, ret. simpl. by rewrite app_nil_r.
  - assert (∀ acc x w, x ∈ l →
              body acc x w
              = (extended acc (eval (body [] x) w), exec (body [] x) w))
      as Hbody' by (intros; apply Hbody; by right).
    cbn [for_fold]. unfold eval at 1, exec at 1, bind.
    rewrite (Hbody acc x w) by by left. unfold eval, exec.
    destruct (body [] x w) as [[roms|e] w1]; cbn [extended fst snd]; [|done].
    rewrite (IH Hbody' (acc ++ roms)), (IH Hbody' roms).
    unfold eval, exec.
    destruct (for_fold l body [] w1) as [[roms'|e] w2];
      cbn [extended fst snd]; [|done].
    by rewrite app_assoc.
Qed.

Lemma get_all_sd_roms_from_extended depth :
  ∀ path found w,
    get_all_sd_roms_from depth path found w
    = (extended found (eval (get_all_sd_roms_from depth path []) w),
       exec (get_all_sd_roms_from depth path []) w).
Proof.
  induction depth as [|depth IH]; intros path found w; [done|].
  cbn [get_all_sd_roms_from]. unfold eval, exec. rewrite !bind_eta.
  destruct (eval (list_sd_card_files path) w) as [files|e]; [|done].
  cbn [fst snd]. apply for_fold_extended. intros acc f w' _.
  case_bool_decide; [apply IH|].
  destruct (is_rom_name (e_name f)); unfold eval, exec, ret; simpl; [done|].
  by rewrite app_nil_r.
Qed.

Lemma returns_get_all_sd_roms_from depth :
  ∀ path found,
    Forall is_rom_entry found →
    returns (Forall is_rom_entry) (get_all_sd_roms_from depth path found).
Proof.
  induction depth as [|depth IH]; intros path found Hfound;
    [apply returns_raise|].
  cbn [get_all_sd_roms_from]. apply returns_seq. intros files.
  apply returns_for_fold; [|done]. intros acc f Hacc.
  case_bool_decide as Hdir; [by apply IH|].
  destruct (is_rom_name (e_name f)) eqn:Hrom; apply returns_ret; [|done].
  apply Forall_app. split; [done|]. by repeat constructor.
Qed.

(** X9.  [get_all_sd_roms] only appends to the list [found] it is given:
    with a list passed in, it returns that list followed by what it returns
    without one, and leaves the same state.  What it collects are entries
    that are not directories and whose name ends in a ROM extension, and it
    runs the deployer for listings alone. *)
Theorem get_all_sd_roms_collects (w : world) (path : option str) :
  (∀ depth found,
     get_all_sd_roms_from depth path found w
     = (extended found (eval (get_all_sd_roms_from depth path []) w),
        exec (get_all_sd_roms_from depth path []) w))
  ∧ (∀ roms,
       eval (get_all_sd_roms path) w = Ok roms → Forall is_rom_entry roms)
  ∧ (∃ new,
       calls (exec (get_all_sd_roms path) w) = calls w ++ new
       ∧ Forall is_listing new).
Proof.
  split; [|split].
  - intros depth found. apply get_all_sd_roms_from_extended.
  - intros roms. unfold get_all_sd_roms, eval, bind, get_world.
    by apply (returns_get_all_sd_roms_from (recursion_limit w) path []).
  - apply only_runs_get_all_sd_roms.
Qed.

Lemma get_all_sd_roms_collects_witness :
  ∃ roms,
    eval (get_all_sd_roms None) cart_world = Ok roms
    ∧ map e_path roms = [txt "/a.Z64"]
    ∧ Forall is_rom_entry roms
    ∧ map fst (calls (exec (get_all_sd_roms None) cart_world))
      = [[txt "sd"; txt "ls"]; [txt "sd"; txt "ls"; txt "/menu"]].
Proof.
  eexists. split; [vm_compute; reflexivity|]. split; [reflexivity|].
  split; [|vm_compute; reflexivity].
  apply (proj1 (proj2 (get_all_sd_roms_collects cart_world None))).
  vm_compute. reflexivity.
Defined.

(** *** The prompts do not run the deployer *)

Lemma preserves_iterate {B S A} (obs : world → B) (fuel : nat)
    (body : S → M (loop_step S A)) s :
  (∀ s, preserves obs (body s)) → preserves obs (iterate fuel body s).
Proof.
  intros Hbody. revert s. induction fuel as [|fuel IH]; intros s; simpl.
  - apply preserves_raise.
  - apply preserves_bind; [apply Hbody|].
    intros [s'|a]; [apply IH | apply preserves_ret].
Qed.

Lemma preserves_input_loop {B S A} (obs : world → B)
    (body : S → M (loop_step S A)) s :
  (∀ s, preserves obs (body s)) → preserves obs (input_loop body s).
Proof. intros Hbody w. unfold input_loop. by apply preserves_iterate. Qed.

Lemma calls_get_choice max_val prompt : preserves calls (get_choice max_val prompt).
Proof.
  apply preserves_input_loop. intros []. unfold get_choice_step. cbv zeta.
  repeat preserves_step.
Qed.

Lemma calls_get_multi_choice max_val prompt :
  preserves calls (get_multi_choice max_val prompt).
Proof.
  apply preserves_input_loop. intros [].
  unfold get_multi_choice_step, collect_choices. cbv zeta.
  repeat preserves_step.
Qed.

Lemma calls_print_header text : preserves calls (print_header text).
Proof. unfold print_header. repeat preserves_step. Qed.

Lemma calls_print_rom_lines roms : preserves calls (print_rom_lines roms).
Proof. unfold print_rom_lines. repeat preserves_step. Qed.

(** Take a step of a proof of [only_runs] in a command: the functions
    the commands are made of, then the shapes.  What is left to show is
    that the predicate allows the runs. *)
Ltac command_step :=
  match goal with
  | |- only_runs _ (print_header _) =>
      apply only_runs_preserves, calls_print_header
  | |- only_runs _ (print_rom_lines _) =>
      apply only_runs_preserves, calls_print_rom_lines
  | |- only_runs _ (get_choice _ _) =>
      apply only_runs_preserves, calls_get_choice
  | |- only_runs _ (get_multi_choice _ _) =>
      apply only_runs_preserves, calls_get_multi_choice
  | |- only_runs _ list_local_roms =>
      apply only_runs_preserves, calls_list_local_roms
  | |- only_runs _ (run_sc64_command _) =>
      apply only_runs_run_sc64_command; intros ?
  | |- only_runs _ check_device_connected => unfold check_device_connected
  | |- only_runs _ is_sd_card_accessible => unfold is_sd_card_accessible
  | |- only_runs _ (list_sd_card_files _) =>
      eapply only_runs_mono; [|apply only_runs_list_sd_card_files]; intros ? ?
  | |- only_runs _ (get_all_sd_roms _) =>
      eapply only_runs_mono; [|apply only_runs_get_all_sd_roms]; intros ? ?
  | |- only_runs _ (input_loop _ _) => apply only_runs_input_loop; intros ?
  | _ => only_runs_step
  end.

Lemma is_inspection_list r : is_inspection ([txt "list"], r).
Proof. by left. Qed.

Lemma is_inspection_info r : is_inspection ([txt "info"], r).
Proof. by right; left. Qed.

Lemma is_inspection_ls r : is_inspection ([txt "sd"; txt "ls"], r).
Proof. right; right. by exists None. Qed.

Lemma is_inspection_listing c : is_listing c → is_inspection c.
Proof. by right; right. Qed.

(** The runs an inspection is made of. *)
Ltac inspections :=
  first [ apply is_inspection_list | apply is_inspection_info
        | apply is_inspection_ls | by apply is_inspection_listing ].

Lemma only_runs_cmd_compare : only_runs is_inspection cmd_compare.
Proof. unfold cmd_compare. cbv zeta. repeat command_step; inspections. Qed.

Lemma only_runs_cmd_status : only_runs is_inspection cmd_status.
Proof. unfold cmd_status. repeat command_step; inspections. Qed.

Lemma only_runs_cmd_list_cart : only_runs is_inspection cmd_list_cart.
Proof.
  unfold cmd_list_cart, list_cart_root. repeat command_step; inspections.
Qed.

Lemma only_runs_cmd_browse_sd : only_runs is_inspection cmd_browse_sd.
Proof.
  unfold cmd_browse_sd. repeat command_step; try inspections.
  unfold browse_step, browse_render, browse_navigate, number_entries.
  cbv zeta. repeat command_step; inspections.
Qed.

Lemma stdin_check_device_connected : preserves stdin check_device_connected.
Proof. unfold check_device_connected. repeat preserves_step. Qed.

Lemma stdin_is_sd_card_accessible : preserves stdin is_sd_card_accessible.
Proof. unfold is_sd_card_accessible. repeat preserves_step. Qed.

Lemma stdin_print_header text : preserves stdin (print_header text).
Proof. unfold print_header. repeat preserves_step. Qed.

Lemma stdin_print_rom_lines roms : preserves stdin (print_rom_lines roms).
Proof. unfold print_rom_lines. repeat preserves_step. Qed.

(** Take a step of a proof that a command reads nothing. *)
Ltac stdin_step :=
  match goal with
  | |- preserves stdin (print_header _) => apply stdin_print_header
  | |- preserves stdin (print_rom_lines _) => apply stdin_print_rom_lines
  | |- preserves stdin check_device_connected =>
      apply stdin_check_device_connected
  | |- preserves stdin is_sd_card_accessible =>
      apply stdin_is_sd_card_accessible
  | |- preserves stdin (list_sd_card_files _) => apply stdin_list_sd_card_files
  | |- preserves stdin (get_all_sd_roms _) => apply stdin_get_all_sd_roms
  | |- preserves stdin list_local_roms => apply stdin_list_local_roms
  | _ => preserves_step
  end.

(** X10.  The commands that report ([cmd_status], [cmd_list_local],
    [cmd_list_cart], [cmd_compare]) and the browser run the deployer only
    to inspect: for the list of devices, for the state of the cart, or for
    the listing of a directory of the card.  [cmd_list_local] does not run
    it at all, and the four that report read nothing from the terminal. *)
Theorem reports_only_inspect :
  only_runs is_inspection cmd_status
  ∧ only_runs is_inspection cmd_list_cart
  ∧ only_runs is_inspection cmd_compare
  ∧ only_runs is_inspection cmd_browse_sd
  ∧ preserves calls cmd_list_local
  ∧ preserves stdin cmd_status
  ∧ preserves stdin cmd_list_local
  ∧ preserves stdin cmd_list_cart
  ∧ preserves stdin cmd_compare.
Proof.
  split_and!.
  - apply only_runs_cmd_status.
  - apply only_runs_cmd_list_cart.
  - apply only_runs_cmd_compare.
  - apply only_runs_cmd_browse_sd.
  - unfold cmd_list_local, print_header, print_rom_lines, list_local_roms.
    repeat preserves_step.
  - unfold cmd_status. repeat stdin_step.
  - unfold cmd_list_local. repeat stdin_step.
  - unfold cmd_list_cart, list_cart_root. repeat stdin_step.
  - apply stdin_cmd_compare.
Qed.

(** *** The uploads *)

Lemma head_rstrip_slash (s t : str) :
  head s = Some "/"%char →
  head (rstrip_char "/"%char s ++ "/"%char :: t) = Some "/"%char.
Proof.
  destruct s as [|c s]; [done|]. intros [= ->]. cbn [rstrip_char].
  by destruct (rstrip_char "/"%char s).
Qed.

Lemma returns_list_local_roms :
  returns (Forall (λ p, is_rom_file p = true)) list_local_roms.
Proof.
  intros w roms. unfold eval, list_local_roms, bind, get_world.
  destruct (roms_dir w) as [children|]; intros [= <-]; [|constructor].
  apply Forall_forall. intros p Hp. rewrite sorted_perm in Hp.
  apply list_elem_of_In, filter_In in Hp. by destruct Hp.
Qed.

Lemma returns_cmd_compare :
  returns (Forall (λ p, is_rom_file p = true)) cmd_compare.
Proof.
  unfold cmd_compare. apply returns_seq. intros _.
  eapply returns_bind; [apply returns_list_local_roms|].
  intros local_roms Hlocal.
  destruct (bool_decide _); [apply returns_seq; intros _; by apply returns_ret|].
  apply returns_seq. intros accessible.
  destruct (negb accessible).
  { do 4 (apply returns_seq; intros _). by apply returns_ret. }
  apply returns_seq. intros _. apply returns_seq. intros sd_roms.
  cbv zeta. apply returns_seq. intros _. rewrite split_by_cart_filter.
  apply returns_seq. intros _.
  destruct (bool_decide _); [apply returns_seq; intros _; by apply returns_ret|].
  do 2 (apply returns_seq; intros _). apply returns_ret.
  apply Forall_forall. intros p Hp. apply list_elem_of_In, filter_In in Hp.
  destruct Hp as [Hp _]. apply list_elem_of_In in Hp.
  by eapply Forall_forall in Hlocal.
Qed.

(** * The files that are uploaded *)

Lemma list_local_roms_from (w0 w : world) :
  disk w = disk w0 → list_local_roms w = (Ok (local_roms w0), w).
Proof.
  unfold disk. intros [= Hscript Hwin Hroms].
  unfold local_roms, eval, list_local_roms, bind, get_world, LOCAL_ROMS_DIR,
    joinpath, sep.
  rewrite Hscript, Hwin, Hroms. by destruct (roms_dir w0).
Qed.

Lemma runs_from_only_runs (w0 : world) P {A} (m : M A) :
  only_runs P m → runs_from w0 P m.
Proof. intros Hm w _. apply Hm. Qed.

Lemma returns_from_returns (w0 : world) {A} (Q : A → Prop) (m : M A) :
  returns Q m → returns_from w0 Q m.
Proof. intros Hm w a _. apply Hm. Qed.

(** A step that leaves the disk as it is, before a computation that
    depends on the disk. *)
Lemma runs_from_bind (w0 : world) P {A B} (m : M A) (k : A → M B) :
  preserves disk m → only_runs P m →
  (∀ a, runs_from w0 P (k a)) →
  runs_from w0 P (bind m k).
Proof.
  intros Hdisk Hm Hk w Hw. destruct (Hm w) as (new1 & Hc1 & Hnew1).
  unfold exec. rewrite bind_eta.
  destruct (eval m w) as [a|e]; cbn [snd]; [|by exists new1].
  destruct (Hk a (exec m w)) as (new2 & Hc2 & Hnew2);
    [by rewrite (Hdisk w)|].
  exists (new1 ++ new2). unfold exec in *.
  split; [by rewrite Hc2, Hc1, app_assoc | by apply Forall_app].
Qed.

(** A computation that depends on the disk, before one that does not. *)
Lemma runs_from_then (w0 : world) P {A B} (R : A → Prop) (m : M A)
    (k : A → M B) :
  runs_from w0 P m → returns_from w0 R m →
  (∀ a, R a → only_runs P (k a)) →
  runs_from w0 P (bind m k).
Proof.
  intros Hm Hr Hk w Hw. destruct (Hm w Hw) as (new1 & Hc1 & Hnew1).
  unfold exec. rewrite bind_eta.
  destruct (eval m w) as [a|e] eqn:Ha; cbn [snd]; [|by exists new1].
  destruct (Hk a (Hr w a Hw Ha) (exec m w)) as (new2 & Hc2 & Hnew2).
  exists (new1 ++ new2). unfold exec in *.
  split; [by rewrite Hc2, Hc1, app_assoc | by apply Forall_app].
Qed.

Lemma runs_from_list_local_roms (w0 : world) P :
  runs_from w0 P list_local_roms.
Proof.
  intros w Hw. exists []. unfold exec.
  rewrite (list_local_roms_from w0 w Hw). cbn [snd].
  by rewrite app_nil_r.
Qed.

Lemma returns_from_list_local_roms (w0 : world) :
  returns_from w0 (λ roms, roms = local_roms w0) list_local_roms.
Proof.
  intros w a Hw. unfold eval. rewrite (list_local_roms_from w0 w Hw).
  by intros [= <-].
Qed.

Lemma returns_from_bind (w0 : world) {A B} (R : A → Prop) (Q : B → Prop)
    (m : M A) (k : A → M B) :
  preserves disk m → returns_from w0 R m →
  (∀ a, R a → returns_from w0 Q (k a)) →
  returns_from w0 Q (bind m k).
Proof.
  intros Hdisk Hm Hk w b Hw. unfold eval. rewrite bind_eta.
  destruct (eval m w) as [a|e] eqn:Ha; [|done].
  apply (Hk a (Hm w a Hw Ha)). by rewrite (Hdisk w).
Qed.

Lemma disk_print_header (text : str) : preserves disk (print_header text).
Proof. unfold print_header. repeat preserves_step. Qed.

Lemma disk_check_device_connected : preserves disk check_device_connected.
Proof. unfold check_device_connected. repeat preserves_step. Qed.

Lemma disk_is_sd_card_accessible : preserves disk is_sd_card_accessible.
Proof. unfold is_sd_card_accessible. repeat preserves_step. Qed.

Lemma disk_list_local_roms : preserves disk list_local_roms.
Proof. unfold list_local_roms. repeat preserves_step. Qed.

(** [cmd_compare] returns files of the local ROM directory. *)
Lemma returns_from_cmd_compare (w0 : world) :
  returns_from w0 (Forall (λ p, p ∈ local_roms w0)) cmd_compare.
Proof.
  unfold cmd_compare.
  eapply returns_from_bind;
    [apply disk_print_header | apply returns_from_returns, returns_any|].
  intros _ _.
  eapply returns_from_bind;
    [apply disk_list_local_roms | apply returns_from_list_local_roms|].
  intros roms ->. apply returns_from_returns.
  assert (Forall (λ p, p ∈ local_roms w0) (local_roms w0)) as Hall
    by by apply Forall_forall.
  destruct (bool_decide _);
    [apply returns_seq; intros _; by apply returns_ret|].
  apply returns_seq. intros accessible.
  destruct (negb accessible).
  { do 4 (apply returns_seq; intros _). by apply returns_ret. }
  apply returns_seq. intros _. apply returns_seq. intros sd_roms.
  cbv zeta. apply returns_seq. intros _. rewrite split_by_cart_filter.
  apply returns_seq. intros _.
  destruct (bool_decide _);
    [apply returns_seq; intros _; by apply returns_ret|].
  do 2 (apply returns_seq; intros _). apply returns_ret.
  apply Forall_forall. intros p Hp. apply list_elem_of_In, filter_In in Hp.
  destruct Hp as [Hp _]. by apply list_elem_of_In in Hp.
Qed.

Lemma only_runs_upload_of (roms : list Path) (rom : Path) (sd_path : str) :
  rom ∈ roms → head sd_path = Some "/"%char →
  only_runs (λ c, is_inspection c ∨ is_upload_of roms c)
    (upload_rom_to_sd rom sd_path).
Proof.
  intros Hrom Hpath. unfold upload_rom_to_sd. cbv zeta.
  repeat command_step. right.
  exists rom, (rstrip_char "/"%char sd_path ++ txt "/" ++ p_name rom).
  split; [done|]. split; [done|].
  split; [by apply head_rstrip_slash|].
  apply endswith_app. by eexists.
Qed.

Lemma only_runs_widened (roms : list Path) {A} (m : M A) :
  only_runs is_inspection m →
  only_runs (λ c, is_inspection c ∨ is_upload_of roms c) m.
Proof. apply only_runs_mono. by left. Qed.

(** The part of [cmd_upload] that follows the comparison. *)
Lemma only_runs_upload_missing (roms missing : list Path) :
  Forall (λ p, p ∈ roms) missing →
  only_runs (λ c, is_inspection c ∨ is_upload_of roms c)
    (if bool_decide (missing = []) then ret tt else
     print (nl :: txt "Which ROMs would you like to upload?") ;;
     do choices <-
       get_multi_choice (Z.of_nat (length missing)) (txt "Select ROMs");
     if bool_decide (choices = []) then print (txt "Upload cancelled.") else
     print (nl :: txt "Upload destination on SD card:") ;;
     print (txt "  [1] Root directory (/)") ;;
     print (txt "  [2] Custom path") ;;
     do dest_choice <- get_choice 2 (txt "Choose destination");
     if dest_choice =? 0 then print (txt "Upload cancelled.") else
     do dest_path <-
       (if dest_choice =? 2 then
          do line <- input (txt "Enter SD card path (e.g. /roms): ");
          let dest_path := strip line in
          if negb (startswith dest_path (txt "/"))
          then ret (txt "/" ++ dest_path)
          else ret dest_path
        else ret (txt "/"));
     upload_selected missing dest_path choices).
Proof.
  intros Hmissing. cbv zeta.
  destruct (bool_decide _); [repeat command_step|].
  do 2 (apply only_runs_bind; [repeat command_step|intros ?]).
  destruct (bool_decide _); [repeat command_step|].
  do 4 (apply only_runs_bind; [repeat command_step|intros ?]).
  destruct (_ =? 0); [repeat command_step|].
  eapply (only_runs_bind_returns _ (λ d, head d = Some "/"%char)).
  { repeat command_step. }
  { destruct (_ =? 2); [|by apply returns_ret].
    apply returns_seq. intros line.
    destruct (startswith (strip line) (txt "/")) eqn:Hstart; cbn [negb];
      apply returns_ret; [|done].
    change (txt "/") with ["/"%char] in Hstart.
    rewrite startswith_char in Hstart. by apply bool_decide_eq_true in Hstart. }
  intros dest_path Hdest. unfold upload_selected.
  apply only_runs_bind; [repeat command_step|intros _].
  apply only_runs_bind; [|intros ?; repeat command_step].
  apply only_runs_for_fold. intros success_count idx _.
  eapply only_runs_bind_returns;
    [repeat command_step | apply returns_index|].
  intros rom Hrom. apply only_runs_bind; [|intros ?; repeat command_step].
  apply only_runs_upload_of; [|done]. by eapply Forall_forall in Hmissing.
Qed.

Lemma runs_from_cmd_upload (w0 : world) :
  runs_from w0 (λ c, is_inspection c ∨ is_upload_of (local_roms w0) c)
    cmd_upload.
Proof.
  unfold cmd_upload.
  apply runs_from_bind;
    [apply disk_print_header | repeat command_step | intros _].
  apply runs_from_bind;
    [apply disk_check_device_connected
    |repeat command_step; left; inspections | intros connected].
  destruct (negb connected);
    [apply runs_from_only_runs; repeat command_step|].
  apply runs_from_bind;
    [apply disk_is_sd_card_accessible
    |repeat command_step; left; inspections | intros accessible].
  destruct (negb accessible);
    [apply runs_from_only_runs; repeat command_step|].
  eapply runs_from_then;
    [apply runs_from_only_runs, only_runs_widened, only_runs_cmd_compare
    |apply returns_from_cmd_compare|].
  intros missing Hmissing. by apply only_runs_upload_missing.
Qed.

Lemma runs_from_cmd_quick_upload (w0 : world) :
  runs_from w0 (λ c, is_inspection c ∨ is_upload_of (local_roms w0) c)
    cmd_quick_upload.
Proof.
  unfold cmd_quick_upload.
  apply runs_from_bind;
    [apply disk_print_header | repeat command_step | intros _].
  apply runs_from_bind;
    [apply disk_check_device_connected
    |repeat command_step; left; inspections | intros connected].
  destruct (negb connected);
    [apply runs_from_only_runs; repeat command_step|].
  apply runs_from_bind;
    [apply disk_is_sd_card_accessible
    |repeat command_step; left; inspections | intros accessible].
  destruct (negb accessible);
    [apply runs_from_only_runs; repeat command_step|].
  eapply runs_from_then;
    [apply runs_from_list_local_roms | apply returns_from_list_local_roms|].
  intros roms ->.
  destruct (bool_decide _); [repeat command_step|].
  do 3 (apply only_runs_bind; [repeat command_step|intros ?]).
  destruct (bool_decide _); [repeat command_step|].
  unfold quick_upload_selected.
  apply only_runs_bind; [repeat command_step|intros _].
  apply only_runs_for_each. intros idx _.
  eapply only_runs_bind_returns;
    [repeat command_step | apply returns_index|].
  intros rom Hrom. apply only_runs_bind; [|intros ?; repeat command_step].
  by apply only_runs_upload_of.
Qed.

Lemma local_roms_are_roms (w : world) :
  Forall (λ rom, is_rom_file rom = true) (local_roms w).
Proof.
  unfold local_roms. destruct (eval list_local_roms w) as [roms|e] eqn:Hroms;
    [|constructor].
  by apply (returns_list_local_roms w).
Qed.

(** X11.  [cmd_upload] and [cmd_quick_upload] run the deployer only to
    inspect, or to upload one of the files that [list_local_roms] returns
    in the world they start in (files of the local ROM directory that have
    a ROM extension), under its own name, to a path of the card that starts
    with a slash. *)
Theorem uploads_only_upload_roms (w : world) :
  (∃ new,
     calls (exec cmd_upload w) = calls w ++ new
     ∧ Forall (λ c, is_inspection c ∨ is_upload_of (local_roms w) c) new)
  ∧ (∃ new,
       calls (exec cmd_quick_upload w) = calls w ++ new
       ∧ Forall (λ c, is_inspection c ∨ is_upload_of (local_roms w) c) new)
  ∧ eval list_local_roms w = Ok (local_roms w)
  ∧ Forall (λ rom, is_rom_file rom = true) (local_roms w).
Proof.
  split; [by apply (runs_from_cmd_upload w w)|].
  split; [by apply (runs_from_cmd_quick_upload w w)|].
  split; [|apply local_roms_are_roms].
  unfold eval. by rewrite (list_local_roms_from w w).
Qed.

(** * The page loop of the menu update *)

Lemma returns_iterate_inv {S A} (I : S → Prop) (Q : A → Prop)
    (body : S → M (loop_step S A)) (fuel : nat) (s : S) :
  (∀ s, I s →
        returns (λ r, match r with Continue s' => I s' | Return a => Q a end)
          (body s)) →
  I s → returns Q (iterate fuel body s).
Proof.
  intros Hbody. revert s. induction fuel as [|fuel IH]; intros s Hs; simpl.
  - apply returns_raise.
  - eapply returns_bind; [by apply Hbody|].
    intros [s'|a] Hr; [by apply IH | by apply returns_ret].
Qed.

Lemma returns_index_lookup {A} (l : list A) (i : Z) :
  0 ≤ i → returns (λ x, l !! Z.to_nat i = Some x) (index l i).
Proof.
  intros Hi w a. unfold eval, index.
  replace (i <? 0) with false by lia. destruct (_ || _); [done|].
  destruct (l !! _) as [x|] eqn:Hx; [|done]. by intros [= <-].
Qed.

Lemma slice_lookup {A} (a b : Z) (l : list A) (i : nat) (x : A) :
  0 ≤ a → slice a b l !! i = Some x →
  l !! Z.to_nat (a + Z.of_nat i) = Some x ∧ Z.of_nat i < b - a.
Proof.
  intros Ha. unfold slice. rewrite lookup_take_Some, lookup_drop.
  intros [Hx Hi]. replace (Z.to_nat (a + Z.of_nat i)) with (Z.to_nat a + i)%nat
    by lia. split; [done|lia].
Qed.

Lemma select_menu_step_returns (menu_versions : list Path) (current_page : Z) :
  0 ≤ current_page < page_count menu_versions →
  returns
    (λ r, match r with
          | Continue page => 0 ≤ page < page_count menu_versions
          | Return (Some selected) =>
              ∃ choice,
                1 ≤ choice ≤ 9
                ∧ menu_versions !! Z.to_nat (current_page * 9 + choice - 1)
                  = Some selected
          | Return None => True
          end)
    (select_menu_step menu_versions current_page).
Proof.
  intros Hpage. unfold select_menu_step. cbv zeta.
  fold (page_count menu_versions).
  do 2 (apply returns_seq; intros _). apply returns_seq.
  intros [user_input|]; [|by apply returns_ret].
  destruct (bool_decide (user_input = txt "0"));
    [apply returns_seq; intros _; by apply returns_ret|].
  destruct (bool_decide (user_input = txt "p") && (0 <? current_page))
    eqn:Hprev.
  { apply returns_ret. apply andb_true_iff in Hprev as [_ Hprev]. lia. }
  destruct (bool_decide (user_input = txt "n")
            && (current_page <? page_count menu_versions - 1)) eqn:Hnext.
  { apply returns_ret. apply andb_true_iff in Hnext as [_ Hnext]. lia. }
  destruct (py_int user_input) as [choice|];
    [|apply returns_seq; intros _; by apply returns_ret].
  destruct ((1 <=? choice) && (choice <=? _)) eqn:Hchoice;
    [|apply returns_seq; intros _; by apply returns_ret].
  apply andb_true_iff in Hchoice as [Hlow Hhigh].
  eapply returns_bind; [apply returns_index_lookup; lia|].
  intros selected Hsel. apply returns_ret.
  apply slice_lookup in Hsel as [Hsel Hlt]; [|lia].
  exists choice. split; [lia|]. rewrite <- Hsel. f_equal. lia.
Qed.

(** The menu a round of the page loop ends with is the entry of the page
    that has the number typed. *)
Lemma select_menu_step_typed (menu_versions : list Path) (current_page : Z)
    (w : world) (selected : Path) :
  0 ≤ current_page →
  eval (select_menu_step menu_versions current_page) w
  = Ok (Return (Some selected)) →
  ∃ line rest choice,
    stdin w = Line line :: rest
    ∧ py_int (lower (strip line)) = Some choice
    ∧ 1 ≤ choice ≤ 9
    ∧ menu_versions !! Z.to_nat (current_page * 9 + choice - 1)
      = Some selected.
Proof.
  intros Hpage. unfold eval.
  destruct (select_menu_step menu_versions current_page w) as [res w'] eqn:Hrun.
  cbn [fst]. revert Hrun. unfold select_menu_step. cbv zeta.
  do 2 run_prints.
  match goal with
  | |- bind (try (bind (input ?prompt) _) _) _ ?w0 = _ → _ =>
      set (W := w0); assert (stdin W = stdin w) as HinW by reflexivity;
      set (pr := prompt)
  end.
  clearbody W.
  destruct (stdin w) as [|[line|] rest] eqn:Hin.
  - unfold bind at 1, try at 1, bind at 1, input at 1. rewrite HinW.
    cbv beta iota. by intros [= <- _].
  - assert (try (do line <- input pr; ret (Some (lower (strip line))))
              (λ e, match e with
                    | KeyboardInterrupt =>
                        print [] ;; print (txt "Update cancelled.") ;; ret None
                    | _ => raise e
                    end) W
            = (Ok (Some (lower (strip line))),
               set_stdin rest (set_stdout (stdout W ++ [Prompt pr]) W)))
      as Htry.
    { apply try_ok. by rewrite (bind_ok _ _ _ _ _ (input_line _ line rest W HinW)). }
    rewrite (bind_ok _ _ _ _ _ Htry). clear Htry.
    destruct (bool_decide (lower (strip line) = txt "0"));
      [unfold bind, print, ret; by intros [= <- _]|].
    destruct (_ && _); [unfold ret; by intros [= <- _]|].
    destruct (_ && _); [unfold ret; by intros [= <- _]|].
    destruct (py_int (lower (strip line))) as [choice|] eqn:Hchoice;
      [|unfold bind, print, ret; by intros [= <- _]].
    destruct ((1 <=? choice) && (choice <=? _)) eqn:Hrange;
      [|unfold bind, print, ret; by intros [= <- _]].
    apply andb_true_iff in Hrange as [Hlow Hhigh].
    intros Hrun ->. apply bind_inv in Hrun as (item & w1 & Hitem & Hret).
    unfold ret in Hret. injection Hret as <- _.
    pose proof (returns_index_lookup _ (choice - 1) ltac:(lia) _ item
                  ltac:(unfold eval; by rewrite Hitem)) as Hsel.
    apply slice_lookup in Hsel as [Hsel Hlt]; [|lia].
    exists line, rest, choice. split; [done|]. split; [done|].
    split; [lia|]. rewrite <- Hsel. f_equal. lia.
  - unfold bind at 1, try at 1, bind at 1, input at 1. rewrite HinW.
    cbv beta iota. unfold bind, print, ret. by intros [= <- _].
Qed.

(** X12.  The page loop of [cmd_update_menu] stays on the pages there
    are, and the menu it selects is the one the user asked for: one
    iteration on a valid page either goes on with a valid page, or ends
    with the entry that has, among the nine of the page, the number read
    from the line the user typed.  So the loop as a whole, started on the
    first page of a list with entries, only ever selects an entry of the
    list. *)
Theorem select_menu_step_pages (menu_versions : list Path) :
  (∀ current_page,
     0 ≤ current_page < page_count menu_versions →
     returns
       (λ r, match r with
             | Continue page => 0 ≤ page < page_count menu_versions
             | Return _ => True
             end)
       (select_menu_step menu_versions current_page))
  ∧ (∀ current_page w selected,
       0 ≤ current_page →
       eval (select_menu_step menu_versions current_page) w
       = Ok (Return (Some selected)) →
       ∃ line rest choice,
         stdin w = Line line :: rest
         ∧ py_int (lower (strip line)) = Some choice
         ∧ 1 ≤ choice ≤ 9
         ∧ menu_versions !! Z.to_nat (current_page * 9 + choice - 1)
           = Some selected)
  ∧ (menu_versions ≠ [] →
     returns (λ selection, ∀ selected_menu,
                selection = Some selected_menu →
                selected_menu ∈ menu_versions)
       (input_loop (select_menu_step menu_versions) 0)).
Proof.
  split; [|split; [apply select_menu_step_typed|]].
  { intros current_page Hpage. eapply returns_mono;
      [|by apply select_menu_step_returns].
    by intros [page|selection]. }
  intros Hne.
  assert (∀ fuel,
            returns (λ selection, ∀ selected_menu,
                       selection = Some selected_menu →
                       selected_menu ∈ menu_versions)
              (iterate fuel (select_menu_step menu_versions) 0)) as Hloop.
  { intros fuel.
    apply (returns_iterate_inv (λ page, 0 ≤ page < page_count menu_versions)).
    - intros page Hpage. eapply returns_mono;
        [|by apply select_menu_step_returns].
      intros [page'|[selected|]]; [done| |done].
      intros (choice & _ & Hsel) ? [= <-]. by eapply list_elem_of_lookup_2.
    - unfold page_count. destruct menu_versions as [|m l]; [done|].
      cbn [length]. split; [done|]. apply Z.div_str_pos. lia. }
  intros w selection. apply Hloop.
Qed.

Lemma select_menu_step_pages_witness :
  twelve_menus ≠ []
  ∧ ∃ selected,
      eval (input_loop (select_menu_step twelve_menus) 0) menu_files_world
      = Ok (Some selected)
      ∧ p_name selected = txt "menu21.z64"
      ∧ selected ∈ twelve_menus.
Proof.
  assert (twelve_menus ≠ []) as Hne by (intros H; vm_compute in H; discriminate H).
  split; [exact Hne|]. eexists. split; [vm_compute; reflexivity|].
  split; [reflexivity|].
  eapply (proj2 (proj2 (select_menu_step_pages twelve_menus)) Hne
            menu_files_world);
    [|reflexivity].
  vm_compute. reflexivity.
Defined.

(** * The browser *)

(** Decide the comparisons of integers in the goal. *)
Ltac decide_comparisons :=
  repeat match goal with
    | |- context [?a <=? ?b] => destruct (Z.leb_spec a b)
    | |- context [?a <? ?b] => destruct (Z.ltb_spec a b)
    end;
  cbn [andb].

Lemma number_entries_run (line_of : Z → sd_entry → str)
    (entries : list sd_entry) :
  ∀ (idx : Z) (m : gmap Z sd_entry) (w : world),
    ∃ m' out,
      number_entries line_of entries (idx, m) w
      = (Ok (idx + Z.of_nat (length entries), m'),
         set_stdout (stdout w ++ out) w)
      ∧ ∀ i, m' !! i
             = if (idx <=? i) && (i <? idx + Z.of_nat (length entries))
               then entries !! Z.to_nat (i - idx)
               else m !! i.
Proof.
  unfold number_entries.
  induction entries as [|f entries IH]; intros idx m w.
  - exists m, []. split.
    + cbn [for_fold length]. unfold ret.
      by rewrite Z.add_0_r, app_nil_r, set_stdout_same.
    + intros i. cbn [length]. decide_comparisons; [lia|done..].
  - cbn [for_fold].
    destruct (IH (idx + 1) (<[idx := f]> m)
                (set_stdout (stdout w ++ [Print (line_of idx f)]) w))
      as (m' & out & Hrun & Hm').
    exists m', (Print (line_of idx f) :: out). split.
    + unfold bind at 1. unfold bind at 1, print at 1, ret at 1.
      cbv beta iota. rewrite Hrun. cbn [stdout set_stdout length]. f_equal.
      * f_equal. f_equal. lia.
      * rewrite set_stdout_twice. by rewrite <- app_assoc.
    + intros i. rewrite Hm'. cbn [length].
      destruct (decide (i = idx)) as [->|Hne].
      * rewrite lookup_insert. replace (idx - idx) with 0 by lia.
        decide_comparisons; try lia. by rewrite decide_True.
      * rewrite lookup_insert_ne by done.
        decide_comparisons; try lia; try done.
        replace (Z.to_nat (i - idx)) with (S (Z.to_nat (i - (idx + 1))))
          by lia.
        done.
Qed.

Lemma listed_count (files : list sd_entry) :
  Forall listed files →
  length (shown_order files) = length files.
Proof.
  intros Hfiles. unfold shown_order.
  rewrite length_app, !(Permutation_length (sorted_perm _ _)).
  induction Hfiles as [|f files [[Hdir|Hfile] _] _ IH]; [done|..];
    cbn [List.filter length].
  - rewrite Hdir. rewrite bool_decide_eq_true_2 by done.
    rewrite bool_decide_eq_false_2 by done. cbn [length]. lia.
  - rewrite Hfile. rewrite bool_decide_eq_false_2 by done.
    rewrite bool_decide_eq_true_2 by done. cbn [length]. lia.
Qed.

Lemma bind_print_ret {A B} (s : str) (x : A) (k : A → M B) (w : world) :
  bind (print s ;; ret x) k w = k x (set_stdout (stdout w ++ [Print s]) w).
Proof. reflexivity. Qed.

Lemma bind_assoc {A B C} (m : M A) (f : A → M B) (k : B → M C) (w : world) :
  bind (bind m f) k w = bind m (λ a, bind (f a) k) w.
Proof. unfold bind. by destruct (m w) as [[a|e] w']. Qed.

(** What showing a listing does: the state after it, and the state of
    the world after it, for the listing the deployer gives. *)
Lemma browse_render_run (st : browse_state) (w : world) :
  match eval (list_sd_card_files (browse_arg st)) w with
  | Raise e => eval (browse_render st) w = Raise e
  | Ok files =>
      ∃ item_map' out,
        browse_render st w
        = (Ok (mkBrowse (current_path st) (history st) item_map'),
           set_stdout (stdout w ++ out)
             (exec (list_sd_card_files (browse_arg st)) w))
        ∧ (files = [] → item_map' = item_map st)
        ∧ (files ≠ [] →
           ∃ m, item_map' = Some m
                ∧ ∀ i, m !! i = if 1 <=? i
                                then shown_order files !! Z.to_nat (i - 1)
                                else None)
  end.
Proof.
  unfold eval at 2. unfold browse_render. cbv zeta. fold (browse_arg st).
  do 4 run_prints.
  run_quiet (quiet_list_sd_card_files (browse_arg st)).
  destruct (eval (list_sd_card_files (browse_arg st)) w) as [files|e];
    [|done].
  set (w1 := exec (list_sd_card_files (browse_arg st)) w). clearbody w1.
  destruct (decide (files = [])) as [->|Hfiles].
  - rewrite bool_decide_eq_true_2 by done. rewrite bind_print_ret.
    rewrite ?set_stdout_twice, ?stdout_set_stdout.
    repeat run_prints. unfold ret. rewrite <- !app_assoc.
    eexists _, _. split; [reflexivity|]. split; [done|done].
  - rewrite !(bool_decide_eq_false_2 (files = [])) by done.
    set (dirs := sorted _ (List.filter (λ f, bool_decide (e_type f = txt "dir")) files)).
    set (regs := sorted _ (List.filter (λ f, bool_decide (e_type f = txt "file")) files)).
    rewrite bind_assoc.
    match goal with
    | |- context [bind (number_entries ?line_of dirs (1, ∅)) _ ?w0] =>
        destruct (number_entries_run line_of dirs 1 ∅ w0)
          as (m1 & nums1 & Hrun1 & Hm1)
    end.
    rewrite (bind_ok _ _ _ _ _ Hrun1). cbv beta. rewrite bind_assoc.
    match goal with
    | |- context [bind (number_entries ?line_of regs (?idx, m1)) _ ?w0] =>
        destruct (number_entries_run line_of regs idx m1 w0)
          as (m2 & nums2 & Hrun2 & Hm2)
    end.
    rewrite (bind_ok _ _ _ _ _ Hrun2). cbv beta. unfold bind at 1, ret at 1.
    cbv beta iota. cbn [snd].
    rewrite ?set_stdout_twice, ?stdout_set_stdout.
    repeat run_prints. unfold ret. rewrite <- !app_assoc.
    eexists _, _. split; [reflexivity|]. split; [done|].
    intros _. exists m2. split; [done|]. intros i. rewrite Hm2, Hm1.
    unfold shown_order. fold dirs regs. rewrite lookup_empty.
    decide_comparisons; try lia; try done.
    + rewrite lookup_app_r by lia. f_equal. lia.
    + symmetry. apply lookup_ge_None. rewrite length_app. lia.
    + by rewrite lookup_app_l by lia.
Qed.

(** X13.  When the listing of the current directory has entries, the
    browser numbers them from 1: the directories in the order of their
    lowercased names, then the files in the order of theirs; the numbers
    go up to the number of entries, and no other number selects anything.
    When the listing has no entry, the numbering of the listing shown
    before stays in place.  The path and the history are as they were. *)
Theorem browse_render_numbers (st : browse_state) (w : world)
    (files : list sd_entry) :
  eval (list_sd_card_files (browse_arg st)) w = Ok files →
  ∃ st',
    eval (browse_render st) w = Ok st'
    ∧ current_path st' = current_path st
    ∧ history st' = history st
    ∧ (files = [] → item_map st' = item_map st)
    ∧ (files ≠ [] →
       ∃ m, item_map st' = Some m
            ∧ (∀ i, m !! i = if 1 <=? i
                             then shown_order files !! Z.to_nat (i - 1)
                             else None)
            ∧ length (shown_order files) = length files).
Proof.
  intros Hfiles. pose proof (browse_render_run st w) as Hrun.
  rewrite Hfiles in Hrun.
  destruct Hrun as (item_map' & out & Hrun & Hempty & Hnumbers).
  eexists. unfold eval. rewrite Hrun. cbn [fst current_path history item_map].
  split; [done|]. split; [done|]. split; [done|]. split; [done|].
  intros Hne. destruct (Hnumbers Hne) as (m & -> & Hm). exists m.
  split; [done|]. split; [done|].
  apply listed_count. by eapply list_sd_card_files_listed.
Qed.

Lemma browse_render_numbers_witness :
  ∃ st' m,
    eval (browse_render (mkBrowse (txt "/") [] None)) cart_world = Ok st'
    ∧ item_map st' = Some m
    ∧ e_name <$> m !! 1 = Some (txt "/menu")
    ∧ e_name <$> m !! 2 = Some (txt "a.Z64")
    ∧ m !! 3 = None.
Proof.
  destruct (browse_render_numbers (mkBrowse (txt "/") [] None) cart_world _
              eq_refl) as (st' & Hrun & _ & _ & _ & Hnumbers).
  destruct Hnumbers as (m & Hm & Hlookup & _); [discriminate|].
  exists st', m. split; [exact Hrun|]. split; [exact Hm|].
  rewrite !Hlookup. by vm_compute.
Defined.

Lemma not_the_letter_b (choice : str) (num : Z) :
  py_int choice = Some num → choice ≠ txt "b".
Proof. intros Hnum ->. vm_compute in Hnum. discriminate Hnum. Qed.

Lemma browse_navigate_unbound (st : browse_state) (w : world) (line : str)
    (rest : list stdin_event) (num : Z) :
  stdin w = Line line :: rest →
  py_int (lower (strip line)) = Some num →
  (lower (strip line) = txt "0" → current_path st = txt "/") →
  item_map st = None →
  eval (browse_navigate st) w = Raise UnboundLocalError.
Proof.
  intros Hin Hnum Hzero Hmap.
  unfold eval, browse_navigate, try at 1.
  rewrite (bind_ok _ _ _ _ _ (input_line _ line rest w Hin)). cbv zeta.
  rewrite (bool_decide_eq_false_2 _ (not_the_letter_b _ _ Hnum)).
  assert (bool_decide (lower (strip line) = txt "0")
          && negb (bool_decide (current_path st = txt "/")) = false) as ->.
  { case_bool_decide; [|done]. by rewrite bool_decide_eq_true_2 by auto. }
  unfold try. by rewrite Hnum, Hmap.
Qed.

Lemma browse_navigate_enter (st : browse_state) (w : world) (line : str)
    (rest : list stdin_event) (num : Z) (items : gmap Z sd_entry)
    (item : sd_entry) :
  stdin w = Line line :: rest →
  py_int (lower (strip line)) = Some num →
  (lower (strip line) = txt "0" → current_path st = txt "/") →
  item_map st = Some items → items !! num = Some item →
  e_type item = txt "dir" →
  eval (browse_navigate st) w
  = Ok (Continue (mkBrowse (enter_path (current_path st) item)
                    (history st ++ [current_path st]) (item_map st))).
Proof.
  intros Hin Hnum Hzero Hmap Hitem Hdir.
  unfold eval, browse_navigate, try at 1.
  rewrite (bind_ok _ _ _ _ _ (input_line _ line rest w Hin)). cbv zeta.
  rewrite (bool_decide_eq_false_2 _ (not_the_letter_b _ _ Hnum)).
  assert (bool_decide (lower (strip line) = txt "0")
          && negb (bool_decide (current_path st = txt "/")) = false) as ->.
  { case_bool_decide; [|done]. by rewrite bool_decide_eq_true_2 by auto. }
  unfold try. rewrite Hnum, Hmap, Hitem.
  by rewrite (bool_decide_eq_true_2 _ Hdir).
Qed.

(** One iteration of the browser on a directory whose listing has no
    entry: what is shown, then the choice, with the numbering there was
    before. *)
Lemma browse_step_empty (st : browse_state) (w : world) :
  eval (list_sd_card_files (browse_arg st)) w = Ok [] →
  ∃ out,
    browse_step st w
    = browse_navigate st
        (set_stdout (stdout w ++ out)
           (exec (list_sd_card_files (browse_arg st)) w)).
Proof.
  intros Hfiles. pose proof (browse_render_run st w) as Hrun.
  rewrite Hfiles in Hrun.
  destruct Hrun as (item_map' & out & Hrun & Hempty & _).
  rewrite (Hempty eq_refl) in Hrun. exists out. unfold browse_step.
  rewrite (bind_ok _ _ _ _ _ Hrun). by destruct st.
Qed.

Lemma stdin_after_listing (path : option str) (v : list out_event) (w : world) :
  stdin (set_stdout v (exec (list_sd_card_files path) w)) = stdin w.
Proof. apply (stdin_list_sd_card_files path w). Qed.

(** X14.  When the first listing the browser asks for has no entry (the
    card answered the probe, but not this listing) and the user types a
    number, [cmd_browse_sd] raises [UnboundLocalError]: [item_map] has not
    been assigned, and the error is none of those the loop catches. *)
Theorem cmd_browse_sd_unbound_item_map (w : world) (line : str)
    (rest : list stdin_event) (num : Z) :
  eval check_device_connected w = Ok true →
  eval is_sd_card_accessible (exec check_device_connected w) = Ok true →
  eval (list_sd_card_files None)
    (exec is_sd_card_accessible (exec check_device_connected w)) = Ok [] →
  stdin w = Line line :: rest →
  py_int (lower (strip line)) = Some num →
  eval cmd_browse_sd w = Raise UnboundLocalError.
Proof.
  intros Hconn Hacc Hfiles Hin Hnum.
  set (w2 := exec is_sd_card_accessible (exec check_device_connected w)) in *.
  assert (stdin w2 = Line line :: rest) as Hin2.
  { subst w2. by rewrite is_sd_card_accessible_exec, check_device_connected_exec. }
  unfold eval, cmd_browse_sd. run_prints.
  run_quiet quiet_check_device_connected. rewrite Hconn. cbn [negb].
  run_quiet quiet_is_sd_card_accessible. rewrite Hacc. cbn [negb].
  fold w2. clearbody w2. set (st := mkBrowse (txt "/") [] None).
  set (w3 := set_stdout (stdout w ++ out) w2).
  assert (eval (list_sd_card_files (browse_arg st)) w3 = Ok []) as Hfiles3.
  { assert (browse_arg st = None) as -> by reflexivity.
    unfold eval, w3. rewrite (quiet_list_sd_card_files _ _ w2). cbn [fst].
    exact Hfiles. }
  destruct (browse_step_empty st w3 Hfiles3) as [out' Hstep].
  unfold input_loop. cbn [iterate]. unfold bind at 1. rewrite Hstep.
  pose proof (browse_navigate_unbound st
                (set_stdout (stdout w3 ++ out')
                   (exec (list_sd_card_files (browse_arg st)) w3))
                line rest num) as Hraise.
  unfold eval in Hraise.
  destruct (browse_navigate st _) as [res w4]. cbn [fst] in *.
  rewrite Hraise; [done| |done|done|done].
  by rewrite stdin_after_listing.
Qed.

Lemma cmd_browse_sd_unbound_item_map_witness :
  eval is_sd_card_accessible (exec check_device_connected flaky_card_world)
  = Ok true
  ∧ eval cmd_browse_sd flaky_card_world = Raise UnboundLocalError.
Proof.
  split; [reflexivity|].
  apply (cmd_browse_sd_unbound_item_map flaky_card_world (txt "1") [] 1);
    reflexivity.
Defined.

(** X15.  In a directory whose listing has no entry, the numbers of the
    listing shown before still select its entries: typing the number a
    directory had there makes the browser enter a directory of that name
    under the current one, and push the current path. *)
Theorem browse_step_stale_numbers (st : browse_state) (w : world)
    (line : str) (rest : list stdin_event) (num : Z)
    (items : gmap Z sd_entry) (item : sd_entry) :
  eval (list_sd_card_files (browse_arg st)) w = Ok [] →
  item_map st = Some items →
  stdin w = Line line :: rest →
  py_int (lower (strip line)) = Some num →
  lower (strip line) ≠ txt "0" →
  items !! num = Some item →
  e_type item = txt "dir" →
  eval (browse_step st) w
  = Ok (Continue (mkBrowse (enter_path (current_path st) item)
                    (history st ++ [current_path st]) (Some items))).
Proof.
  intros Hfiles Hmap Hin Hnum Hzero Hitem Hdir.
  destruct (browse_step_empty st w Hfiles) as [out Hstep].
  unfold eval. rewrite Hstep. rewrite <- Hmap.
  apply (browse_navigate_enter st _ line rest num items item);
    [by rewrite stdin_after_listing|done..].
Qed.

Lemma browse_step_stale_numbers_witness :
  eval (browse_step
          (mkBrowse (txt "/saves") [txt "/"] (Some {[ 1 := saves_entry ]})))
    empty_dir_world
  = Ok (Continue
          (mkBrowse (txt "/saves//saves") [txt "/"; txt "/saves"]
             (Some {[ 1 := saves_entry ]}))).
Proof.
  apply (browse_step_stale_numbers
           (mkBrowse (txt "/saves") [txt "/"] (Some {[ 1 := saves_entry ]}))
           empty_dir_world (txt "1") [] 1 {[ 1 := saves_entry ]} saves_entry);
    try reflexivity.
  discriminate.
Defined.

(** ** One round of the browser *)

(** A round shows the listing, then reads the choice in a state that has
    the path and the history it started with, and the numbers of what was
    shown. *)
Lemma browse_step_shown (st : browse_state) (w : world)
    (files : list sd_entry) :
  eval (list_sd_card_files (browse_arg st)) w = Ok files →
  ∃ item_map' out,
    browse_step st w
    = browse_navigate (mkBrowse (current_path st) (history st) item_map')
        (set_stdout (stdout w ++ out)
           (exec (list_sd_card_files (browse_arg st)) w))
    ∧ ∀ num, item_map' ≫= (λ items, items !! num) = numbered st files num.
Proof.
  intros Hfiles. pose proof (browse_render_run st w) as Hrun.
  rewrite Hfiles in Hrun.
  destruct Hrun as (item_map' & out & Hrun & Hempty & Hshown).
  exists item_map', out. split.
  - unfold browse_step. by rewrite (bind_ok _ _ _ _ _ Hrun).
  - intros num. unfold numbered. case_bool_decide as Hnil.
    + by rewrite (Hempty Hnil).
    + destruct (Hshown Hnil) as (m & -> & Hm). cbn. apply Hm.
Qed.

Lemma browse_navigate_enter_run (st : browse_state) (w : world) (line : str)
    (rest : list stdin_event) (num : Z) (item : sd_entry) :
  stdin w = Line line :: rest →
  py_int (lower (strip line)) = Some num →
  (lower (strip line) = txt "0" → current_path st = txt "/") →
  item_map st ≫= (λ items, items !! num) = Some item →
  e_type item = txt "dir" →
  browse_navigate st w
  = (Ok (Continue (mkBrowse (enter_path (current_path st) item)
                     (history st ++ [current_path st]) (item_map st))),
     set_stdin rest
       (set_stdout (stdout w ++ [Prompt (txt "Enter choice: ")]) w)).
Proof.
  intros Hin Hnum Hzero Hitem Hdir.
  destruct (item_map st) as [items|] eqn:Hmap; [|done]. cbn in Hitem.
  unfold browse_navigate, try at 1.
  rewrite (bind_ok _ _ _ _ _ (input_line _ line rest w Hin)). cbv zeta.
  rewrite (bool_decide_eq_false_2 _ (not_the_letter_b _ _ Hnum)).
  assert (bool_decide (lower (strip line) = txt "0")
          && negb (bool_decide (current_path st = txt "/")) = false) as ->.
  { case_bool_decide; [|done]. by rewrite bool_decide_eq_true_2 by auto. }
  unfold try. rewrite Hnum, Hmap, Hitem.
  by rewrite (bool_decide_eq_true_2 _ Hdir).
Qed.

Lemma browse_navigate_back_run (st : browse_state) (w : world) (line : str)
    (rest : list stdin_event) :
  stdin w = Line line :: rest →
  lower (strip line) = txt "0" → current_path st ≠ txt "/" →
  browse_navigate st w
  = (Ok (Continue
           match last (history st) with
           | Some previous =>
               mkBrowse previous (removelast (history st)) (item_map st)
           | None =>
               mkBrowse (parent_of (current_path st)) (history st)
                 (item_map st)
           end),
     set_stdin rest
       (set_stdout (stdout w ++ [Prompt (txt "Enter choice: ")]) w)).
Proof.
  intros Hin Hzero Hcur.
  unfold browse_navigate, try at 1.
  rewrite (bind_ok _ _ _ _ _ (input_line _ line rest w Hin)). cbv zeta.
  rewrite bool_decide_eq_false_2 by (by rewrite Hzero).
  rewrite (bool_decide_eq_true_2 _ Hzero), (bool_decide_eq_false_2 _ Hcur).
  cbn [negb andb]. by destruct (last (history st)).
Qed.

(** A round that goes on is followed by the loop from the state it
    gives. *)
Lemma browse_loop_continue (st st' : browse_state) (w w' : world) :
  browse_step st w = (Ok (Continue st'), w') →
  input_loop browse_step st w = input_loop browse_step st' w'.
Proof.
  intros Hstep.
  assert (length (stdin w') < length (stdin w))%nat as Hless.
  { pose proof (browse_step_loops st w st') as Hloop.
    unfold eval, exec in Hloop. rewrite Hstep in Hloop. by apply Hloop. }
  unfold input_loop at 1. cbn [iterate].
  rewrite (bind_ok _ _ _ _ _ Hstep).
  apply input_loop_unrolled; [apply browse_step_loops | lia].
Qed.

(** C9.  In every round of the browser's loop, whatever the state of the
    browser: after the listing is shown, the number of a directory entry
    pushes the current path onto the history and makes the entered
    directory the current path; [0], when the current path is not the
    root, pops the last pushed path when the history is not empty, and
    otherwise truncates the current path at its last ["/"], giving ["/"]
    when nothing is left before it.  The loop of [cmd_browse_sd] goes on
    from the state so reached. *)
Theorem browse_step_spec (w : world) (st : browse_state) (line : str)
    (rest : list stdin_event) (files : list sd_entry) :
  stdin w = Line line :: rest →
  eval (list_sd_card_files (browse_arg st)) w = Ok files →
  let choice := lower (strip line) in
  (∀ num item,
     (choice = txt "0" → current_path st = txt "/") →
     py_int choice = Some num →
     numbered st files num = Some item →
     e_type item = txt "dir" →
     ∃ st' w',
       browse_step st w = (Ok (Continue st'), w')
       ∧ current_path st'
         = (if bool_decide (current_path st = txt "/") then e_path item
            else rstrip_char "/"%char (current_path st) ++ txt "/"
                 ++ e_name item)
       ∧ history st' = history st ++ [current_path st]
       ∧ stdin w' = rest
       ∧ input_loop browse_step st w = input_loop browse_step st' w')
  ∧ (∀ earlier previous,
       choice = txt "0" → current_path st ≠ txt "/" →
       history st = earlier ++ [previous] →
       ∃ st' w',
         browse_step st w = (Ok (Continue st'), w')
         ∧ current_path st' = previous
         ∧ history st' = earlier
         ∧ stdin w' = rest
         ∧ input_loop browse_step st w = input_loop browse_step st' w')
  ∧ (choice = txt "0" → current_path st ≠ txt "/" → history st = [] →
     ∃ st' w',
       browse_step st w = (Ok (Continue st'), w')
       ∧ current_path st' = parent_of (current_path st)
       ∧ history st' = []
       ∧ stdin w' = rest
       ∧ input_loop browse_step st w = input_loop browse_step st' w')
  ∧ (∀ pre last trailing,
       "/"%char ∉ last → last ≠ [] → Forall (λ c, c = "/"%char) trailing →
       parent_of (pre ++ "/"%char :: last ++ trailing)
       = if bool_decide (pre = []) then txt "/" else pre).
Proof.
  intros Hin Hfiles choice.
  destruct (browse_step_shown st w files Hfiles)
    as (item_map' & out & Hstep & Hnumbered).
  set (shown := mkBrowse (current_path st) (history st) item_map') in *.
  set (w1 := set_stdout (stdout w ++ out)
               (exec (list_sd_card_files (browse_arg st)) w)) in *.
  assert (stdin w1 = Line line :: rest) as Hin1
    by (unfold w1; by rewrite stdin_after_listing).
  split; [|split; [|split]].
  - intros num item Hzero Hnum Hitem Hdir.
    rewrite <- Hnumbered in Hitem.
    pose proof (browse_navigate_enter_run shown w1 line rest num item
                  Hin1 Hnum Hzero Hitem Hdir) as Hrun.
    rewrite <- Hstep in Hrun. eexists _, _.
    split; [exact Hrun|]. split; [done|]. split; [done|].
    split; [done|]. by apply browse_loop_continue.
  - intros earlier previous Hzero Hcur Hhist.
    pose proof (browse_navigate_back_run shown w1 line rest Hin1 Hzero Hcur)
      as Hrun.
    rewrite <- Hstep in Hrun. cbn [shown history] in Hrun.
    rewrite Hhist, last_snoc, removelast_last in Hrun. eexists _, _.
    split; [exact Hrun|]. split; [done|]. split; [done|].
    split; [done|]. by apply browse_loop_continue.
  - intros Hzero Hcur Hhist.
    pose proof (browse_navigate_back_run shown w1 line rest Hin1 Hzero Hcur)
      as Hrun.
    rewrite <- Hstep in Hrun. cbn [shown history] in Hrun.
    rewrite Hhist in Hrun. cbn [last] in Hrun. eexists _, _.
    split; [exact Hrun|]. split; [done|]. split; [done|].
    split; [done|]. by apply browse_loop_continue.
  - apply parent_of_spec.
Qed.

Lemma browse_step_spec_witness :
  ∃ st' w',
    browse_step (mkBrowse (txt "/") [] None) there_and_back_world
    = (Ok (Continue st'), w')
    ∧ current_path st' = txt "/menu"
    ∧ history st' = [txt "/"]
    ∧ stdin w' = [Line (txt "0"); Line (txt "b")].
Proof.
  destruct (browse_step_spec there_and_back_world
              (mkBrowse (txt "/") [] None) (txt "1")
              [Line (txt "0"); Line (txt "b")]
              [mkEntry (txt "a.Z64") (txt "file") (txt "32M") (txt "/a.Z64");
               mkEntry (txt "/menu") (txt "dir") (txt "----") (txt "/menu")]
              eq_refl eq_refl) as [Henter _].
  destruct (Henter 1
              (mkEntry (txt "/menu") (txt "dir") (txt "----") (txt "/menu")))
    as (st' & w' & Hstep & Hpath & Hhist & Hrest & _);
    [intros H; vm_compute in H; discriminate H|reflexivity..|].
  by exists st', w'.
Defined.

(** ** Into a directory and back *)

Lemma list_sd_card_files_returns (path : option str) (w : world) :
  always_returns w → ∃ files, eval (list_sd_card_files path) w = Ok files.
Proof.
  intros Hret. rewrite list_sd_card_files_unfold.
  unfold eval. rewrite bind_eta. unfold eval.
  rewrite run_sc64_command_run. cbn [fst].
  destruct (always_returns_code w (length (calls w)) (ls_args path) Hret)
    as [code Hcode].
  destruct (run_value_returned w _ _ Hcode) as (out & err & ->).
  cbv beta iota. destruct (negb _); by eexists.
Qed.

Lemma deployer_after_listing (path : option str) (v : list out_event)
    (w : world) :
  deployer (set_stdout v (exec (list_sd_card_files path) w)) = deployer w.
Proof.
  cbn [deployer set_stdout]. rewrite list_sd_card_files_unfold.
  unfold exec. rewrite bind_eta. unfold exec.
  rewrite run_sc64_command_run. cbn [fst snd].
  destruct (eval _ w) as [[[code out] err]|e]; [|done].
  by destruct (negb _).
Qed.

(** X16.  Entering a directory in one round of the browser and typing [0]
    in the next restores the path and the history: the path pushed on
    entering is the one popped, whatever the listing of the directory
    entered; the loop goes on from there. *)
Theorem browse_enter_then_back (st : browse_state) (w : world)
    (line line' : str) (rest : list stdin_event) (files : list sd_entry)
    (num : Z) (item : sd_entry) :
  always_returns w →
  stdin w = Line line :: Line line' :: rest →
  eval (list_sd_card_files (browse_arg st)) w = Ok files →
  py_int (lower (strip line)) = Some num →
  (lower (strip line) = txt "0" → current_path st = txt "/") →
  numbered st files num = Some item →
  e_type item = txt "dir" →
  enter_path (current_path st) item ≠ txt "/" →
  lower (strip line') = txt "0" →
  ∃ entered w1 back w2,
    browse_step st w = (Ok (Continue entered), w1)
    ∧ current_path entered = enter_path (current_path st) item
    ∧ browse_step entered w1 = (Ok (Continue back), w2)
    ∧ current_path back = current_path st
    ∧ history back = history st
    ∧ stdin w2 = rest
    ∧ input_loop browse_step st w = input_loop browse_step back w2.
Proof.
  intros Hret Hin Hfiles Hnum Hzero Hitem Hdir Hroot Hzero'.
  destruct (browse_step_shown st w files Hfiles)
    as (item_map' & out & Hstep & Hnumbered).
  rewrite <- Hnumbered in Hitem.
  set (w0 := set_stdout (stdout w ++ out)
               (exec (list_sd_card_files (browse_arg st)) w)) in *.
  assert (stdin w0 = Line line :: Line line' :: rest) as Hin0
    by (unfold w0; by rewrite stdin_after_listing).
  assert (deployer w0 = deployer w) as Hdep0
    by apply deployer_after_listing.
  pose proof (browse_navigate_enter_run
                (mkBrowse (current_path st) (history st) item_map') w0
                line (Line line' :: rest) num item Hin0 Hnum Hzero Hitem Hdir)
    as Hrun.
  rewrite <- Hstep in Hrun. cbn [current_path history item_map] in Hrun.
  set (entered := mkBrowse (enter_path (current_path st) item)
                    (history st ++ [current_path st]) item_map') in *.
  set (w1 := set_stdin (Line line' :: rest)
               (set_stdout (stdout w0 ++ [Prompt (txt "Enter choice: ")]) w0))
    in *.
  assert (always_returns w1) as Hret1.
  { intros n args. unfold w1. cbn [deployer set_stdin set_stdout].
    rewrite Hdep0. apply Hret. }
  destruct (list_sd_card_files_returns (browse_arg entered) w1 Hret1)
    as [files' Hfiles'].
  destruct (browse_step_shown entered w1 files' Hfiles')
    as (item_map'' & out' & Hstep' & _).
  set (w1' := set_stdout (stdout w1 ++ out')
                (exec (list_sd_card_files (browse_arg entered)) w1)) in *.
  assert (stdin w1' = Line line' :: rest) as Hin1
    by (unfold w1'; by rewrite stdin_after_listing).
  pose proof (browse_navigate_back_run
                (mkBrowse (current_path entered) (history entered) item_map'')
                w1' line' rest Hin1 Hzero' Hroot) as Hrun'.
  rewrite <- Hstep' in Hrun'. cbn [entered current_path history] in Hrun'.
  rewrite last_snoc, removelast_last in Hrun'.
  eexists _, _, _, _. split; [exact Hrun|]. split; [done|].
  split; [exact Hrun'|]. split; [done|]. split; [done|]. split; [done|].
  rewrite (browse_loop_continue _ _ _ _ Hrun).
  by apply browse_loop_continue.
Qed.

Lemma browse_enter_then_back_witness :
  ∃ entered w1 back w2,
    browse_step (mkBrowse (txt "/") [] None) there_and_back_world
    = (Ok (Continue entered), w1)
    ∧ current_path entered = txt "/menu"
    ∧ browse_step entered w1 = (Ok (Continue back), w2)
    ∧ current_path back = txt "/"
    ∧ history back = []
    ∧ stdin w2 = [Line (txt "b")].
Proof.
  destruct (browse_enter_then_back (mkBrowse (txt "/") [] None)
              there_and_back_world (txt "1") (txt "0") [Line (txt "b")]
              [mkEntry (txt "a.Z64") (txt "file") (txt "32M") (txt "/a.Z64");
               mkEntry (txt "/menu") (txt "dir") (txt "----") (txt "/menu")]
              1 (mkEntry (txt "/menu") (txt "dir") (txt "----") (txt "/menu")))
    as (entered & w1 & back & w2 & H1 & H2 & H3 & H4 & H5 & H6 & _);
    try reflexivity.
  - intros n args. unfold there_and_back_world, card_deployer.
    cbn [deployer]. repeat case_bool_decide; discriminate.
  - intros H. vm_compute in H. discriminate H.
  - by exists entered, w1, back, w2.
Defined.

(** * The local directories *)

Lemma elem_of_top_level (sp parent : str) (children : list fs_node)
    (keep : Path → bool) (ok : str → Prop) (p : Path) :
  (∀ q, keep q = true ↔ p_is_file q = true ∧ ok (lower (suffix (p_name q)))) →
  p ∈ sorted (λ x, lower (p_name x))
        (List.filter keep (iterdir sp parent children))
  ↔ top_level_file sp parent children ok p.
Proof.
  intros Hkeep. rewrite sorted_perm, list_elem_of_In, filter_In.
  rewrite <- list_elem_of_In, elem_of_iterdir, Hkeep. unfold top_level_file.
  split.
  - intros [[(name & st_size & Hin & ->)|(name & sub & Hin & ->)] [Hfile Hok]];
      [|done].
    by exists name, st_size.
  - intros (name & st_size & Hin & Hok & ->). split; [|done].
    left. by exists name, st_size.
Qed.

Lemma is_rom_file_iff (q : Path) :
  is_rom_file q = true
  ↔ p_is_file q = true ∧ lower (suffix (p_name q)) ∈ ROM_EXTENSIONS.
Proof. unfold is_rom_file. by rewrite andb_true_iff, bool_decide_eq_true. Qed.

Lemma is_mp3_file_iff (q : Path) :
  is_mp3_file q = true
  ↔ p_is_file q = true ∧ lower (suffix (p_name q)) = txt ".mp3".
Proof. unfold is_mp3_file. by rewrite andb_true_iff, bool_decide_eq_true. Qed.

(** X17.  [list_local_menu_versions] and [list_local_music] return the
    regular files that lie directly in their directory (those of
    subdirectories are not looked at) and whose suffix in lower case is a
    ROM extension, respectively [.mp3], ordered by lowercased name.  A
    directory that does not exist is created, empty, and the list is
    empty. *)
Theorem local_lists_are_top_level (w : world) :
  (∃ menu_files,
     eval list_local_menu_versions w = Ok menu_files
     ∧ menu_versions_dir (exec list_local_menu_versions w)
       = Some (default [] (menu_versions_dir w))
     ∧ (∀ p, p ∈ menu_files
             ↔ top_level_file (sep w) (MENU_VERSIONS_DIR w)
                 (default [] (menu_versions_dir w)) (.∈ ROM_EXTENSIONS) p)
     ∧ StronglySorted name_le menu_files
     ∧ (menu_versions_dir w = None → menu_files = []))
  ∧ (∀ music_dir,
       ∃ music_files,
         eval (list_local_music music_dir) w
         = Ok (music_files, Some (default [] music_dir))
         ∧ (∀ p, p ∈ music_files
                 ↔ top_level_file (sep w) (MENU_MUSIC_DIR w)
                     (default [] music_dir) (.= txt ".mp3") p)
         ∧ StronglySorted name_le music_files
         ∧ (music_dir = None → music_files = [])).
Proof.
  split.
  - unfold eval, exec, list_local_menu_versions, ensure_menu_versions_dir,
      bind, get_world, print, ret.
    destruct (menu_versions_dir w) as [children|] eqn:Hdir; cbn [fst snd default].
    + rewrite Hdir. cbn [default]. eexists. split; [reflexivity|].
      split; [done|]. split; [|split; [|done]].
      * intros p. apply elem_of_top_level, is_rom_file_iff.
      * apply (sorted_ordered (λ x, lower (p_name x))).
    + cbn [menu_versions_dir set_menu_versions_dir set_stdout default].
      eexists. split; [reflexivity|]. split; [done|]. split; [|split; [|done]].
      * intros p. apply (elem_of_top_level _ _ []), is_rom_file_iff.
      * apply (sorted_ordered (λ x, lower (p_name x))).
  - intros music_dir.
    unfold eval, list_local_music, ensure_menu_music_dir, bind, get_world,
      print, ret.
    destruct music_dir as [children|]; cbn [fst snd default].
    + eexists. split; [reflexivity|]. split; [|split; [|done]].
      * intros p. apply elem_of_top_level, is_mp3_file_iff.
      * apply (sorted_ordered (λ x, lower (p_name x))).
    + eexists. split; [reflexivity|]. split; [|split; [|done]].
      * intros p. apply (elem_of_top_level _ _ []), is_mp3_file_iff.
      * apply (sorted_ordered (λ x, lower (p_name x))).
Qed.

Lemma local_lists_are_top_level_witness :
  ∃ menu_files,
    eval list_local_menu_versions nested_menu_world = Ok menu_files
    ∧ map p_str menu_files = [txt "/opt/sb/menu_versions/new.N64"].
Proof.
  destruct (local_lists_are_top_level nested_menu_world)
    as [(menu_files & Hrun & _) _].
  exists menu_files. split; [exact Hrun|].
  vm_compute in Hrun. by injection Hrun as <-.
Defined.

(** * The status *)

Lemma eval_run_sc64_command (args : list str) (w : world) :
  eval (run_sc64_command args) w
  = run_value w (deployer w (length (calls w)) args).
Proof. unfold eval. by rewrite run_sc64_command_run. Qed.

Lemma exec_run_sc64_command (args : list str) (w : world) :
  exec (run_sc64_command args) w
  = set_calls (calls w ++ [(args, deployer w (length (calls w)) args)]) w.
Proof. unfold exec. by rewrite run_sc64_command_run. Qed.

Lemma eval_check_device_connected (w : world) :
  returned_code (deployer w (length (calls w)) [txt "list"]) ≠ None →
  eval check_device_connected w
  = Ok (shows_device (deployer w (length (calls w)) [txt "list"])).
Proof.
  unfold eval, check_device_connected. rewrite bind_eta.
  rewrite eval_run_sc64_command.
  by destruct (deployer w _ _) as [code out err|[]].
Qed.

Lemma eval_is_sd_card_accessible (w : world) :
  returned_code (deployer w (length (calls w)) [txt "sd"; txt "ls"]) ≠ None →
  eval is_sd_card_accessible w
  = Ok (shows_card (deployer w (length (calls w)) [txt "sd"; txt "ls"])).
Proof.
  unfold eval, is_sd_card_accessible. rewrite bind_eta.
  rewrite eval_run_sc64_command.
  by destruct (deployer w _ _) as [code out err|[]].
Qed.

(** X18.  As long as the deployer can be run, [cmd_status] returns [True]
    exactly when the [list] run shows a device and the [sd ls] run, the
    third it makes, shows a card that can be read; the outcome of the
    [info] run between them does not matter.  Without a device it makes
    the [list] run alone. *)
Theorem cmd_status_result (w : world) :
  always_returns w →
  let n := length (calls w) in
  let connected := shows_device (deployer w n [txt "list"]) in
  eval cmd_status w
  = Ok (connected
        && shows_card (deployer w (n + 2) [txt "sd"; txt "ls"]))
  ∧ map fst (drop n (calls (exec cmd_status w)))
    = if connected
      then [[txt "list"]; [txt "info"]; [txt "sd"; txt "ls"]]
      else [[txt "list"]].
Proof.
  intros Hret n connected. subst n connected. unfold eval, exec.
  destruct (cmd_status w) as [res w'] eqn:Hrun. cbn [fst snd].
  revert Hrun. unfold cmd_status. run_prints.
  run_quiet quiet_check_device_connected.
  rewrite eval_check_device_connected by apply Hret.
  rewrite check_device_connected_exec.
  destruct (shows_device _); cbn [negb andb].
  2:{ unfold bind, print, ret. cbn [stdout set_stdout].
      intros [= <- <-]. split; [done|]. cbn [calls set_stdout set_calls].
      by rewrite drop_app_length. }
  run_prints. rewrite ?set_stdout_twice, ?stdout_set_stdout.
  run_quiet (quiet_run_sc64_command [txt "info"]).
  rewrite eval_run_sc64_command, exec_run_sc64_command.
  cbn [calls set_calls deployer]. rewrite length_app. cbn [length].
  destruct (always_returns_code w (length (calls w) + 1) [txt "info"] Hret)
    as [code Hcode].
  destruct (run_value_returned
              (set_calls
                 (calls w ++ [([txt "list"],
                               deployer w (length (calls w)) [txt "list"])]) w)
              _ _ Hcode) as (iout & ierr & ->).
  cbv beta iota.
  destruct (code =? 0); run_prints;
    rewrite ?set_stdout_twice, ?stdout_set_stdout;
    run_quiet quiet_is_sd_card_accessible;
    rewrite eval_is_sd_card_accessible by apply Hret;
    rewrite is_sd_card_accessible_exec;
    cbn [calls set_calls deployer]; rewrite !length_app; cbn [length];
    replace (length (calls w) + 1 + 1)%nat with (length (calls w) + 2)%nat
      by lia;
    (destruct (shows_card _); unfold bind, print, ret; cbn [stdout set_stdout];
     intros [= <- <-]; (split; [done|]); cbn [calls set_stdout set_calls];
     rewrite <- !app_assoc; by rewrite drop_app_length).
Qed.

Lemma cmd_status_result_witness :
  always_returns console_off_world
  ∧ eval cmd_status console_off_world = Ok false
  ∧ map fst (calls (exec cmd_status console_off_world))
    = [[txt "list"]; [txt "info"]; [txt "sd"; txt "ls"]].
Proof.
  assert (always_returns console_off_world) as Hret.
  { intros n args. cbn. case_bool_decide; discriminate. }
  split; [exact Hret|].
  destruct (cmd_status_result console_off_world Hret) as [Hres Hcalls].
  split; [exact Hres | exact Hcalls].
Defined.

(** * The menu music *)

Lemma returns_get_choice (max_val : Z) (prompt : str) :
  returns (λ v, v = 0 ∨ 1 ≤ v ≤ max_val) (get_choice max_val prompt).
Proof.
  apply returns_input_loop. intros []. unfold get_choice_step.
  apply returns_try.
  - apply returns_seq. intros line. cbv zeta.
    destruct (bool_decide _); [apply returns_ret; by left|].
    destruct (py_int _) as [val|]; [|apply returns_raise].
    destruct ((1 <=? val) && (val <=? max_val)) eqn:Hval.
    + apply returns_ret. right. apply andb_true_iff in Hval. lia.
    + apply returns_seq. intros _. by apply returns_ret.
  - intros e. destruct e; try apply returns_raise.
    + apply returns_seq. intros _. by apply returns_ret.
    + apply returns_seq. intros _. apply returns_ret. by left.
Qed.

Lemma returns_list_local_music (music_dir : option (list fs_node)) :
  returns (λ r, Forall (λ p, is_mp3_file p = true) r.1)
    (list_local_music music_dir).
Proof.
  unfold list_local_music. apply returns_seq. intros dir.
  apply returns_seq. intros w. cbv zeta. apply returns_ret. cbn [fst].
  apply Forall_forall. intros p Hp. rewrite sorted_perm in Hp.
  apply list_elem_of_In, filter_In in Hp. by destruct Hp.
Qed.

Lemma music_options_start : music_options (1, ∅).
Proof.
  split; [cbn; lia|]. split; [intros i Hi; cbn in Hi; lia|].
  intros i mp3 Hi. cbn in Hi. by rewrite lookup_empty in Hi.
Qed.

Lemma music_options_insert (option_num : Z) (options_map : gmap Z music_action)
    (action : music_action) :
  music_options (option_num, options_map) →
  match action with
  | SetMusic mp3 => is_mp3_file mp3 = true
  | RemoveMusic => True
  end →
  music_options (option_num + 1, <[option_num := action]> options_map).
Proof.
  intros (Hnum & Hall & Hmp3) Haction. unfold music_options.
  cbn [fst snd] in *. split; [lia|]. split.
  - intros i Hi. destruct (decide (i = option_num)) as [->|Hne].
    + rewrite lookup_insert. by rewrite decide_True.
    + rewrite lookup_insert_ne by done. apply Hall. lia.
  - intros i mp3. destruct (decide (i = option_num)) as [->|Hne].
    + rewrite lookup_insert. rewrite decide_True by done.
      by intros [= ->].
    + rewrite lookup_insert_ne by done. apply Hmp3.
Qed.

Lemma returns_music_set_options (music_files : list Path)
    (acc : Z * gmap Z music_action) :
  Forall (λ p, is_mp3_file p = true) music_files →
  music_options acc →
  returns music_options (music_set_options music_files acc).
Proof.
  unfold music_set_options. revert acc.
  induction music_files as [|mp3 music_files IH]; intros acc Hfiles Hacc.
  - by apply returns_ret.
  - apply Forall_cons in Hfiles as [Hmp3 Hfiles]. cbn [for_fold].
    destruct acc as [option_num options_map].
    eapply (returns_bind music_options).
    + apply returns_seq. intros _. apply returns_ret.
      by apply music_options_insert.
    + intros acc' Hacc'. by apply IH.
Qed.

Lemma calls_music_set_options (music_files : list Path)
    (acc : Z * gmap Z music_action) :
  preserves calls (music_set_options music_files acc).
Proof. unfold music_set_options. repeat preserves_step. Qed.

Lemma calls_list_local_music (music_dir : option (list fs_node)) :
  preserves calls (list_local_music music_dir).
Proof.
  unfold list_local_music, ensure_menu_music_dir. repeat preserves_step.
Qed.

Lemma returns_music_offers (music_files : list Path) :
  Forall (λ p, is_mp3_file p = true) music_files →
  returns music_options
    (if bool_decide (music_files = []) then ret (1, ∅)
     else music_set_options music_files (1, ∅)).
Proof.
  intros Hfiles.
  destruct (bool_decide _);
    [apply returns_ret | apply returns_music_set_options; [done|]];
    apply music_options_start.
Qed.

Lemma returns_music_removal_option (has_music : bool) (option_num : Z)
    (options_map : gmap Z music_action) :
  music_options (option_num, options_map) →
  returns music_options
    (if has_music then
       print (txt "  [" ++ repr option_num ++ txt "] Remove background music") ;;
       ret (option_num + 1, <[option_num := RemoveMusic]> options_map)
     else ret (option_num, options_map)).
Proof.
  intros Hacc. destruct has_music.
  - apply returns_seq. intros _. apply returns_ret.
    by apply music_options_insert.
  - by apply returns_ret.
Qed.

(** A run of the deployer that is not the one in question. *)
Ltac other_run :=
  let H := fresh in
  intros H; vm_compute in H; discriminate H.

Lemma returns_cmd_menu_music (music_dir : option (list fs_node)) :
  returns (λ r, ∀ key, r ≠ inl (KeyError key)) (cmd_menu_music music_dir).
Proof.
  unfold cmd_menu_music.
  do 4 (apply returns_seq; intros _). apply returns_seq. intros connected.
  destruct (negb connected);
    [apply returns_seq; intros _; by apply returns_ret|].
  apply returns_seq. intros accessible.
  destruct (negb accessible);
    [do 2 (apply returns_seq; intros _); by apply returns_ret|].
  apply returns_seq. intros has_music. apply returns_seq. intros _.
  eapply returns_bind; [apply returns_list_local_music|].
  intros [music_files music_dir'] Hfiles. cbn [fst] in Hfiles.
  do 3 (apply returns_seq; intros _).
  eapply returns_bind; [by apply returns_music_offers|].
  intros [option_num options_map] Hacc.
  eapply returns_bind; [by apply returns_music_removal_option|].
  intros [option_num' options_map'] (_ & Hall & _). cbn [fst snd] in Hall.
  destruct (bool_decide _);
    [apply returns_seq; intros _; by apply returns_ret|].
  apply returns_seq. intros _.
  eapply returns_bind; [apply returns_get_choice|].
  intros choice Hchoice.
  destruct (Z.eqb_spec choice 0) as [->|Hne];
    [apply returns_seq; intros _; by apply returns_ret|].
  cbv beta in Hchoice.
  assert (is_Some (options_map' !! choice)) as [[mp3|] ->]
    by (apply Hall; lia).
  - do 4 (apply returns_seq; intros ?). by apply returns_ret.
  - do 2 (apply returns_seq; intros ?). by apply returns_ret.
Qed.

(** *** The file that becomes the music *)

Lemma list_local_music_from (w0 w : world)
    (music_dir : option (list fs_node)) :
  disk w = disk w0 →
  ∃ music_dir',
    eval (list_local_music music_dir) w
    = Ok (local_music w0 music_dir, music_dir').
Proof.
  unfold disk. intros [= Hscript Hwin Hroms].
  unfold local_music, eval, list_local_music, ensure_menu_music_dir, bind,
    get_world, print, ret, MENU_MUSIC_DIR, joinpath, sep.
  destruct music_dir as [children|]; cbn; rewrite ?Hscript, ?Hwin;
    by eexists.
Qed.

Lemma returns_from_list_local_music (w0 : world)
    (music_dir : option (list fs_node)) :
  returns_from w0 (λ r, r.1 = local_music w0 music_dir)
    (list_local_music music_dir).
Proof.
  intros w r Hw.
  destruct (list_local_music_from w0 w music_dir Hw) as [music_dir' ->].
  by intros [= <-].
Qed.

Lemma local_music_are_mp3 (w : world) (music_dir : option (list fs_node)) :
  Forall (λ mp3, is_mp3_file mp3 = true) (local_music w music_dir).
Proof.
  unfold local_music.
  destruct (eval (list_local_music music_dir) w) as [[music_files dir]|e]
    eqn:Hrun; [|constructor].
  apply (returns_list_local_music music_dir w _ Hrun).
Qed.

Lemma music_offers_insert (music_files : list Path) (option_num : Z)
    (options_map : gmap Z music_action) (action : music_action) :
  music_offers music_files (option_num, options_map) →
  match action with
  | SetMusic mp3 => mp3 ∈ music_files
  | RemoveMusic => True
  end →
  music_offers music_files
    (option_num + 1, <[option_num := action]> options_map).
Proof.
  intros Hoffers Haction i mp3. cbn [snd].
  destruct (decide (i = option_num)) as [->|Hne].
  - rewrite lookup_insert. rewrite decide_True by done. by intros [= ->].
  - rewrite lookup_insert_ne by done. apply Hoffers.
Qed.

Lemma returns_music_set_offers (music_files offered : list Path)
    (acc : Z * gmap Z music_action) :
  Forall (λ mp3, mp3 ∈ music_files) offered →
  music_offers music_files acc →
  returns (music_offers music_files) (music_set_options offered acc).
Proof.
  unfold music_set_options. revert acc.
  induction offered as [|mp3 offered IH]; intros acc Hfiles Hacc.
  - by apply returns_ret.
  - apply Forall_cons in Hfiles as [Hmp3 Hfiles]. cbn [for_fold].
    destruct acc as [option_num options_map].
    eapply (returns_bind (music_offers music_files)).
    + apply returns_seq. intros _. apply returns_ret.
      by apply music_offers_insert.
    + intros acc' Hacc'. by apply IH.
Qed.

Lemma disk_check_menu_music_exists : preserves disk check_menu_music_exists.
Proof. unfold check_menu_music_exists. repeat preserves_step. Qed.

Lemma runs_from_list_local_music (w0 : world) P
    (music_dir : option (list fs_node)) :
  runs_from w0 P (list_local_music music_dir).
Proof.
  apply runs_from_only_runs, only_runs_preserves, calls_list_local_music.
Qed.

Lemma runs_from_cmd_menu_music (w0 : world)
    (music_dir : option (list fs_node)) :
  runs_from w0 (is_music_command_run_of (local_music w0 music_dir))
    (cmd_menu_music music_dir).
Proof.
  unfold cmd_menu_music.
  apply runs_from_bind;
    [apply disk_print_header | repeat command_step | intros _].
  do 3 (apply runs_from_bind;
          [repeat preserves_step | repeat command_step | intros _]).
  apply runs_from_bind;
    [apply disk_check_device_connected
    |repeat command_step; by left | intros connected].
  destruct (negb connected);
    [apply runs_from_only_runs; repeat command_step|].
  apply runs_from_bind;
    [apply disk_is_sd_card_accessible
    |repeat command_step; by right; left | intros accessible].
  destruct (negb accessible);
    [apply runs_from_only_runs; repeat command_step|].
  apply runs_from_bind;
    [apply disk_check_menu_music_exists
    |unfold check_menu_music_exists; repeat command_step;
     by right; right; left
    |intros has_music].
  apply runs_from_bind;
    [repeat preserves_step | repeat command_step | intros _].
  eapply runs_from_then;
    [apply runs_from_list_local_music
    |apply returns_from_list_local_music|].
  intros [music_files music_dir'] Hfiles. cbn [fst] in Hfiles. subst music_files.
  set (music_files := local_music w0 music_dir).
  assert (Forall (λ mp3, mp3 ∈ music_files) music_files) as Hall
    by by apply Forall_forall.
  do 3 (apply only_runs_bind; [repeat command_step|intros _]).
  eapply (only_runs_bind_returns _ (music_offers music_files)).
  { destruct (bool_decide _);
      [repeat command_step|apply only_runs_preserves, calls_music_set_options]. }
  { destruct (bool_decide _);
      [apply returns_ret|apply returns_music_set_offers; [done|]];
      intros i mp3 Hi; cbn in Hi; by rewrite lookup_empty in Hi. }
  intros [option_num options_map] Hacc.
  eapply (only_runs_bind_returns _ (music_offers music_files)).
  { repeat command_step. }
  { destruct has_music; [|by apply returns_ret].
    apply returns_seq. intros _. apply returns_ret.
    by apply music_offers_insert. }
  intros [option_num' options_map'] Hoffers.
  destruct (bool_decide _); [repeat command_step|].
  do 2 (apply only_runs_bind; [repeat command_step|intros ?]).
  destruct (_ =? 0); [repeat command_step|].
  destruct (options_map' !! _) as [[mp3|]|] eqn:Hchoice;
    [|unfold delete_menu_music|]; repeat command_step.
  - unfold upload_menu_music. repeat command_step.
    right; right; right; right. exists mp3. split; [|done].
    by apply (Hoffers _ _ Hchoice).
  - right; right; right; left. done.
Qed.

(** X19.  [cmd_menu_music] never fails on [options_map[choice]]: the
    numbers [get_choice] lets through are those the options were given.
    And it runs the deployer only for the two probes, to ask whether
    [SD_MENU_MUSIC_PATH] exists, to remove it, or to upload onto it one of
    the files that [list_local_music] returns in the world it starts in,
    which are [.mp3] files of the music directory. *)
Theorem cmd_menu_music_options (w : world)
    (music_dir : option (list fs_node)) :
  returns (λ r, ∀ key, r ≠ inl (KeyError key)) (cmd_menu_music music_dir)
  ∧ (∃ new,
       calls (exec (cmd_menu_music music_dir) w) = calls w ++ new
       ∧ Forall (is_music_command_run_of (local_music w music_dir)) new)
  ∧ (∃ music_dir',
       eval (list_local_music music_dir) w
       = Ok (local_music w music_dir, music_dir'))
  ∧ Forall (λ mp3, is_mp3_file mp3 = true) (local_music w music_dir).
Proof.
  split; [|split; [|split]].
  - apply returns_cmd_menu_music.
  - by apply (runs_from_cmd_menu_music w music_dir w).
  - by apply list_local_music_from.
  - apply local_music_are_mp3.
Qed.

(** *** The removal of the music *)

Lemma reports_removal_none {A} (m : M A) :
  only_runs (λ c, ¬ is_music_removal c) m → reports_removal m.
Proof.
  intros Hm w. destruct (Hm w) as (new & Hcalls & Hnew). exists new.
  split; [done|]. intros Hex. apply Exists_exists in Hex as (c & Hc & Hrm).
  by eapply Forall_forall in Hnew.
Qed.

Lemma reports_removal_bind {A B} (m : M A) (k : A → M B) :
  only_runs (λ c, ¬ is_music_removal c) m →
  (∀ a, reports_removal (k a)) →
  reports_removal (bind m k).
Proof.
  intros Hm Hk w. destruct (Hm w) as (new1 & Hc1 & Hnew1).
  unfold eval, exec. rewrite bind_eta.
  destruct (eval m w) as [a|e] eqn:Ha; cbn [fst snd].
  - destruct (Hk a (exec m w)) as (new2 & Hc2 & Hlast).
    exists (new1 ++ new2). unfold eval, exec in *.
    split; [by rewrite Hc2, Hc1, app_assoc|].
    intros Hex Hok. apply Hlast; [|done].
    apply Exists_app in Hex as [Hex|Hex]; [|done].
    apply Exists_exists in Hex as (c & Hc & Hrm).
    by eapply Forall_forall in Hnew1.
  - exists new1. split; [done|]. by intros _ [a [=]].
Qed.

Lemma reports_removal_after {A B} (m : M A) (x : B) :
  only_runs (λ _, True) m →
  reports_removal
    (m ;; print (nl :: txt "Background music removed!") ;; ret x).
Proof.
  intros Hm w. destruct (Hm w) as (new & Hcalls & _). exists new.
  unfold eval, exec. rewrite bind_eta.
  destruct (eval m w) as [a|e]; cbn [fst snd].
  - split; [done|]. intros _ _. unfold bind, print, ret.
    cbn [stdout set_stdout snd]. by rewrite last_snoc.
  - split; [done|]. by intros _ [a [=]].
Qed.

(** Take a step of a proof that a part of [cmd_menu_music] does not
    remove the music. *)
Ltac no_removal :=
  repeat command_step; try other_run.

(** X20.  [cmd_menu_music] says that the background music was removed
    whenever it has run the deployer to remove it, whether or not that run
    succeeded: the result of [delete_menu_music] is not looked at. *)
Theorem cmd_menu_music_reports_removal (w : world)
    (music_dir : option (list fs_node)) :
  ∃ new,
    calls (exec (cmd_menu_music music_dir) w) = calls w ++ new
    ∧ (Exists is_music_removal new →
       (∃ a, eval (cmd_menu_music music_dir) w = Ok a) →
       last (stdout (exec (cmd_menu_music music_dir) w))
       = Some (Print (nl :: txt "Background music removed!"))).
Proof.
  revert w. change (reports_removal (cmd_menu_music music_dir)).
  unfold cmd_menu_music, check_menu_music_exists.
  do 4 (apply reports_removal_bind; [no_removal|intros _]).
  apply reports_removal_bind; [no_removal|intros connected].
  destruct (negb connected); [apply reports_removal_none; no_removal|].
  apply reports_removal_bind; [no_removal|intros accessible].
  destruct (negb accessible); [apply reports_removal_none; no_removal|].
  apply reports_removal_bind; [no_removal|intros has_music].
  apply reports_removal_bind; [no_removal|intros _].
  apply reports_removal_bind;
    [apply only_runs_preserves, calls_list_local_music|].
  intros [music_files music_dir'].
  do 3 (apply reports_removal_bind; [no_removal|intros _]).
  apply reports_removal_bind;
    [destruct (bool_decide _);
       [no_removal|apply only_runs_preserves, calls_music_set_options]|].
  intros [option_num options_map].
  apply reports_removal_bind; [no_removal|].
  intros [option_num' options_map'].
  destruct (bool_decide _); [apply reports_removal_none; no_removal|].
  do 2 (apply reports_removal_bind; [no_removal|intros ?]).
  destruct (_ =? 0); [apply reports_removal_none; no_removal|].
  destruct (options_map' !! _) as [[mp3|]|].
  - apply reports_removal_none. unfold upload_menu_music. no_removal.
  - apply reports_removal_after. unfold delete_menu_music.
    repeat command_step. done.
  - apply reports_removal_none. no_removal.
Qed.

Lemma cmd_menu_music_reports_removal_witness :
  map fst (calls (exec (cmd_menu_music one_song) locked_music_world))
  = [[txt "list"]; [txt "sd"; txt "ls"];
     [txt "sd"; txt "stat"; SD_MENU_MUSIC_PATH];
     [txt "sd"; txt "rm"; SD_MENU_MUSIC_PATH]]
  ∧ Print (txt "  Failed to remove: write protected")
    ∈ stdout (exec (cmd_menu_music one_song) locked_music_world)
  ∧ last (stdout (exec (cmd_menu_music one_song) locked_music_world))
    = Some (Print (nl :: txt "Background music removed!")).
Proof.
  split; [by vm_compute|]. split.
  - vm_compute. repeat (first [by left | right]).
  - destruct (cmd_menu_music_reports_removal locked_music_world one_song)
      as (new & Hcalls & Hlast).
    apply Hlast; [|by eexists; vm_compute].
    assert (new = drop 0 (calls (exec (cmd_menu_music one_song)
                                   locked_music_world))) as ->
      by (rewrite Hcalls; reflexivity).
    vm_compute. do 3 right. by left.
Defined.

(** * The whole program *)

(** ** What the program runs *)

Lemma reads_only_list r : reads_only ([txt "list"], r).
Proof. by left. Qed.

Lemma reads_only_ls r : reads_only ([txt "sd"; txt "ls"], r).
Proof. by right; left. Qed.

Lemma reads_only_backup backup_path r :
  reads_only ([txt "sd"; txt "download"; SD_MENU_PATH; backup_path], r).
Proof. right; right. by exists backup_path. Qed.

Lemma only_runs_cmd_update_menu :
  only_runs (λ c, reads_only c ∨ is_menu_upload c) cmd_update_menu.
Proof.
  intros w. destruct (cmd_update_menu_log w) as (new & Hcalls & Hlog).
  exists new. split; [done|].
  destruct Hlog as [(r1 & ->)|[(r1 & r2 & ->)
    |[(r1 & r2 & backup_path & r3 & -> & _)
     |(r1 & r2 & backup_path & r3 & local_path & r4 & -> & _)]]].
  - apply Forall_cons_2; [left; apply reads_only_list|apply Forall_nil_2].
  - apply Forall_cons_2; [left; apply reads_only_list|].
    apply Forall_cons_2; [left; apply reads_only_ls|apply Forall_nil_2].
  - apply Forall_cons_2; [left; apply reads_only_list|].
    apply Forall_cons_2; [left; apply reads_only_ls|].
    apply Forall_cons_2; [left; apply reads_only_backup|apply Forall_nil_2].
  - apply Forall_cons_2; [left; apply reads_only_list|].
    apply Forall_cons_2; [left; apply reads_only_ls|].
    apply Forall_cons_2; [left; apply reads_only_backup|].
    apply Forall_cons_2; [right; by exists local_path|apply Forall_nil_2].
Qed.

Lemma only_runs_cmd_sync_rtc (clock : world → str) :
  only_runs (λ c, fst c = [txt "list"] ∨ is_clock_run c) (cmd_sync_rtc clock).
Proof. unfold cmd_sync_rtc. repeat command_step; first [by left | by right]. Qed.

Lemma calls_cmd_list_local : preserves calls cmd_list_local.
Proof.
  unfold cmd_list_local, print_header, print_rom_lines, list_local_roms.
  repeat preserves_step.
Qed.

(** *** The program leaves the local directories as they are *)

Lemma disk_get_choice max_val prompt :
  preserves disk (get_choice max_val prompt).
Proof.
  apply preserves_input_loop. intros []. unfold get_choice_step. cbv zeta.
  repeat preserves_step.
Qed.

Lemma disk_get_multi_choice max_val prompt :
  preserves disk (get_multi_choice max_val prompt).
Proof.
  apply preserves_input_loop. intros [].
  unfold get_multi_choice_step, collect_choices. cbv zeta.
  repeat preserves_step.
Qed.

Lemma disk_print_rom_lines roms : preserves disk (print_rom_lines roms).
Proof. unfold print_rom_lines. repeat preserves_step. Qed.

Lemma disk_list_sd_card_files path : preserves disk (list_sd_card_files path).
Proof. rewrite list_sd_card_files_unfold. repeat preserves_step. Qed.

Lemma disk_get_all_sd_roms_from depth path found :
  preserves disk (get_all_sd_roms_from depth path found).
Proof.
  revert path found. induction depth as [|depth IH]; intros path found; simpl.
  - apply preserves_raise.
  - apply preserves_bind; [apply disk_list_sd_card_files|].
    intros files. apply preserves_for_fold. intros s f.
    case_bool_decide; [apply IH|]. repeat preserves_step.
Qed.

Lemma disk_get_all_sd_roms path : preserves disk (get_all_sd_roms path).
Proof.
  unfold get_all_sd_roms. apply preserves_bind; [apply preserves_get_world|].
  intros w. apply disk_get_all_sd_roms_from.
Qed.

Lemma disk_ensure_menu_versions_dir : preserves disk ensure_menu_versions_dir.
Proof.
  unfold ensure_menu_versions_dir. apply preserves_bind; [apply preserves_get_world|].
  intros w0. destruct (menu_versions_dir w0); [apply preserves_ret|].
  apply preserves_bind; [by intros w|intros _]. repeat preserves_step.
Qed.

Lemma disk_list_local_music (music_dir : option (list fs_node)) :
  preserves disk (list_local_music music_dir).
Proof.
  unfold list_local_music, ensure_menu_music_dir. repeat preserves_step.
Qed.

Lemma disk_music_set_options (music_files : list Path)
    (acc : Z * gmap Z music_action) :
  preserves disk (music_set_options music_files acc).
Proof. unfold music_set_options. repeat preserves_step. Qed.

(** Take a step of a proof that a command leaves the local directories
    as they are: the functions the commands are made of, then the
    shapes. *)
Ltac disk_step :=
  match goal with
  | |- preserves _ (print_header _) => apply disk_print_header
  | |- preserves _ (print_rom_lines _) => apply disk_print_rom_lines
  | |- preserves _ (get_choice _ _) => apply disk_get_choice
  | |- preserves _ (get_multi_choice _ _) => apply disk_get_multi_choice
  | |- preserves _ list_local_roms => apply disk_list_local_roms
  | |- preserves _ (list_local_music _) => apply disk_list_local_music
  | |- preserves _ (music_set_options _ _) => apply disk_music_set_options
  | |- preserves _ check_device_connected => apply disk_check_device_connected
  | |- preserves _ is_sd_card_accessible => apply disk_is_sd_card_accessible
  | |- preserves _ check_menu_music_exists =>
      apply disk_check_menu_music_exists
  | |- preserves _ ensure_menu_versions_dir =>
      apply disk_ensure_menu_versions_dir
  | |- preserves _ (list_sd_card_files _) => apply disk_list_sd_card_files
  | |- preserves _ (get_all_sd_roms _) => apply disk_get_all_sd_roms
  | |- preserves _ (input_loop _ _) => apply preserves_input_loop; intros ?
  | _ => preserves_step
  end.

Lemma disk_cmd_status : preserves disk cmd_status.
Proof. unfold cmd_status. repeat disk_step. Qed.

Lemma disk_cmd_list_local : preserves disk cmd_list_local.
Proof. unfold cmd_list_local. repeat disk_step. Qed.

Lemma disk_cmd_list_cart : preserves disk cmd_list_cart.
Proof. unfold cmd_list_cart, list_cart_root. repeat disk_step. Qed.

Lemma disk_cmd_compare : preserves disk cmd_compare.
Proof. unfold cmd_compare. cbv zeta. repeat disk_step. Qed.

Lemma disk_cmd_browse_sd : preserves disk cmd_browse_sd.
Proof.
  unfold cmd_browse_sd. repeat disk_step.
  unfold browse_step, browse_render, browse_navigate, number_entries.
  cbv zeta. repeat disk_step.
Qed.

Lemma disk_cmd_upload : preserves disk cmd_upload.
Proof.
  unfold cmd_upload. repeat disk_step; [apply disk_cmd_compare|].
  unfold upload_selected, upload_rom_to_sd. cbv zeta. repeat disk_step.
Qed.

Lemma disk_cmd_quick_upload : preserves disk cmd_quick_upload.
Proof.
  unfold cmd_quick_upload, quick_upload_selected, upload_rom_to_sd.
  cbv zeta. repeat disk_step.
Qed.

Lemma disk_cmd_update_menu : preserves disk cmd_update_menu.
Proof.
  unfold cmd_update_menu, list_local_menu_versions, backup_menu_from_cart,
    upload_menu_to_cart, select_menu_step.
  cbv zeta. repeat disk_step.
Qed.

Lemma disk_cmd_menu_music (music_dir : option (list fs_node)) :
  preserves disk (cmd_menu_music music_dir).
Proof.
  unfold cmd_menu_music, delete_menu_music, upload_menu_music.
  repeat disk_step.
Qed.

Lemma disk_cmd_sync_rtc (clock : world → str) :
  preserves disk (cmd_sync_rtc clock).
Proof. unfold cmd_sync_rtc. repeat disk_step. Qed.

Lemma disk_main_menu_step (clock : world → str)
    (music_dir : option (list fs_node)) :
  preserves disk (main_menu_step clock music_dir).
Proof.
  unfold main_menu_step, print_menu. cbv zeta.
  do 5 (apply preserves_bind; [repeat disk_step|intros ?]).
  destruct (_ || _); [repeat disk_step|].
  apply preserves_bind; [|intros ?; repeat disk_step].
  repeat match goal with
         | |- preserves _ (if ?c then _ else _) => destruct c
         end;
    first [ apply disk_cmd_menu_music
          | apply preserves_ret
          | apply preserves_bind; [|intros ?; apply preserves_ret] ].
  - apply disk_cmd_status.
  - apply disk_cmd_list_local.
  - apply disk_cmd_list_cart.
  - apply disk_cmd_compare.
  - apply disk_cmd_upload.
  - apply disk_cmd_quick_upload.
  - apply disk_cmd_update_menu.
  - apply disk_cmd_sync_rtc.
  - apply disk_cmd_browse_sd.
Qed.

(** *** The runs of the whole program *)

Lemma runs_from_mono (w0 : world) (P Q : list str * run_result → Prop) {A}
    (m : M A) :
  (∀ c, P c → Q c) → runs_from w0 P m → runs_from w0 Q m.
Proof.
  intros HPQ Hm w Hw. destruct (Hm w Hw) as (new & Hc & HP). exists new.
  split; [done|]. eapply Forall_impl; eauto.
Qed.

(** One computation that depends on the disk after another. *)
Lemma runs_from_seq (w0 : world) P {A B} (R : A → Prop) (m : M A)
    (k : A → M B) :
  preserves disk m → runs_from w0 P m → returns R m →
  (∀ a, R a → runs_from w0 P (k a)) →
  runs_from w0 P (bind m k).
Proof.
  intros Hdisk Hm Hr Hk w Hw. destruct (Hm w Hw) as (new1 & Hc1 & Hnew1).
  unfold exec. rewrite bind_eta.
  destruct (eval m w) as [a|e] eqn:Ha; cbn [snd]; [|by exists new1].
  destruct (Hk a (Hr w a Ha) (exec m w)) as (new2 & Hc2 & Hnew2);
    [by rewrite (Hdisk w)|].
  exists (new1 ++ new2). unfold exec in *.
  split; [by rewrite Hc2, Hc1, app_assoc | by apply Forall_app].
Qed.

Lemma runs_from_iterate (w0 : world) P {S A} (I : S → Prop) (fuel : nat)
    (body : S → M (loop_step S A)) (s : S) :
  (∀ s, preserves disk (body s)) →
  (∀ s, I s → runs_from w0 P (body s)) →
  (∀ s, I s →
        returns (λ r, match r with Continue s' => I s' | Return _ => True end)
          (body s)) →
  I s → runs_from w0 P (iterate fuel body s).
Proof.
  intros Hdisk Hbody Hinv. revert s.
  induction fuel as [|fuel IH]; intros s Hs; simpl.
  - apply runs_from_only_runs, only_runs_no_calls, no_calls_raise.
  - eapply runs_from_seq; [apply Hdisk | by apply Hbody | by apply Hinv|].
    intros [s'|a] Hr; [by apply IH|].
    apply runs_from_only_runs, only_runs_no_calls, no_calls_ret.
Qed.

Lemma runs_from_input_loop (w0 : world) P {S A} (I : S → Prop)
    (body : S → M (loop_step S A)) (s : S) :
  (∀ s, preserves disk (body s)) →
  (∀ s, I s → runs_from w0 P (body s)) →
  (∀ s, I s →
        returns (λ r, match r with Continue s' => I s' | Return _ => True end)
          (body s)) →
  I s → runs_from w0 P (input_loop body s).
Proof.
  intros Hdisk Hbody Hinv Hs w Hw. unfold exec, input_loop.
  by apply (runs_from_iterate w0 P I _ body s Hdisk Hbody Hinv Hs w Hw).
Qed.

(** The music directory that [cmd_menu_music] hands back holds what the
    one it was given holds. *)
Lemma returns_list_local_music_dir (music_dir : option (list fs_node)) :
  returns (λ r, default [] r.2 = default [] music_dir)
    (list_local_music music_dir).
Proof.
  unfold list_local_music, ensure_menu_music_dir.
  eapply (returns_bind (λ dir, default [] dir = default [] music_dir)).
  - destruct music_dir as [children|]; [by apply returns_ret|].
    do 2 (apply returns_seq; intros ?). by apply returns_ret.
  - intros dir Hdir. apply returns_seq. intros ?. by apply returns_ret.
Qed.

Lemma returns_cmd_menu_music_dir (music_dir : option (list fs_node)) :
  returns (λ r, ∀ music_dir', r = inr music_dir' →
                  default [] music_dir' = default [] music_dir)
    (cmd_menu_music music_dir).
Proof.
  unfold cmd_menu_music.
  do 4 (apply returns_seq; intros _). apply returns_seq. intros connected.
  destruct (negb connected);
    [apply returns_seq; intros _; apply returns_ret; by intros ? [= <-]|].
  apply returns_seq. intros accessible.
  destruct (negb accessible);
    [do 2 (apply returns_seq; intros _); apply returns_ret;
     by intros ? [= <-]|].
  apply returns_seq. intros has_music. apply returns_seq. intros _.
  eapply returns_bind; [apply returns_list_local_music_dir|].
  intros [music_files music_dir'] Hdir. cbn [snd] in Hdir.
  do 3 (apply returns_seq; intros _).
  apply returns_seq. intros [option_num options_map].
  apply returns_seq. intros [option_num' options_map'].
  destruct (bool_decide _);
    [apply returns_seq; intros _; apply returns_ret; by intros ? [= <-]|].
  apply returns_seq. intros _. apply returns_seq. intros choice.
  destruct (choice =? 0);
    [apply returns_seq; intros _; apply returns_ret; by intros ? [= <-]|].
  destruct (options_map' !! choice) as [[mp3|]|].
  - do 4 (apply returns_seq; intros ?). apply returns_ret. by intros ? [= <-].
  - do 2 (apply returns_seq; intros ?). apply returns_ret. by intros ? [= <-].
  - by apply returns_ret.
Qed.

Lemma local_music_default (w : world)
    (music_dir music_dir' : option (list fs_node)) :
  default [] music_dir' = default [] music_dir →
  local_music w music_dir' = local_music w music_dir.
Proof.
  unfold local_music, eval, list_local_music, ensure_menu_music_dir, bind,
    get_world, print, ret, MENU_MUSIC_DIR, joinpath, sep.
  destruct music_dir as [children|], music_dir' as [children'|];
    cbn; intros Hdir; by subst.
Qed.

Lemma is_program_run_of_upload roms music_files c :
  is_inspection c ∨ is_upload_of roms c →
  is_program_run_of roms music_files c.
Proof. intros [?|?]; [by left | by right; left]. Qed.

Lemma is_program_run_of_update roms music_files c :
  reads_only c ∨ is_menu_upload c → is_program_run_of roms music_files c.
Proof.
  intros [[Hlist|[Hls|Hbackup]]|Hupload].
  - left. by left.
  - left. right; right. by exists None.
  - by right; right; left.
  - by right; right; right; left.
Qed.

Lemma is_program_run_of_music roms music_files c :
  is_music_command_run_of music_files c →
  is_program_run_of roms music_files c.
Proof.
  intros [Hlist|[Hls|Hmusic]].
  - left. by left.
  - left. right; right. by exists None.
  - by right; right; right; right; left.
Qed.

Lemma is_program_run_of_clock roms music_files c :
  fst c = [txt "list"] ∨ is_clock_run c →
  is_program_run_of roms music_files c.
Proof. intros [?|?]; [by left; left | by do 5 right]. Qed.

(** The commands, one by one: what each runs, and that it leaves the
    local directories as they are. *)
Ltac program_command :=
  match goal with
  | |- only_runs _ cmd_status =>
      eapply only_runs_mono; [intros ? ?; by left | apply only_runs_cmd_status]
  | |- only_runs _ cmd_list_local =>
      apply only_runs_preserves, calls_cmd_list_local
  | |- only_runs _ cmd_list_cart =>
      eapply only_runs_mono;
      [intros ? ?; by left | apply only_runs_cmd_list_cart]
  | |- only_runs _ cmd_compare =>
      eapply only_runs_mono; [intros ? ?; by left | apply only_runs_cmd_compare]
  | |- only_runs _ cmd_browse_sd =>
      eapply only_runs_mono;
      [intros ? ?; by left | apply only_runs_cmd_browse_sd]
  | |- only_runs _ cmd_update_menu =>
      eapply only_runs_mono;
      [apply is_program_run_of_update | apply only_runs_cmd_update_menu]
  | |- only_runs _ (cmd_sync_rtc _) =>
      eapply only_runs_mono;
      [apply is_program_run_of_clock | apply only_runs_cmd_sync_rtc]
  | _ => command_step
  end.

Ltac disk_command :=
  match goal with
  | |- preserves _ cmd_status => apply disk_cmd_status
  | |- preserves _ cmd_list_local => apply disk_cmd_list_local
  | |- preserves _ cmd_list_cart => apply disk_cmd_list_cart
  | |- preserves _ cmd_compare => apply disk_cmd_compare
  | |- preserves _ cmd_upload => apply disk_cmd_upload
  | |- preserves _ cmd_quick_upload => apply disk_cmd_quick_upload
  | |- preserves _ cmd_update_menu => apply disk_cmd_update_menu
  | |- preserves _ (cmd_menu_music _) => apply disk_cmd_menu_music
  | |- preserves _ (cmd_sync_rtc _) => apply disk_cmd_sync_rtc
  | |- preserves _ cmd_browse_sd => apply disk_cmd_browse_sd
  | _ => disk_step
  end.

(** A command of the program, before what does not depend on the
    disk. *)
Lemma runs_from_program_command (w0 : world) (roms music_files : list Path)
    {A B} (m : M A) (k : A → M B) :
  runs_from w0 (is_program_run_of roms music_files) m →
  (∀ a, only_runs (is_program_run_of roms music_files) (k a)) →
  runs_from w0 (is_program_run_of roms music_files) (bind m k).
Proof.
  intros Hm Hk. eapply (runs_from_then _ _ (λ _, True));
    [done | by intros ? ? ? ? | by intros ? _].
Qed.

Ltac program_command_from :=
  match goal with
  | |- runs_from ?w0 _ cmd_upload =>
      eapply runs_from_mono;
      [apply is_program_run_of_upload | apply runs_from_cmd_upload]
  | |- runs_from ?w0 _ cmd_quick_upload =>
      eapply runs_from_mono;
      [apply is_program_run_of_upload | apply runs_from_cmd_quick_upload]
  | |- runs_from _ _ (bind _ _) =>
      apply runs_from_program_command; [|intros ?; repeat program_command]
  | |- runs_from _ _ _ => apply runs_from_only_runs; repeat program_command
  end.

Lemma runs_from_cmd_menu_music_program (w0 : world)
    (music_dir music_dir' : option (list fs_node)) :
  default [] music_dir' = default [] music_dir →
  runs_from w0
    (is_program_run_of (local_roms w0) (local_music w0 music_dir))
    (cmd_menu_music music_dir').
Proof.
  intros Hdir. rewrite <- (local_music_default w0 _ _ Hdir).
  eapply runs_from_mono;
    [apply is_program_run_of_music | apply runs_from_cmd_menu_music].
Qed.

Lemma runs_from_main_menu_step (w0 : world) (clock : world → str)
    (music_dir music_dir' : option (list fs_node)) :
  default [] music_dir' = default [] music_dir →
  runs_from w0
    (is_program_run_of (local_roms w0) (local_music w0 music_dir))
    (main_menu_step clock music_dir').
Proof.
  intros Hdir. unfold main_menu_step, print_menu. cbv zeta.
  apply runs_from_bind;
    [repeat disk_step | repeat program_command | intros _].
  apply runs_from_bind;
    [repeat disk_step | repeat program_command; by left; left
    |intros connected].
  do 3 (apply runs_from_bind;
          [repeat disk_step | repeat program_command | intros ?]).
  destruct (_ || _); [apply runs_from_only_runs; repeat program_command|].
  eapply (runs_from_seq _ _ (λ _, True));
    [ | |apply returns_any
    |intros [err|dir] _; apply runs_from_only_runs; repeat program_command].
  - repeat match goal with
           | |- preserves _ (if ?c then _ else _) => destruct c
           end; repeat disk_command.
  - repeat match goal with
           | |- runs_from _ _ (if ?c then _ else _) => destruct c
           end;
      first [ by apply runs_from_cmd_menu_music_program
            | repeat program_command_from ].
Qed.

Lemma returns_main_menu_step (clock : world → str)
    (music_dir music_dir' : option (list fs_node)) :
  default [] music_dir' = default [] music_dir →
  returns (λ r, match r with
                | Continue dir => default [] dir = default [] music_dir
                | Return _ => True
                end)
    (main_menu_step clock music_dir').
Proof.
  intros Hdir. unfold main_menu_step. cbv zeta.
  do 5 (apply returns_seq; intros ?).
  destruct (_ || _); [apply returns_seq; intros _; by apply returns_ret|].
  eapply (returns_bind
            (λ r, ∀ dir, r = inr dir →
                    default [] dir = default [] music_dir)).
  - repeat match goal with
           | |- returns _ (if ?c then _ else _) => destruct c
           end;
      first [ eapply returns_mono; [|apply returns_cmd_menu_music_dir];
              intros r Hr dir ->; cbv beta in Hr;
              by rewrite (Hr dir eq_refl)
            | apply returns_seq; intros ?; apply returns_ret;
              by intros ? [= <-]
            | apply returns_ret; by intros ? [= <-] ].
  - intros [err|dir] Hr; [by apply returns_ret|].
    apply returns_seq. intros _. apply returns_ret. by apply Hr.
Qed.

Lemma runs_from_main_menu (w0 : world) (clock : world → str)
    (music_dir : option (list fs_node)) :
  runs_from w0
    (is_program_run_of (local_roms w0) (local_music w0 music_dir))
    (main_menu clock music_dir).
Proof.
  unfold main_menu.
  apply (runs_from_input_loop _ _
           (λ dir, default [] dir = default [] music_dir));
    [intros dir; apply disk_main_menu_step
    |intros dir Hdir; by apply runs_from_main_menu_step
    |intros dir Hdir; by apply returns_main_menu_step
    |done].
Qed.

(** X21.  Whatever its arguments and whatever the user types, the program
    runs the deployer only to inspect ([list], [info], [sd ls]), to upload
    under its own name one of the files that [list_local_roms] returns in
    the world the program starts in, which are files with a ROM extension
    of the local ROM directory, to download the menu of the cart, to
    upload a file as the menu of the cart, to ask for, remove or replace
    the background music [SD_MENU_MUSIC_PATH], by one of the files that
    [list_local_music] returns in that world, which are [.mp3] files of
    the music directory, or to set the clock.  The only file of the card
    it ever removes is the background music. *)
Theorem main_only_runs (w : world) (argv : list str) (clock : world → str)
    (music_dir : option (list fs_node)) :
  (∃ new,
     calls (exec (main argv clock music_dir) w) = calls w ++ new
     ∧ Forall (is_program_run_of (local_roms w) (local_music w music_dir))
         new)
  ∧ eval list_local_roms w = Ok (local_roms w)
  ∧ Forall (λ rom, is_rom_file rom = true) (local_roms w)
  ∧ (∃ music_dir',
       eval (list_local_music music_dir) w
       = Ok (local_music w music_dir, music_dir'))
  ∧ Forall (λ mp3, is_mp3_file mp3 = true) (local_music w music_dir).
Proof.
  split; [|split; [|split; [|split]]].
  - cut (runs_from w
           (is_program_run_of (local_roms w) (local_music w music_dir))
           (main argv clock music_dir)); [intros Hmain; by apply Hmain|].
    unfold main. destruct argv as [|script [|arg argv]];
      [apply runs_from_main_menu..|].
    cbv zeta.
    repeat match goal with
           | |- runs_from _ _ (if ?c then _ else _) => destruct c
           end;
      first [ apply runs_from_program_command;
              [by apply runs_from_cmd_menu_music_program
              |intros [?|?]; repeat program_command]
            | repeat program_command_from ].
  - unfold eval. by rewrite (list_local_roms_from w w).
  - apply local_roms_are_roms.
  - by apply list_local_music_from.
  - apply local_music_are_mp3.
Qed.

(** ** The main menu reads the terminal in each round *)

Lemma keeps_input_preserves {A} (m : M A) : preserves stdin m → keeps_input m.
Proof. intros Hm w. by rewrite (Hm w). Qed.

Lemma keeps_input_iterate {S A} (fuel : nat) (body : S → M (loop_step S A)) s :
  (∀ s, keeps_input (body s)) → keeps_input (iterate fuel body s).
Proof.
  intros Hbody. revert s. induction fuel as [|fuel IH]; intros s; simpl.
  - apply keeps_input_raise.
  - apply keeps_input_bind; [apply Hbody|].
    intros [s'|a]; [apply IH | apply keeps_input_ret].
Qed.

Lemma keeps_input_input_loop {S A} (body : S → M (loop_step S A)) s :
  (∀ s, keeps_input (body s)) → keeps_input (input_loop body s).
Proof. intros Hbody w. unfold input_loop. by apply keeps_input_iterate. Qed.

Lemma keeps_input_ensure_menu_versions_dir :
  keeps_input ensure_menu_versions_dir.
Proof.
  intros w. unfold exec, ensure_menu_versions_dir, bind, get_world.
  by destruct (menu_versions_dir w).
Qed.

(** Take a step of a proof that a command leaves no more pending input
    than it found. *)
Ltac pending_step :=
  match goal with
  | |- keeps_input (match ?x with _ => _ end) => destruct x
  | |- keeps_input ((match ?x with _ => _ end) _) => destruct x; cbv beta
  | |- keeps_input (ret _) => apply keeps_input_ret
  | |- keeps_input (raise _) => apply keeps_input_raise
  | |- keeps_input get_world => apply keeps_input_get_world
  | |- keeps_input (index _ _) => apply keeps_input_index
  | |- keeps_input (print _) => apply keeps_input_print
  | |- keeps_input (input _) => apply keeps_input_input
  | |- keeps_input (run_sc64_command _) => apply keeps_input_run_sc64_command
  | |- keeps_input (list_sd_card_files _) =>
      apply keeps_input_list_sd_card_files
  | |- keeps_input (get_all_sd_roms _) =>
      apply keeps_input_preserves, stdin_get_all_sd_roms
  | |- keeps_input ensure_menu_versions_dir =>
      apply keeps_input_ensure_menu_versions_dir
  | |- keeps_input (bind _ _) => apply keeps_input_bind; [|intros ?]
  | |- keeps_input (try _ _) => apply keeps_input_try; [|intros ?]
  | |- keeps_input (for_each _ _) => apply keeps_input_for_each; intros ?
  | |- keeps_input (for_fold _ _ _) => apply keeps_input_for_fold; intros ? ?
  | |- keeps_input (input_loop _ _) => apply keeps_input_input_loop; intros ?
  end.

Lemma keeps_input_get_choice max_val prompt :
  keeps_input (get_choice max_val prompt).
Proof.
  unfold get_choice. apply keeps_input_input_loop. intros [].
  unfold get_choice_step. cbv zeta. repeat pending_step.
Qed.

Lemma keeps_input_get_multi_choice max_val prompt :
  keeps_input (get_multi_choice max_val prompt).
Proof.
  unfold get_multi_choice. apply keeps_input_input_loop. intros [].
  unfold get_multi_choice_step, collect_choices. cbv zeta.
  repeat pending_step.
Qed.

Lemma keeps_input_cmd_compare : keeps_input cmd_compare.
Proof. apply keeps_input_preserves, stdin_cmd_compare. Qed.

Lemma keeps_input_cmd_status : keeps_input cmd_status.
Proof.
  unfold cmd_status, print_header, check_device_connected,
    is_sd_card_accessible.
  repeat pending_step.
Qed.

Lemma keeps_input_cmd_list_local : keeps_input cmd_list_local.
Proof.
  unfold cmd_list_local, print_header, print_rom_lines, list_local_roms.
  repeat pending_step.
Qed.

Lemma keeps_input_cmd_list_cart : keeps_input cmd_list_cart.
Proof.
  unfold cmd_list_cart, list_cart_root, print_header, check_device_connected,
    is_sd_card_accessible.
  repeat pending_step.
Qed.

Lemma keeps_input_cmd_upload : keeps_input cmd_upload.
Proof.
  unfold cmd_upload, upload_selected, upload_rom_to_sd, print_header,
    print_rom_lines, check_device_connected, is_sd_card_accessible.
  cbv zeta.
  repeat first
    [ apply keeps_input_cmd_compare | apply keeps_input_get_choice
    | apply keeps_input_get_multi_choice | pending_step ].
Qed.

Lemma keeps_input_cmd_quick_upload : keeps_input cmd_quick_upload.
Proof.
  unfold cmd_quick_upload, quick_upload_selected, upload_rom_to_sd,
    print_header, print_rom_lines, check_device_connected,
    is_sd_card_accessible, list_local_roms.
  cbv zeta.
  repeat first [ apply keeps_input_get_multi_choice | pending_step ].
Qed.

Lemma keeps_input_cmd_update_menu : keeps_input cmd_update_menu.
Proof.
  unfold cmd_update_menu, list_local_menu_versions, backup_menu_from_cart,
    upload_menu_to_cart, select_menu_step, print_header, print_rom_lines,
    check_device_connected, is_sd_card_accessible.
  cbv zeta. repeat pending_step.
Qed.

Lemma keeps_input_cmd_menu_music (music_dir : option (list fs_node)) :
  keeps_input (cmd_menu_music music_dir).
Proof.
  unfold cmd_menu_music, list_local_music, ensure_menu_music_dir,
    check_menu_music_exists, delete_menu_music, upload_menu_music,
    music_set_options, print_header, print_rom_lines,
    check_device_connected, is_sd_card_accessible.
  cbv zeta. repeat first [ apply keeps_input_get_choice | pending_step ].
Qed.

Lemma keeps_input_cmd_sync_rtc (clock : world → str) :
  keeps_input (cmd_sync_rtc clock).
Proof.
  unfold cmd_sync_rtc, print_header, check_device_connected.
  cbv zeta. repeat pending_step.
Qed.

Lemma keeps_input_cmd_browse_sd : keeps_input cmd_browse_sd.
Proof.
  unfold cmd_browse_sd, browse_step, browse_render, browse_navigate,
    number_entries, print_header, check_device_connected,
    is_sd_card_accessible.
  cbv zeta. repeat pending_step.
Qed.

Lemma returns_on_input_then {A B} (m : M A) (k : A → M B) :
  returns_on_input m → (∀ a, keeps_input (k a)) → returns_on_input (bind m k).
Proof.
  intros Hm Hk w b. unfold eval, exec. rewrite bind_eta.
  destruct (eval m w) as [a|e] eqn:Ha; simpl; [|done].
  intros _. specialize (Hm w a Ha). specialize (Hk a (exec m w)).
  unfold exec in *. lia.
Qed.

Lemma returns_on_input_iterate {S A} (fuel : nat)
    (body : S → M (loop_step S A)) (s : S) :
  (∀ s, takes_input (body s)) → returns_on_input (iterate fuel body s).
Proof.
  intros Hbody. revert s. induction fuel as [|fuel IH]; intros s w a; simpl.
  - by unfold eval, raise.
  - unfold eval, exec. rewrite bind_eta.
    destruct (Hbody s w) as [Heof|Hless]; [by rewrite Heof|].
    destruct (eval (body s) w) as [[s'|a']|e]; simpl; [|done..].
    intros Hret. specialize (IH s' (exec (body s) w) a Hret).
    unfold exec in *. lia.
Qed.

Lemma returns_on_input_get_choice max_val prompt :
  returns_on_input (get_choice max_val prompt).
Proof.
  intros w. unfold get_choice, input_loop.
  apply returns_on_input_iterate. intros []. unfold get_choice_step.
  apply takes_input_try; [| |done].
  - apply takes_input_bind; [apply takes_input_input|].
    intros line. cbv zeta. repeat pending_step.
  - intros e. repeat pending_step.
Qed.

Lemma main_menu_step_loops (clock : world → str) :
  loops_on_input (main_menu_step clock).
Proof.
  apply returns_on_input_loops. intros music_dir.
  unfold main_menu_step. cbv zeta.
  apply returns_on_input_bind;
    [apply keeps_input_preserves, stdin_print_header|intros _].
  apply returns_on_input_bind;
    [apply keeps_input_preserves, stdin_check_device_connected|].
  intros connected.
  apply returns_on_input_bind; [apply keeps_input_print|intros _].
  apply returns_on_input_bind;
    [unfold print_menu; repeat pending_step|intros _].
  apply returns_on_input_then; [apply returns_on_input_get_choice|].
  intros choice.
  repeat first
    [ apply keeps_input_cmd_status | apply keeps_input_cmd_list_local
    | apply keeps_input_cmd_list_cart | apply keeps_input_cmd_compare
    | apply keeps_input_cmd_upload | apply keeps_input_cmd_quick_upload
    | apply keeps_input_cmd_update_menu | apply keeps_input_cmd_menu_music
    | apply keeps_input_cmd_sync_rtc | apply keeps_input_cmd_browse_sd
    | pending_step ].
Qed.

(** X22.  Each round of the main menu that goes on to another has read
    the terminal at least once, whatever command it ran, and no command
    puts input back: unrolled beyond the pending input, the loop of
    [main_menu] gives what [main_menu] gives. *)
Theorem main_menu_unrolled (w : world) (fuel : nat) (clock : world → str)
    (music_dir : option (list fs_node)) :
  (length (stdin w) < fuel)%nat →
  iterate fuel (main_menu_step clock) music_dir w
  = main_menu clock music_dir w.
Proof.
  intros Hfuel. unfold main_menu.
  by apply input_loop_unrolled; [apply main_menu_step_loops|].
Qed.

Lemma main_menu_unrolled_witness :
  iterate 9 (main_menu_step noon) None menu_round_world
  = main_menu noon None menu_round_world.
Proof.
  apply (main_menu_unrolled menu_round_world 9). simpl. lia.
Defined.

(** ** How the main menu ends *)

Lemma after_bind {A B} (Q : world → Prop) (m : M A) (k : A → M B) (b : B) :
  (∀ a w, eval (k a) w = Ok b → Q (exec (k a) w)) →
  ∀ w, eval (bind m k) w = Ok b → Q (exec (bind m k) w).
Proof.
  intros Hk w. unfold eval, exec. rewrite bind_eta.
  destruct (eval m w) as [a|e]; [apply Hk|done].
Qed.

Lemma after_bind_returns {A B} (R : A → Prop) (Q : world → Prop)
    (m : M A) (k : A → M B) (b : B) :
  returns R m →
  (∀ a, R a → ∀ w, eval (k a) w = Ok b → Q (exec (k a) w)) →
  ∀ w, eval (bind m k) w = Ok b → Q (exec (bind m k) w).
Proof.
  intros Hm Hk w. unfold eval, exec. rewrite bind_eta.
  destruct (eval m w) as [a|e] eqn:Ha; [|done].
  apply Hk. by apply (Hm w).
Qed.

Lemma after_iterate {S A} (Q : A → world → Prop)
    (body : S → M (loop_step S A)) :
  (∀ s a w, eval (body s) w = Ok (Return a) → Q a (exec (body s) w)) →
  ∀ fuel s a w,
    eval (iterate fuel body s) w = Ok a → Q a (exec (iterate fuel body s) w).
Proof.
  intros Hbody. induction fuel as [|fuel IH]; intros s a w; [done|].
  cbn [iterate]. unfold eval, exec. rewrite bind_eta.
  destruct (eval (body s) w) as [[s'|a']|e] eqn:Hstep; [apply IH| |done].
  unfold ret. cbn [fst snd]. intros [= <-]. by apply Hbody.
Qed.

(** The commands of the menu hand back the music directory: the
    [KeyError] of [cmd_menu_music] does not come about. *)
Lemma returns_menu_command (clock : world → str)
    (music_dir : option (list fs_node)) (choice : Z) :
  returns (λ outcome, ∃ music_dir', outcome = inr music_dir')
    (if choice =? 1 then cmd_status ;; ret (inr music_dir)
     else if choice =? 2 then cmd_list_local ;; ret (inr music_dir)
     else if choice =? 3 then cmd_list_cart ;; ret (inr music_dir)
     else if choice =? 4 then cmd_compare ;; ret (inr music_dir)
     else if choice =? 5 then cmd_upload ;; ret (inr music_dir)
     else if choice =? 6 then cmd_quick_upload ;; ret (inr music_dir)
     else if choice =? 7 then cmd_update_menu ;; ret (inr music_dir)
     else if choice =? 8 then cmd_menu_music music_dir
     else if choice =? 9 then cmd_sync_rtc clock ;; ret (inr music_dir)
     else if choice =? 10 then cmd_browse_sd ;; ret (inr music_dir)
     else ret (inr music_dir)).
Proof.
  repeat match goal with
         | |- returns _ (if ?c then _ else _) => destruct c
         end;
    try (apply returns_seq; intros _; apply returns_ret; by eexists);
    try (apply returns_ret; by eexists).
  eapply returns_mono; [|apply returns_cmd_menu_music].
  intros [[key]|music_dir'] Hkey; [by destruct (Hkey key) | by eexists].
Qed.

Lemma main_menu_step_returns (clock : world → str)
    (music_dir : option (list fs_node)) (a : key_error + unit) :
  ∀ w,
    eval (main_menu_step clock music_dir) w = Ok (Return a) →
    a = inr tt
    ∧ last (stdout (exec (main_menu_step clock music_dir) w))
      = Some (Print (txt "Goodbye!")).
Proof.
  unfold main_menu_step. cbv zeta.
  apply (after_bind (λ w', _ ∧ last (stdout w') = _)). intros _.
  apply (after_bind (λ w', _ ∧ last (stdout w') = _)). intros connected.
  do 2 (apply (after_bind (λ w', _ ∧ last (stdout w') = _)); intros _).
  apply (after_bind (λ w', _ ∧ last (stdout w') = _)). intros choice.
  destruct (_ || _).
  - intros w. unfold eval, exec, bind, print, ret. cbn [fst snd].
    intros [= <-]. split; [done|]. cbn [stdout set_stdout]. apply last_snoc.
  - apply (after_bind_returns _ (λ w', _ ∧ last (stdout w') = _) _ _ _
             (returns_menu_command clock music_dir choice)).
    intros outcome [music_dir' ->].
    apply (after_bind (λ w', _ ∧ last (stdout w') = _)). intros line w.
    by unfold eval, ret.
Qed.

(** X23.  [main_menu] returns only through its exit: when it returns, the
    last line printed is [Goodbye!].  The [KeyError] that the lookup
    [options_map[choice]] of [cmd_menu_music] could raise never ends it. *)
Theorem main_menu_returns (w : world) (clock : world → str)
    (music_dir : option (list fs_node)) (r : key_error + unit) :
  eval (main_menu clock music_dir) w = Ok r →
  r = inr tt
  ∧ last (stdout (exec (main_menu clock music_dir) w))
    = Some (Print (txt "Goodbye!")).
Proof.
  unfold main_menu, input_loop.
  apply (after_iterate
           (λ a w', a = inr tt
                    ∧ last (stdout w') = Some (Print (txt "Goodbye!")))).
  intros s a w'. apply main_menu_step_returns.
Qed.

Lemma main_menu_returns_witness :
  eval (main_menu noon None) menu_round_world = Ok (inr tt)
  ∧ last (stdout (exec (main_menu noon None) menu_round_world))
    = Some (Print (txt "Goodbye!")).
Proof.
  split; [by vm_compute|].
  apply (main_menu_returns menu_round_world noon None (inr tt)).
  by vm_compute.
Defined.

(** ** Ctrl-C at the two prompts of the main menu *)

Lemma get_choice_ctrl_c (max_val : Z) (prompt : str) (w : world)
    (rest : list stdin_event) :
  stdin w = CtrlC :: rest →
  get_choice max_val prompt w
  = (Ok 0,
     set_stdin rest
       (set_stdout (stdout w ++ [choice_prompt max_val prompt; Print []]) w)).
Proof.
  intros Hin. unfold get_choice. apply input_loop_return.
  unfold get_choice_step, try.
  rewrite (bind_raise _ _ _ _ _ (input_ctrl_c _ rest w Hin)).
  unfold bind, print, ret. f_equal.
  unfold set_stdin, set_stdout, choice_prompt. simpl. f_equal.
  by rewrite <- app_assoc.
Qed.

Lemma get_choice_number (max_val : Z) (prompt line : str) (val : Z)
    (w : world) (rest : list stdin_event) :
  stdin w = Line line :: rest →
  strip line ≠ txt "0" → py_int (strip line) = Some val →
  1 ≤ val ≤ max_val →
  get_choice max_val prompt w
  = (Ok val,
     set_stdin rest
       (set_stdout (stdout w ++ [choice_prompt max_val prompt]) w)).
Proof.
  intros Hin Hzero Hval Hrange. unfold get_choice. apply input_loop_return.
  unfold get_choice_step. apply try_ok.
  rewrite (bind_ok _ _ _ _ _ (input_line _ line rest w Hin)). cbv zeta.
  rewrite bool_decide_eq_false_2 by done. rewrite Hval.
  change ((1 <=? val) && (val <=? max_val)) with (in_range max_val val).
  by rewrite (proj2 (in_range_spec max_val val) Hrange).
Qed.

Lemma input_loop_raise {S A} (body : S → M (loop_step S A)) s w e w' :
  body s w = (Raise e, w') → input_loop body s w = (Raise e, w').
Proof.
  intros H. unfold input_loop. cbn [iterate].
  by rewrite (bind_raise _ _ _ _ _ H).
Qed.

Lemma prints_only_print_menu (options : list str) (title : str) :
  prints_only (print_menu options title).
Proof.
  unfold print_menu. repeat apply prints_only_seq; try apply prints_only_print.
  apply prints_only_for_each. intros [i opt]. apply prints_only_print.
Qed.

Lemma prints_only_cmd_list_local : prints_only cmd_list_local.
Proof.
  intros w. destruct (cmd_list_local w) as [res w'] eqn:Hrun. revert Hrun.
  unfold cmd_list_local. run_prints.
  unfold bind at 1, get_world at 1. cbv beta iota. do 2 run_prints.
  run_quiet quiet_list_local_roms.
  assert (∃ roms, list_local_roms w = (Ok roms, w)) as [roms Hroms].
  { unfold list_local_roms, bind, get_world, ret.
    destruct (roms_dir w); by eexists. }
  unfold eval, exec. rewrite Hroms. cbn [fst snd].
  match goal with
  | |- ?m ?w0 = _ → _ =>
      let H := fresh in
      assert (prints_only m) as H
        by (destruct (bool_decide _); auto 10 with prints);
      destruct (H w0) as [out2 ->]
  end.
  intros [= <- <-]. exists (out ++ out0 ++ out1 ++ out2).
  by rewrite set_stdout_twice, <- !app_assoc.
Qed.

(** Run the menu at the head of the goal. *)
Ltac run_print_menu :=
  match goal with
  | |- bind (print_menu ?options ?title) ?k ?w0 = _ → _ =>
      let out := fresh "out" in
      destruct (bind_prints (print_menu options title) k w0
                  (prints_only_print_menu options title)) as [out ->];
      cbv beta
  end.

(** X24.  Ctrl-C at the prompt of the main menu is an exit: [main_menu]
    returns, having read nothing more.  Ctrl-C at the prompt that follows
    a command is not caught: after [List Local ROMs], chosen by its number,
    [main_menu] ends with [KeyboardInterrupt], the prompt
    [Press Enter to continue...] being the last thing written. *)
Theorem main_menu_ctrl_c (w : world) (clock : world → str)
    (music_dir : option (list fs_node)) (connected : bool)
    (rest : list stdin_event) :
  eval check_device_connected w = Ok connected →
  (stdin w = CtrlC :: rest →
   eval (main_menu clock music_dir) w = Ok (inr tt)
   ∧ stdin (exec (main_menu clock music_dir) w) = rest)
  ∧ (∀ line,
       stdin w = Line line :: CtrlC :: rest →
       py_int (strip line) = Some 2 →
       eval (main_menu clock music_dir) w = Raise KeyboardInterrupt
       ∧ stdin (exec (main_menu clock music_dir) w) = rest
       ∧ last (stdout (exec (main_menu clock music_dir) w))
         = Some (Prompt (nl :: txt "Press Enter to continue..."))).
Proof.
  intros Hconn.
  assert (stdin (exec check_device_connected w) = stdin w) as Hsame
    by by rewrite check_device_connected_exec.
  split.
  - intros Hin.
    assert (∃ w', main_menu_step clock music_dir w = (Ok (Return (inr tt)), w')
                  ∧ stdin w' = rest) as (w' & Hstep & Hrest).
    { destruct (main_menu_step clock music_dir w) as [res w'] eqn:Hrun.
      revert Hrun. unfold main_menu_step. run_prints.
      run_quiet quiet_check_device_connected. rewrite Hconn. cbv zeta.
      run_prints.
      run_print_menu.
      match goal with
      | |- bind (get_choice ?max_val ?prompt) ?k ?w0 = _ → _ =>
          assert (stdin w0 = CtrlC :: rest) as Hin0
            by (cbn [stdin set_stdout]; by rewrite Hsame);
          rewrite (bind_ok _ k _ _ _
                     (get_choice_ctrl_c max_val prompt w0 rest Hin0))
      end.
      change ((0 =? 0) || (0 =? 11)) with true. cbv iota.
      unfold bind, print, ret. intros [= <- <-]. by eexists. }
    unfold eval, exec, main_menu.
    rewrite (input_loop_return _ _ _ _ _ Hstep). done.
  - intros line Hin Hline.
    assert (strip line ≠ txt "0") as Hzero.
    { intros Heq. rewrite Heq in Hline. vm_compute in Hline.
      discriminate Hline. }
    assert (∃ w', main_menu_step clock music_dir w
                  = (Raise KeyboardInterrupt, w')
                  ∧ stdin w' = rest
                  ∧ last (stdout w')
                    = Some (Prompt (nl :: txt "Press Enter to continue...")))
      as (w' & Hstep & Hrest & Hlast).
    { destruct (main_menu_step clock music_dir w) as [res w'] eqn:Hrun.
      revert Hrun. unfold main_menu_step. run_prints.
      run_quiet quiet_check_device_connected. rewrite Hconn. cbv zeta.
      run_prints.
      run_print_menu.
      match goal with
      | |- bind (get_choice ?max_val ?prompt) ?k ?w0 = _ → _ =>
          assert (stdin w0 = Line line :: CtrlC :: rest) as Hin0
            by (cbn [stdin set_stdout]; by rewrite Hsame);
          rewrite (bind_ok _ k _ _ _
                     (get_choice_number max_val prompt line 2 w0
                        (CtrlC :: rest) Hin0 Hzero Hline
                        ltac:(by vm_compute)))
      end.
      change ((2 =? 0) || (2 =? 11)) with false.
      change (2 =? 1) with false. change (2 =? 2) with true. cbv iota.
      rewrite bind_assoc.
      match goal with
      | |- bind cmd_list_local ?k ?w0 = _ → _ =>
          destruct (bind_prints cmd_list_local k w0 prints_only_cmd_list_local)
            as [out2 ->]
      end.
      unfold bind at 1, ret at 1. cbv beta iota.
      match goal with
      | |- bind (input ?prompt) ?k ?w0 = _ → _ =>
          rewrite (bind_raise _ k _ _ _
                     (input_ctrl_c prompt rest w0 ltac:(reflexivity)))
      end.
      intros [= <- <-]. eexists. split; [reflexivity|]. split; [done|].
      cbn [stdout set_stdout set_stdin]. apply last_snoc. }
    unfold eval, exec, main_menu.
    rewrite (input_loop_raise _ _ _ _ _ Hstep). done.
Qed.

Lemma main_menu_ctrl_c_witness :
  eval check_device_connected interrupted_world = Ok true
  ∧ eval (main_menu noon None) interrupted_world = Raise KeyboardInterrupt
  ∧ last (stdout (exec (main_menu noon None) interrupted_world))
    = Some (Prompt (nl :: txt "Press Enter to continue...")).
Proof.
  split; [reflexivity|].
  destruct (main_menu_ctrl_c interrupted_world noon None true [] eq_refl)
    as [_ Hpause].
  destruct (Hpause (txt " 2 ") eq_refl eq_refl) as (Hraise & _ & Hlast).
  split; [exact Hraise | exact Hlast].
Defined.
